(** * Shooting stars: the grid model, the reference-counted paths and the
      breadth-first solver of [star.c].

    The development follows the layout of the C file: game grids, the shared
    path structure, the queue, and the solver.  Grids are [uint16_t] values,
    modelled as integers of [Z]; path nodes live in an explicit heap. *)

From stdpp Require Import gmap list.
From Stdlib Require Import ZArith Lia Bool Ascii.

Local Open Scope Z_scope.

(** ** Game grids *)

Module Grid.

(** [typedef uint16_t Grid]. *)
Definition Grid := Z.

Definition is_grid (g : Grid) : Prop := 0 <= g < 65536.

(** Conversion of an [int] result back to [uint16_t]. *)
Definition u16 (x : Z) : Grid := x mod 65536.

(** The 512 grids that only use the nine cell bits. *)
Definition representable (g : Grid) : Prop := 0 <= g < 512.

Definition empty_grid : Grid := 0.        (* 0b0000000000000000 *)
Definition winning_grid : Grid := 0x1EF.  (* 0b0000000111101111 *)
Definition error_grid : Grid := 0xFFFF.   (* 0b1111111111111111 *)

Definition cell1 : Grid := 0x100.  (* 0b0000000100000000 *)
Definition cell2 : Grid := 0x080.  (* 0b0000000010000000 *)
Definition cell3 : Grid := 0x040.  (* 0b0000000001000000 *)
Definition cell4 : Grid := 0x020.  (* 0b0000000000100000 *)
Definition cell5 : Grid := 0x010.  (* 0b0000000000010000 *)
Definition cell6 : Grid := 0x008.  (* 0b0000000000001000 *)
Definition cell7 : Grid := 0x004.  (* 0b0000000000000100 *)
Definition cell8 : Grid := 0x002.  (* 0b0000000000000010 *)
Definition cell9 : Grid := 0x001.  (* 0b0000000000000001 *)

Inductive Outcome := Won | Lost | Continue.

(** An integer used as a C truth value. *)
Definition to_bool (x : Z) : bool := negb (x =? 0).

Definition is_star (grid : Grid) (cell : Z) : bool :=
  match cell with
  | 1 => to_bool (Z.land cell1 grid)
  | 2 => to_bool (Z.land cell2 grid)
  | 3 => to_bool (Z.land cell3 grid)
  | 4 => to_bool (Z.land cell4 grid)
  | 5 => to_bool (Z.land cell5 grid)
  | 6 => to_bool (Z.land cell6 grid)
  | 7 => to_bool (Z.land cell7 grid)
  | 8 => to_bool (Z.land cell8 grid)
  | 9 => to_bool (Z.land cell9 grid)
  | _ => false
  end.

Definition explode (grid : Grid) (cell : Z) : Grid :=
  if negb (is_star grid cell) then grid
  else
    match cell with
    | 1 => u16 (Z.lxor 0x1B0 grid)  (* 0b0000000110110000 *)
    | 2 => u16 (Z.lxor 0x1C0 grid)  (* 0b0000000111000000 *)
    | 3 => u16 (Z.lxor 0x0D8 grid)  (* 0b0000000011011000 *)
    | 4 => u16 (Z.lxor 0x124 grid)  (* 0b0000000100100100 *)
    | 5 => u16 (Z.lxor 0x0BA grid)  (* 0b0000000010111010 *)
    | 6 => u16 (Z.lxor 0x049 grid)  (* 0b0000000001001001 *)
    | 7 => u16 (Z.lxor 0x036 grid)  (* 0b0000000000110110 *)
    | 8 => u16 (Z.lxor 0x007 grid)  (* 0b0000000000000111 *)
    | 9 => u16 (Z.lxor 0x01B grid)  (* 0b0000000000011011 *)
    | _ => grid
    end.

Definition outcome (grid : Grid) : Outcome :=
  if grid =? empty_grid then Lost
  else if grid =? winning_grid then Won
  else Continue.

(** The cells, in the order of the solver's [for] loop. *)
Definition all_cells : list Z := [1; 2; 3; 4; 5; 6; 7; 8; 9].

(** The cells whose content differs between two grids. *)
Definition toggled (g g' : Grid) : list Z :=
  List.filter (fun c => xorb (is_star g c) (is_star g' c)) all_cells.

(** The cells that hold a star. *)
Definition stars (g : Grid) : list Z := List.filter (is_star g) all_cells.

(** The constant that [explode] xors into the grid for each cell. *)
Definition explosion (cell : Z) : Z :=
  match cell with
  | 1 => 0x1B0 | 2 => 0x1C0 | 3 => 0x0D8
  | 4 => 0x124 | 5 => 0x0BA | 6 => 0x049
  | 7 => 0x036 | 8 => 0x007 | 9 => 0x01B
  | _ => 0
  end.

(** The cells an explosion reaches, as the game lays them out:
<<
      1 2 3
      4 5 6
      7 8 9
>>
    a corner takes its 2x2 block, an edge takes its own outer row or column,
    the centre takes the cross. *)
Definition blast (cell : Z) : list Z :=
  match cell with
  | 1 => [1; 2; 4; 5] | 2 => [1; 2; 3] | 3 => [2; 3; 5; 6]
  | 4 => [1; 4; 7] | 5 => [2; 4; 5; 6; 8] | 6 => [3; 6; 9]
  | 7 => [4; 5; 7; 8] | 8 => [7; 8; 9] | 9 => [5; 6; 8; 9]
  | _ => []
  end.

Inductive Position := Corner | Edge | Centre.

Definition position (cell : Z) : Position :=
  match cell with
  | 5 => Centre
  | 2 | 4 | 6 | 8 => Edge
  | _ => Corner
  end.

(** Row and column of a cell, both in 0..2. *)
Definition row (cell : Z) : Z := (cell - 1) / 3.
Definition col (cell : Z) : Z := (cell - 1) mod 3.

(** The pattern the specification describes: the cell and every in-grid
    orthogonal or diagonal neighbour. *)
Definition spec_neighbourhood (cell : Z) : list Z :=
  List.filter
    (fun c => (Z.abs (row c - row cell) <=? 1) && (Z.abs (col c - col cell) <=? 1))
    all_cells.

(** The number of toggled positions the specification gives per position. *)
Definition spec_toggle_count (cell : Z) : nat :=
  match position cell with
  | Corner => 3%nat
  | Edge => 5%nat
  | Centre => 5%nat
  end.

(** The winning pattern the specification describes. *)
Definition spec_winning_cells : list Z := [2; 3; 5; 6; 7; 8].

End Grid.

(** ** Paths: shared, reference-counted, singly linked lists of moves *)

Module Paths.

(** Addresses of allocated nodes.  A [Path *] is [None] for [NULL], and the
    empty path is [NULL]. *)
Definition loc := positive.
Definition Path := option loc.

Record PathNode := mkPathNode { references : Z; move : Z; rest : Path }.

(** The part of the C heap that holds [Path] nodes.  As in block-based memory
    models, a [malloc] that succeeds hands out the next unused address. *)
Record Heap := mkHeap { cells : gmap loc PathNode; nextblock : loc }.

(** Whether a call of [malloc] or [calloc] succeeds is not up to the program.
    [Allocations] tells it for the requests of a run, numbered from 0 in the
    order they are made: [true] where memory is returned, [false] where the
    call returns [NULL]. *)
Definition Allocations := nat -> bool.

Definition never_fails (memory : Allocations) : Prop :=
  forall k, memory k = true.

(** Every request succeeds. *)
Definition plenty : Allocations := fun _ => true.

(** Request [n] fails, and no other. *)
Definition fails_at (n : nat) : Allocations := fun k => negb (k =? n)%nat.

Definition empty_heap : Heap := mkHeap ∅ 1%positive.

Definition load (h : Heap) (a : loc) : option PathNode := cells h !! a.

Definition store (h : Heap) (a : loc) (n : PathNode) : Heap :=
  mkHeap (<[a := n]> (cells h)) (nextblock h).

(** [malloc (sizeof (Path))] and, when it succeeds, the writes that
    initialise the node to [n]. *)
Definition malloc (ok : bool) (h : Heap) (n : PathNode) : Heap * Path :=
  if ok then
    (mkHeap (<[nextblock h := n]> (cells h)) (Pos.succ (nextblock h)),
     Some (nextblock h))
  else (h, None).

Definition free (h : Heap) (a : loc) : Heap :=
  mkHeap (delete a (cells h)) (nextblock h).

Definition new_path : Path := None.

(** [path->references = r]. *)
Definition set_references (n : PathNode) (r : Z) : PathNode :=
  mkPathNode r (move n) (rest n).

(** Reading through a pointer to a node that is not allocated has no defined
    behaviour in C; the operations below answer [None] there. *)
Definition inc_reference_to_path (h : Heap) (path : Path) : option Heap :=
  match path with
  | None => Some h
  | Some a =>
      n ← load h a;
      Some (store h a (set_references n (references n + 1)))
  end.

(** [drop_reference_to_path], with the depth of the C recursion bounded by
    [fuel]. *)
Fixpoint drop_rec (fuel : nat) (h : Heap) (path : Path) : option Heap :=
  match fuel with
  | O => None
  | S fuel =>
      match path with
      | None => Some h
      | Some a =>
          n ← load h a;
          let n' := set_references n (references n - 1) in
          let h1 := store h a n' in
          if references n' =? 0 then
            h2 ← drop_rec fuel h1 (rest n');
            Some (free h2 a)
          else Some h1
      end
  end.

(** The recursion follows [rest] through nodes it is about to free.  One
    call more than there are allocated nodes is enough whenever these nodes
    are distinct, which reference counts that are exact guarantee. *)
Definition drop_reference_to_path (h : Heap) (path : Path) : option Heap :=
  drop_rec (S (size (cells h))) h path.

(** [ok] is the outcome of the call of [malloc]: when it fails, [NULL] is
    returned, which is also the empty path. *)
Definition add_move_to_path (ok : bool) (h : Heap) (path : Path) (move : Z)
  : option (Heap * Path) :=
  match malloc ok h (mkPathNode 1 move path) with
  | (h1, Some new_path) =>
      h2 ← inc_reference_to_path h1 path;
      Some (h2, Some new_path)
  | (h1, None) => Some (h1, None)
  end.

(** [print_path_loop]: the moves in the order they are printed, the oldest
    first. *)
Fixpoint print_path_loop (fuel : nat) (h : Heap) (path : Path) : option (list Z) :=
  match fuel with
  | O => None
  | S fuel =>
      match path with
      | None => Some []
      | Some a =>
          n ← load h a;
          out ← print_path_loop fuel h (rest n);
          Some (out ++ [move n])
      end
  end.

(** [linked h p l]: following [rest] from [p] reaches [NULL] and meets the
    moves [l], the most recent first. *)
Inductive linked (h : Heap) : Path -> list Z -> Prop :=
  | linked_null : linked h None []
  | linked_node a n l :
      load h a = Some n -> linked h (rest n) l -> linked h (Some a) (move n :: l).

(** *** Counting references *)

(** The nodes of the heap whose [rest] is [a]. *)
Definition pointing_to (c : gmap loc PathNode) (a : loc) : gmap loc PathNode :=
  filter (fun kn => rest kn.2 = Some a) c.

Definition indegree (c : gmap loc PathNode) (a : loc) : nat :=
  size (pointing_to c a).

(** The number of references to [a] among the paths some owners hold. *)
Definition held (owned : list Path) (a : loc) : nat :=
  length (filter (fun p => p = Some a) owned).

(** The heap is well counted for the references its owners hold: a count is
    positive and is the number of owners plus the number of nodes that point to
    the node; nothing dangles; a node is younger than its [rest]. *)
Record counted (h : Heap) (owned : list Path) : Prop := mkCounted {
  counted_references : forall a n,
    load h a = Some n ->
    references n = Z.of_nat (held owned a + indegree (cells h) a)
    /\ 0 < references n;
  counted_owned : forall a, Some a ∈ owned -> is_Some (load h a);
  counted_rest : forall a n r,
    load h a = Some n -> rest n = Some r -> is_Some (load h r) /\ (r < a)%positive;
  counted_next : forall a, is_Some (load h a) -> (a < nextblock h)%positive
}.

(** *** Programs over paths *)

(** A client holds references in numbered slots: slot 0 is the reference it
    acquired last.  [Extend] and [Retain] acquire one reference, [Release]
    gives the one in a slot back.  An [Extend] whose allocation fails
    acquires [NULL]. *)
Inductive op :=
  | Extend (slot : option nat) (move : Z)   (* [None]: extend the empty path *)
  | Retain (slot : nat)
  | Release (slot : nat).

(** The number of references held after a program, if every slot it names is
    one it holds at that point. *)
Fixpoint holds (prog : list op) (n : nat) : option nat :=
  match prog with
  | [] => Some n
  | Extend None _ :: prog => holds prog (S n)
  | Extend (Some i) _ :: prog => if decide (i < n)%nat then holds prog (S n) else None
  | Retain i :: prog => if decide (i < n)%nat then holds prog (S n) else None
  | Release i :: prog =>
      if decide (i < n)%nat then holds prog (Nat.pred n) else None
  end.

(** Every acquisition is matched by exactly one release. *)
Definition balanced (prog : list op) : Prop := holds prog 0 = Some 0%nat.

Definition exec (ok : bool) (o : op) (st : Heap * list Path)
  : option (Heap * list Path) :=
  let '(h, owned) := st in
  match o with
  | Extend None m =>
      '(h', p) ← add_move_to_path ok h new_path m;
      Some (h', p :: owned)
  | Extend (Some i) m =>
      q ← owned !! i;
      '(h', p) ← add_move_to_path ok h q m;
      Some (h', p :: owned)
  | Retain i =>
      q ← owned !! i;
      h' ← inc_reference_to_path h q;
      Some (h', q :: owned)
  | Release i =>
      q ← owned !! i;
      h' ← drop_reference_to_path h q;
      Some (h', delete i owned)
  end.

(** Operation [k] of the program, if it is an [Extend], has its allocation
    succeed or fail as [memory k] says. *)
Fixpoint run (memory : Allocations) (prog : list op) (st : Heap * list Path)
  : option (Heap * list Path) :=
  match prog with
  | [] => Some st
  | o :: prog =>
      st' ← exec (memory 0%nat) o st;
      run (fun k => memory (S k)) prog st'
  end.

End Paths.

(** ** The queue of nodes to visit *)

Module Queue.
Import Grid Paths.

Record QueueNode := mkQueueNode { path : Path; grid : Grid }.

(** The doubly linked list, read from [first] to [last] along [next].  The
    operations are given a queue that was allocated: the solver returns
    before it uses one that is [NULL]. *)
Definition Queue := list QueueNode.

(** [NULL] when the allocation of the queue fails. *)
Definition new_queue (ok : bool) : option Queue :=
  if ok then Some [] else None.

Definition pop_back (queue : Queue) : option (QueueNode * Queue) :=
  match reverse queue with
  | [] => None
  | last :: before => Some (last, reverse before)
  end.

(** [ok] is the outcome of the allocation of the node: when it fails the
    queue is left as it is, and nothing tells the caller. *)
Definition push_front (ok : bool) (queue : Queue) (path : Path) (grid : Grid)
  : Queue :=
  if ok then mkQueueNode path grid :: queue else queue.

Definition free_queue_node (h : Heap) (node : QueueNode) : option Heap :=
  drop_reference_to_path h (path node).

(** The nodes are freed in the order [pop_back] yields them. *)
Fixpoint free_nodes (h : Heap) (nodes : list QueueNode) : option Heap :=
  match nodes with
  | [] => Some h
  | node :: nodes => h' ← free_queue_node h node; free_nodes h' nodes
  end.

Definition free_queue (h : Heap) (queue : Queue) : option Heap :=
  free_nodes h (reverse queue).

End Queue.

(** ** The solution *)

Module Solver.
Import Grid Paths Queue.

(** The [visited] array: 512 slots, all zero after [calloc].  A slot that was
    never written is absent from the map; an index outside the array is an
    access out of bounds, answered by [None]. *)
Definition visited_slots : Z := 512.

Definition visited_get (visited : gmap Z bool) (g : Grid) : option bool :=
  if decide (0 <= g < visited_slots) then Some (default false (visited !! g))
  else None.

Definition visited_set (visited : gmap Z bool) (g : Grid) : option (gmap Z bool) :=
  if decide (0 <= g < visited_slots) then Some (<[g := true]> visited)
  else None.

Record State := mkState {
  heap : Heap;
  visited : gmap Z bool;
  to_visit : Queue;
  winning_path : Path;
  requests : nat   (* the allocations requested so far *)
}.

(** [calloc(512, sizeof(bool))] *)
Definition calloc (ok : bool) : option (gmap Z bool) :=
  if ok then Some ∅ else None.

Section Memory.

Variable memory : Allocations.

(** The [for] loop over the cells that are still to be tried; [k] counts the
    allocations requested so far. *)
Fixpoint expand (cells : list Z) (node : QueueNode) (visited : gmap Z bool)
    (k : nat) (h : Heap) (queue : Queue) : option (nat * Heap * Queue) :=
  match cells with
  | [] => Some (k, h, queue)
  | i :: cells =>
      if is_star (grid node) i then
        let new_grid := explode (grid node) i in
        seen ← visited_get visited new_grid;
        if seen : bool then expand cells node visited k h queue
        else
          '(h', new_path) ← add_move_to_path (memory k) h (path node) i;
          expand cells node visited (S (S k)) h'
            (push_front (memory (S k)) queue new_path new_grid)
      else expand cells node visited k h queue
  end.

(** The body of the [while] loop for the node that was popped, up to and
    including [free_queue_node]. *)
Definition visit (st : State) (node : QueueNode) (queue : Queue) : option State :=
  visited ← visited_set (visited st) (grid node);
  match outcome (grid node) with
  | Won =>
      h1 ← inc_reference_to_path (heap st) (path node);
      h2 ← free_queue_node h1 node;
      Some (mkState h2 visited queue (path node) (requests st))
  | Continue =>
      '(k, h1, queue1) ← expand all_cells node visited (requests st) (heap st) queue;
      h2 ← free_queue_node h1 node;
      Some (mkState h2 visited queue1 (winning_path st) k)
  | Lost =>
      h2 ← free_queue_node (heap st) node;
      Some (mkState h2 visited queue (winning_path st) (requests st))
  end.

(** The [while] loop; [fuel] bounds the number of iterations. *)
Fixpoint search (fuel : nat) (st : State) : option State :=
  match fuel with
  | O => None
  | S fuel =>
      match pop_back (to_visit st) with
      | None => Some st
      | Some (node, queue) =>
          st' ← visit st node queue;
          match winning_path st' with
          | Some _ => Some st'
          | None => search fuel st'
          end
      end
  end.

(** The state in which the loop is entered, when [visited] and [to_visit]
    were allocated: requests 0 and 1 were theirs, request 2 is the node of
    the initial grid. *)
Definition initial_state (h : Heap) (initial : Grid) : State :=
  mkState h ∅ (push_front (memory 2%nat) [] new_path initial) None 3.

(** The result is the heap that is left and the pointer that is returned. *)
Definition shortest_winning_path (fuel : nat) (initial : Grid)
  : option (Heap * Path) :=
  match calloc (memory 0%nat), new_queue (memory 1%nat) with
  | Some visited, Some to_visit =>
      let to_visit := push_front (memory 2%nat) to_visit new_path initial in
      st ← search fuel (mkState empty_heap visited to_visit None 3);
      h ← free_queue (heap st) (Solver.to_visit st);
      Some (h, winning_path st)
  | _, _ => Some (empty_heap, None)
  end.

(** The state at the start of iteration [n] of the loop, if the loop gets
    there. *)
Fixpoint iterate (n : nat) (st : State) : option State :=
  match n with
  | O => Some st
  | S n =>
      '(node, queue) ← pop_back (to_visit st);
      st' ← visit st node queue;
      match winning_path st' with
      | Some _ => None
      | None => iterate n st'
      end
  end.

(** The grid that iteration [n] takes from the queue. *)
Definition dequeued (initial : Grid) (n : nat) : option Grid :=
  st ← iterate n (initial_state empty_heap initial);
  '(node, _) ← pop_back (to_visit st);
  Some (grid node).

End Memory.

(** [play]: what is printed, if anything, and the heap that is left. *)
Inductive Mode := Chatty | Silent.

Inductive Printed :=
  | NoWinningSequence      (* "There's no winning sequence of moves!" *)
  | MinusOne               (* "-1" *)
  | Moves (moves : list Z). (* one move per line *)

Definition print_path (h : Heap) (path : Path) : option Printed :=
  match path with
  | None => Some MinusOne
  | Some _ => Moves <$> print_path_loop (S (size (cells h))) h path
  end.

Definition play (memory : Allocations) (fuel : nat) (grid : Grid) (mode : Mode)
  : option (option Printed * Heap) :=
  '(h, winning_path) ← shortest_winning_path memory fuel grid;
  printed ←
    match mode with
    | Chatty =>
        match winning_path with
        | None => Some (Some NoWinningSequence)
        | Some _ => Some <$> print_path h winning_path
        end
    | Silent => Some None
    end;
  h' ← drop_reference_to_path h winning_path;
  Some (printed, h').

(** Replaying moves, the oldest first. *)
Definition replay (initial : Grid) (moves : list Z) : Grid :=
  fold_left explode moves initial.

End Solver.

(** ** The search on plain lists

    The same loop without the heap, under the same allocations: a path is
    the list of its moves, the most recent first, and the queue lists its
    entries in the order they leave it.  The solver is shown to follow this
    search step by step, and the properties of the search are proved on
    it. *)

Module Pure.
Import Grid Solver.

Definition Entry : Type := list Z * Grid.

Section Memory.

Variable memory : Paths.Allocations.

(** The entries the [for] loop pushes, in the order it pushes them, [k]
    allocations having been requested before.  Where the allocation of the
    path fails the entry has the empty path; where the allocation of the
    queue node fails there is no entry. *)
Fixpoint children (cells : list Z) (p : list Z) (g : Grid) (visited : gmap Z bool)
    (k : nat) : list Entry :=
  match cells with
  | [] => []
  | i :: cells =>
      if is_star g i then
        if default false (visited !! explode g i) then children cells p g visited k
        else
          let p' := if memory k then i :: p else [] in
          let rest := children cells p g visited (S (S k)) in
          if memory (S k) then (p', explode g i) :: rest else rest
      else children cells p g visited k
  end.

(** The allocations the [for] loop requests. *)
Fixpoint requested (cells : list Z) (g : Grid) (visited : gmap Z bool) : nat :=
  match cells with
  | [] => 0
  | i :: cells =>
      if is_star g i then
        if default false (visited !! explode g i) then requested cells g visited
        else S (S (requested cells g visited))
      else requested cells g visited
  end.

Fixpoint search (fuel : nat) (visited : gmap Z bool) (queue : list Entry)
    (k : nat) : option (list Z) :=
  match fuel with
  | O => None
  | S fuel =>
      match queue with
      | [] => Some []
      | (p, g) :: queue =>
          let visited := <[g := true]> visited in
          match outcome g with
          | Won =>
              match p with
              | [] => search fuel visited queue k
              | _ => Some p
              end
          | Continue =>
              search fuel visited (queue ++ children all_cells p g visited k)
                (k + requested all_cells g visited)
          | Lost => search fuel visited queue k
          end
      end
  end.

Definition shortest_winning_path (fuel : nat) (initial : Grid) : option (list Z) :=
  if memory 0%nat && memory 1%nat then
    search fuel ∅ (if memory 2%nat then [([], initial)] else []) 3
  else Some [].

End Memory.

(** *** Distances *)

(** One explosion the solver follows: of a star, on a grid it expands. *)
Definition move (g : Grid) (c : Z) (g' : Grid) : Prop :=
  outcome g = Continue /\ is_star g c = true /\ g' = explode g c.

(** [reach initial n g]: [n] such explosions lead from [initial] to [g]. *)
Inductive reach (initial : Grid) : nat -> Grid -> Prop :=
  | reach_start : reach initial 0 initial
  | reach_move n g c g' :
      reach initial n g -> move g c g' -> reach initial (S n) g'.

Definition seen (visited : gmap Z bool) (g : Grid) : Prop :=
  default false (visited !! g) = true.

Definition depth (e : Entry) : nat := length e.1.

(** What holds of the search each time it takes an entry from the queue,
    [d] being the depth of that entry. *)
Record layered (initial : Grid) (d : nat) (visited : gmap Z bool)
    (now next : list Entry) : Prop := mkLayered {
  layered_now : Forall (fun e => depth e = d) now;
  layered_next : Forall (fun e => depth e = S d) next;
  layered_below : forall n g, (n < d)%nat -> reach initial n g -> seen visited g;
  layered_level : forall g,
    reach initial d g -> seen visited g \/ exists p, (p, g) ∈ now;
  layered_expanded : forall g c g',
    seen visited g -> move g c g' ->
    seen visited g' \/ exists p, (p, g') ∈ now ++ next;
  layered_replay : forall p g,
    (p, g) ∈ now ++ next -> replay initial (reverse p) = g;
  layered_open : ~ seen visited winning_grid
}.

(** *** A bound on the iterations *)

(** The grids that are not marked yet. *)
Definition unvisited (visited : gmap Z bool) : nat := 512 - size visited.

(** Iterations an entry can cause while [u] grids are unvisited: [fresh u] if
    its grid is one of them, [stale u] if its grid is marked already. *)
Fixpoint fresh (u : nat) : nat :=
  match u with
  | O => 1
  | S u => 1 + 9 * (1 + 9 * fresh u)
  end.

Definition stale (u : nat) : nat := 1 + 9 * fresh u.

Definition weight (visited : gmap Z bool) (e : Entry) : nat :=
  if default false (visited !! e.2) then stale (unvisited visited)
  else fresh (unvisited visited).

Definition potential (visited : gmap Z bool) (queue : list Entry) : nat :=
  sum_list (weight visited <$> queue).

(** The [visited] array is in use as [calloc] and the loop leave it: only
    slots of the array are written, and only with [true]. *)
Definition marks (visited : gmap Z bool) : Prop :=
  forall g b, visited !! g = Some b -> b = true /\ representable g.

End Pure.

(** ** The solver follows the search on lists *)

Module Simulation.
Import Grid Paths Queue Solver.

(** A queue node stands for an entry when it holds the same grid and its
    path links the entry's moves. *)
Definition stands_for (h : Heap) (node : QueueNode) (e : Pure.Entry) : Prop :=
  grid node = e.2 /\ linked h (path node) e.1.

(** The queue of the solver holds, from [last] to [first], the entries of
    the search. *)
Definition follows (h : Heap) (queue : Queue) (entries : list Pure.Entry) : Prop :=
  Forall2 (stands_for h) (reverse queue) entries.

Definition links_agree (h h' : Heap) : Prop :=
  forall a n n', load h a = Some n -> load h' a = Some n' ->
    move n' = move n /\ rest n' = rest n.

Definition valid (h : Heap) (p : Path) : Prop :=
  match p with None => True | Some a => is_Some (load h a) end.

Definition within_heap (h' h : Heap) : Prop :=
  forall a, is_Some (load h' a) -> is_Some (load h a).

End Simulation.

(** ** Printing and parsing *)

Module Text.
Import Grid.

(** The characters of a C string: what precedes the first NUL. *)
Fixpoint c_string (input : list ascii) : list ascii :=
  match input with
  | [] => []
  | c :: input => if Ascii.eqb c "000" then [] else c :: c_string input
  end.

Definition strlen (input : list ascii) : nat := length (c_string input).

Definition newline : ascii := "010".

(** [cell & grid ? '*' : '.'] *)
Definition star_or_hole (x : Z) : ascii := if to_bool x then "*"%char else "."%char.

(** What [print_grid] writes to the standard output. *)
Definition print_grid (grid : Grid) : list ascii :=
  [star_or_hole (Z.land cell1 grid); star_or_hole (Z.land cell2 grid);
   star_or_hole (Z.land cell3 grid); newline;
   star_or_hole (Z.land cell4 grid); star_or_hole (Z.land cell5 grid);
   star_or_hole (Z.land cell6 grid); newline;
   star_or_hole (Z.land cell7 grid); star_or_hole (Z.land cell8 grid);
   star_or_hole (Z.land cell9 grid)].

(** [isspace] in the C locale. *)
Definition isspace (c : ascii) : bool :=
  match nat_of_ascii c with
  | 9%nat | 10%nat | 11%nat | 12%nat | 13%nat | 32%nat => true
  | _ => false
  end.

(** A white-space character in a [scanf] format skips any white space,
    possibly none. *)
Fixpoint skip_spaces (s : list ascii) : list ascii :=
  match s with
  | [] => []
  | c :: s' => if isspace c then skip_spaces s' else s
  end.

(** [%c] takes the next character, whatever it is, and fails at the end of
    the input. *)
Definition scan_char (s : list ascii) : option (ascii * list ascii) :=
  match s with
  | [] => None
  | c :: s => Some (c, s)
  end.

Definition scan3 (s : list ascii) : option (ascii * ascii * ascii * list ascii) :=
  '(a, s) ← scan_char s;
  '(b, s) ← scan_char s;
  '(c, s) ← scan_char s;
  Some (a, b, c, s).

(** [sscanf(input, "%c%c%c\n%c%c%c\n%c%c%c", ...)]: the nine characters that
    are stored, when all nine conversions succeed. *)
Definition sscanf (s : list ascii) : option (list ascii) :=
  '(a, b, c, s) ← scan3 s;
  '(d, e, f, s) ← scan3 (skip_spaces s);
  '(g, h, i, s) ← scan3 (skip_spaces s);
  Some [a; b; c; d; e; f; g; h; i].

(** [grid = ch == '*' ? (cell | grid) : (ch == '.' ? grid : error_grid)] *)
Definition place (cell : Grid) (ch : ascii) (grid : Grid) : Grid :=
  if Ascii.eqb ch "*" then u16 (Z.lor cell grid)
  else if Ascii.eqb ch "." then grid
  else error_grid.

Definition cell_bits : list Grid :=
  [cell1; cell2; cell3; cell4; cell5; cell6; cell7; cell8; cell9].

(** The nine assignments to [grid], in order. *)
Fixpoint place_all (cells : list Grid) (chars : list ascii) (grid : Grid) : Grid :=
  match cells, chars with
  | cell :: cells, ch :: chars => place_all cells chars (place cell ch grid)
  | _, _ => grid
  end.

(** [parse].  When [sscanf] stops early, some of the nine characters are
    read without having been written; the result is then not determined by
    the code and the model answers [None]. *)
Definition parse (input : list ascii) : option Grid :=
  if negb (strlen input =? 11)%nat then Some error_grid
  else
    chars ← sscanf (c_string input);
    Some (place_all cell_bits chars empty_grid).

(** Whether reading back what [print_grid] prints gives the grid. *)
Definition round_trip_ok (g : Z) : bool :=
  match parse (print_grid g) with
  | Some g' => g' =? g
  | None => false
  end.

(** A character that stands for a cell. *)
Definition cell_char (c : ascii) : Prop := c = "*"%char \/ c = "."%char.

(** The grid with a star where the character is a star. *)
Definition grid_of_chars (chars : list ascii) : Grid :=
  place_all cell_bits chars empty_grid.

(** The cells whose character is a star. *)
Definition stars_of_chars (chars : list ascii) : list Z :=
  List.filter
    (fun c => Ascii.eqb (nth (Z.to_nat (c - 1)) chars "."%char) "*")
    all_cells.

End Text.

(** ** The queue as the doubly linked list it is

    [Queue] above reads the list; here are the nodes, their [next] and [prev]
    pointers and the two ends, as [pop_back] and [push_front] update them. *)

Module LinkedQueue.
Import Grid Paths.

Record QueueNode := mkQueueNode {
  path : Path;
  grid : Grid;
  next : option loc;
  prev : option loc
}.

Record Queue := mkQueue { first : option loc; last : option loc }.

(** The part of the C heap that stores queue nodes; [malloc] as for paths. *)
Record Nodes := mkNodes { nodes : gmap loc QueueNode; nextnode : loc }.

(** [NULL] when the allocation of the queue fails. *)
Definition new_queue (ok : bool) : option Queue :=
  if ok then Some (mkQueue None None) else None.

(** [node->prev = p]. *)
Definition set_prev (n : QueueNode) (p : option loc) : QueueNode :=
  mkQueueNode (path n) (grid n) (next n) p.

(** The queue after the call and the pointer that is returned. *)
Definition pop_back (m : Nodes) (queue : Queue) : option (Queue * option loc) :=
  match last queue with
  | None => Some (queue, None)
  | Some l =>
      n ← nodes m !! l;
      let queue := mkQueue (first queue) (prev n) in
      let queue :=
        match last queue with
        | None => mkQueue None (last queue)
        | Some _ => queue
        end in
      Some (queue, Some l)
  end.

(** [ok] is the outcome of the allocation of the node. *)
Definition push_front (ok : bool) (m : Nodes) (queue : Queue) (path : Path)
    (grid : Grid) : option (Nodes * Queue) :=
  if ok then
    let new_first := nextnode m in
    let m :=
      mkNodes (<[new_first := mkQueueNode path grid (first queue) None]> (nodes m))
              (Pos.succ (nextnode m)) in
    m ← match first queue with
        | Some f =>
            n ← nodes m !! f;
            Some (mkNodes (<[f := set_prev n (Some new_first)]> (nodes m))
                          (nextnode m))
        | None => Some m
        end;
    let queue := mkQueue (Some new_first) (last queue) in
    let queue :=
      match last queue with
      | None => mkQueue (first queue) (Some new_first)
      | Some _ => queue
      end in
    Some (m, queue)
  else Some (m, queue).

Definition free_queue_node (h : Heap) (m : Nodes) (node : loc)
  : option (Heap * Nodes) :=
  n ← nodes m !! node;
  h' ← drop_reference_to_path h (path n);
  Some (h', mkNodes (delete node (nodes m)) (nextnode m)).

(** The loop of [free_queue]; [fuel] bounds its iterations. *)
Fixpoint free_queue_loop (fuel : nat) (h : Heap) (m : Nodes) (queue : Queue)
  : option (Heap * Nodes) :=
  match fuel with
  | O => None
  | S fuel =>
      '(queue, node) ← pop_back m queue;
      match node with
      | None => Some (h, m)
      | Some node =>
          '(h, m) ← free_queue_node h m node;
          free_queue_loop fuel h m queue
      end
  end.

Definition free_queue (h : Heap) (m : Nodes) (queue : Queue) : option (Heap * Nodes) :=
  free_queue_loop (S (size (nodes m))) h m queue.

(** [chain m from l]: following [prev] from [from] meets the nodes [l] and
    ends on [NULL]. *)
Inductive chain (m : Nodes) : option loc -> list loc -> Prop :=
  | chain_null : chain m None []
  | chain_node a n l :
      nodes m !! a = Some n -> chain m (prev n) l -> chain m (Some a) (a :: l).

(** The node at [a] stores the path and the grid of [e]. *)
Definition stores (m : Nodes) (a : loc) (e : Queue.QueueNode) : Prop :=
  exists n, nodes m !! a = Some n /\ path n = Queue.path e /\ grid n = Queue.grid e.

(** The linked queue stands for the list [q] of the solver's model: from
    [last] along [prev] its nodes hold the elements of [q] from the last to
    the first, and [first] points to the node that ends the chain. *)
Definition represents (m : Nodes) (queue : Queue) (q : Queue.Queue) : Prop :=
  exists l,
    chain m (last queue) l /\
    first queue = list.last l /\
    Forall (fun a => (a < nextnode m)%positive) l /\
    Forall2 (stores m) l (reverse q).

(** The queues that runs of the operations build, with their nodes:
    [popped] lists the nodes [pop_back] has returned that were not freed
    since.  A run starts with [new_queue]; it may push, with an allocation
    that succeeds or fails, pop, and free a node that was popped. *)
Inductive built : Nodes -> Queue -> list loc -> Prop :=
  | built_new queue nx :
      new_queue true = Some queue -> built (mkNodes ∅ nx) queue []
  | built_push ok m queue popped path grid m' queue' :
      built m queue popped ->
      push_front ok m queue path grid = Some (m', queue') ->
      built m' queue' popped
  | built_pop m queue popped queue' node :
      built m queue popped ->
      pop_back m queue = Some (queue', node) ->
      built m queue' (option_list node ++ popped)
  | built_free h m queue popped popped' node h' m' :
      built m queue (popped ++ node :: popped') ->
      free_queue_node h m node = Some (h', m') ->
      built m' queue (popped ++ popped').

End LinkedQueue.

(** * Facts about grids *)

Module GridFacts.
Import Grid.

Lemma land_pow2_testbit (k g : Z) :
  0 <= k -> to_bool (Z.land (2 ^ k) g) = Z.testbit g k.
Proof.
  intros Hk. unfold to_bool.
  destruct (Z.testbit g k) eqn:E.
  - destruct (Z.eqb_spec (Z.land (2 ^ k) g) 0) as [H0|]; [|reflexivity].
    exfalso.
    assert (Hb : Z.testbit (Z.land (2 ^ k) g) k = true)
      by (rewrite Z.land_spec, Z.pow2_bits_true, E by assumption; reflexivity).
    rewrite H0, Z.bits_0 in Hb. discriminate.
  - replace (Z.land (2 ^ k) g) with 0; [reflexivity|].
    symmetry. apply Z.bits_inj'. intros n Hn.
    rewrite Z.land_spec, Z.bits_0.
    destruct (Z.eq_dec k n) as [<-|Hne].
    + rewrite E. apply andb_false_r.
    + rewrite Z.pow2_bits_false by assumption. reflexivity.
Qed.

(** Either the cell is one of the nine, or all three tables take their
    default branch. *)
Lemma cell_cases (c : Z) :
  (c = 1 \/ c = 2 \/ c = 3 \/ c = 4 \/ c = 5 \/ c = 6 \/ c = 7 \/ c = 8 \/ c = 9) \/
  (~ 1 <= c <= 9 /\ forall g, is_star g c = false /\ explode g c = g).
Proof.
  destruct (decide (1 <= c <= 9)) as [Hc|Hc]; [left; lia|right].
  split; [assumption|]. intros g.
  destruct c as [|p|p]; [split; reflexivity| |split; reflexivity].
  destruct p as [[[[p|p|]|[p|p|]|]|[[p|p|]|[p|p|]|]|]|[[[p|p|]|[p|p|]|]|[[p|p|]|[p|p|]|]|]|];
    try (split; reflexivity); exfalso; lia.
Qed.

Ltac each_cell H :=
  destruct H as [->|[->|[->|[->|[->|[->|[->|[->| ->]]]]]]]].

Lemma in_range_cases (c : Z) :
  1 <= c <= 9 ->
  c = 1 \/ c = 2 \/ c = 3 \/ c = 4 \/ c = 5 \/ c = 6 \/ c = 7 \/ c = 8 \/ c = 9.
Proof. lia. Qed.

Lemma is_star_testbit (g c : Z) :
  1 <= c <= 9 -> is_star g c = Z.testbit g (9 - c).
Proof.
  intros Hc. apply in_range_cases in Hc. each_cell Hc; cbn [is_star].
  - apply (land_pow2_testbit 8); lia.
  - apply (land_pow2_testbit 7); lia.
  - apply (land_pow2_testbit 6); lia.
  - apply (land_pow2_testbit 5); lia.
  - apply (land_pow2_testbit 4); lia.
  - apply (land_pow2_testbit 3); lia.
  - apply (land_pow2_testbit 2); lia.
  - apply (land_pow2_testbit 1); lia.
  - apply (land_pow2_testbit 0); lia.
Qed.

Lemma explode_eq (g c : Z) :
  explode g c = if is_star g c then u16 (Z.lxor (explosion c) g) else g.
Proof.
  destruct (cell_cases c) as [Hc|[_ Hc]].
  - unfold explode. each_cell Hc; destruct (is_star g _); reflexivity.
  - destruct (Hc g) as [-> ->]. reflexivity.
Qed.

Lemma u16_testbit (x k : Z) : 0 <= k < 16 -> Z.testbit (u16 x) k = Z.testbit x k.
Proof.
  intros Hk. unfold u16. change 65536 with (2 ^ 16).
  apply Z.mod_pow2_bits_low. lia.
Qed.

Lemma is_star_explode (g c c' : Z) :
  1 <= c' <= 9 -> is_star g c = true ->
  is_star (explode g c) c' = xorb (Z.testbit (explosion c) (9 - c')) (is_star g c').
Proof.
  intros Hc' Hs. rewrite explode_eq, Hs.
  rewrite !is_star_testbit by assumption.
  rewrite u16_testbit by lia. apply Z.lxor_spec.
Qed.

Lemma is_star_in_range (g c : Z) : is_star g c = true -> 1 <= c <= 9.
Proof.
  intros Hs. destruct (cell_cases c) as [Hc|[_ Hc]]; [lia|].
  destruct (Hc g) as [Hf _]. congruence.
Qed.

Lemma xorb_cancel (a b : bool) : xorb a (xorb b a) = b.
Proof. destruct a, b; reflexivity. Qed.

Lemma lxor_below (n a b : Z) :
  0 < n -> 0 <= a < 2 ^ n -> 0 <= b < 2 ^ n -> 0 <= Z.lxor a b < 2 ^ n.
Proof.
  intros Hn Ha Hb.
  assert (H0 : 0 <= Z.lxor a b) by (apply Z.lxor_nonneg; lia).
  split; [assumption|].
  destruct (Z.eq_dec (Z.lxor a b) 0) as [->|Hne]; [lia|].
  apply Z.log2_lt_pow2; [lia|].
  pose proof (Z.log2_lxor a b ltac:(lia) ltac:(lia)) as Hl.
  assert (Z.log2 a < n).
  { destruct (Z.eq_dec a 0) as [->|]; [simpl; lia|]. apply Z.log2_lt_pow2; lia. }
  assert (Z.log2 b < n).
  { destruct (Z.eq_dec b 0) as [->|]; [simpl; lia|]. apply Z.log2_lt_pow2; lia. }
  lia.
Qed.

Lemma explosion_below (c : Z) : 0 <= explosion c < 2 ^ 9.
Proof.
  destruct (cell_cases c) as [Hc|[Hc _]].
  - each_cell Hc; simpl; lia.
  - assert (explosion c = 0) as ->; [|lia].
    destruct c as [|p|p]; [reflexivity| |reflexivity].
    destruct p as [[[[p|p|]|[p|p|]|]|[[p|p|]|[p|p|]|]|]|[[[p|p|]|[p|p|]|]|[[p|p|]|[p|p|]|]|]|];
      try reflexivity; exfalso; lia.
Qed.

Lemma explode_representable (g c : Z) :
  representable g -> representable (explode g c).
Proof.
  unfold representable. intros Hg. rewrite explode_eq.
  destruct (is_star g c); [|assumption].
  pose proof (explosion_below c) as Hm.
  pose proof (lxor_below 9 (explosion c) g ltac:(lia) Hm ltac:(lia)) as Hx.
  unfold u16. rewrite Z.mod_small; lia.
Qed.

Lemma explode_is_grid (g c : Z) : is_grid g -> is_grid (explode g c).
Proof.
  unfold is_grid. intros Hg. rewrite explode_eq.
  destruct (is_star g c); [|assumption].
  unfold u16. apply Z.mod_pos_bound. lia.
Qed.

(** C3 (as the code has it): exploding a star toggles exactly the cells of
    [blast]: the cell itself, and for a corner the rest of its 2x2 block (4
    positions), for an edge the rest of its outer row or column (3 positions),
    for the centre the cross (5 positions); the new grid is the old one xored
    with the constant of the cell. *)
Theorem explode_toggles_blast (g c : Z) :
  is_star g c = true ->
  toggled g (explode g c) = blast c /\
  (is_grid g -> explode g c = Z.lxor (explosion c) g) /\
  In c (blast c) /\
  length (blast c) =
    match position c with Corner => 4%nat | Edge => 3%nat | Centre => 5%nat end.
Proof.
  intros Hs. pose proof (is_star_in_range _ _ Hs) as Hc.
  split; [|split].
  - unfold toggled, all_cells. cbn [List.filter].
    rewrite !(is_star_explode g c) by (assumption || lia).
    rewrite !xorb_cancel.
    apply in_range_cases in Hc. each_cell Hc; reflexivity.
  - intros Hg. rewrite explode_eq, Hs. unfold u16, is_grid in *.
    apply Z.mod_small. change 65536 with (2 ^ 16).
    pose proof (explosion_below c) as Hm.
    apply lxor_below; [lia| |assumption].
    assert (2 ^ 9 < 2 ^ 16) by reflexivity. lia.
  - apply in_range_cases in Hc. each_cell Hc; cbn; split; (reflexivity || tauto).
Qed.

Lemma explode_toggles_blast_witness :
  toggled cell1 (explode cell1 1) = blast 1 /\
  (is_grid cell1 -> explode cell1 1 = Z.lxor (explosion 1) cell1) /\
  In 1 (blast 1) /\
  length (blast 1) =
    match position 1 with Corner => 4%nat | Edge => 3%nat | Centre => 5%nat end.
Proof. apply (explode_toggles_blast cell1 1). reflexivity. Defined.

(** C3, as the specification words it, fails: the corner star 1 toggles four
    positions, not three, and the edge star 2 toggles three positions, not
    five, leaving its neighbours 4, 5 and 6 alone. *)
Lemma explode_spec_pattern_fails :
  is_star cell1 1 = true /\
  length (toggled cell1 (explode cell1 1)) = 4%nat /\
  spec_toggle_count 1 = 3%nat /\
  is_star cell2 2 = true /\
  toggled cell2 (explode cell2 2) = [1; 2; 3] /\
  spec_neighbourhood 2 = [1; 2; 3; 4; 5; 6] /\
  spec_toggle_count 2 = 5%nat.
Proof. repeat split; reflexivity. Qed.

(** C4 (as the code has it): the winning grid has a star in every cell but the
    centre: cells 1, 2, 3, 4, 6, 7, 8 and 9 are stars, cell 5 is a hole, and no
    other bit is set. *)
Theorem winning_grid_cells :
  stars winning_grid = [1; 2; 3; 4; 6; 7; 8; 9] /\
  (forall c, is_star winning_grid c = true <-> In c [1; 2; 3; 4; 6; 7; 8; 9]) /\
  winning_grid =
    Z.lor cell1 (Z.lor cell2 (Z.lor cell3 (Z.lor cell4
      (Z.lor cell6 (Z.lor cell7 (Z.lor cell8 cell9)))))).
Proof.
  split; [reflexivity|]. split; [|reflexivity].
  intros c. destruct (cell_cases c) as [Hc|[Hc Hd]].
  - each_cell Hc; cbn; intuition (discriminate || lia).
  - destruct (Hd winning_grid) as [-> _]. cbn. intuition (discriminate || lia).
Qed.

(** C4, as the specification words it, fails: cells 1, 4 and 9 of the winning
    grid are stars and cell 5 is a hole. *)
Lemma winning_grid_not_spec_pattern :
  stars winning_grid <> spec_winning_cells /\
  is_star winning_grid 1 = true /\ ~ In 1 spec_winning_cells /\
  is_star winning_grid 5 = false /\ In 5 spec_winning_cells.
Proof.
  split; [discriminate|]. split; [reflexivity|].
  split; [cbn; lia|]. split; [reflexivity|]. cbn. tauto.
Qed.

Lemma is_star_out_of_range (g c : Z) : ~ 1 <= c <= 9 -> is_star g c = false.
Proof.
  intros Hc. destruct (cell_cases c) as [H|[_ H]]; [lia|]. apply H.
Qed.

Lemma explode_not_star (g c : Z) : is_star g c = false -> explode g c = g.
Proof. intros Hs. rewrite explode_eq, Hs. reflexivity. Qed.

(** C9: [is_star] is false on every cell outside 1..9, and [explode] returns
    its input grid whenever the cell is not a star of it, so in particular on
    every cell outside 1..9; both are total functions. *)
Theorem is_star_explode_defaults (g c : Z) :
  (~ 1 <= c <= 9 -> is_star g c = false) /\
  (is_star g c = false -> explode g c = g) /\
  (~ 1 <= c <= 9 -> explode g c = g).
Proof.
  pose proof (is_star_out_of_range g c) as Hout.
  pose proof (explode_not_star g c) as Hno.
  auto.
Qed.

(** C10: exploding the same cell twice is the same as exploding it once. *)
Theorem explode_idempotent (g c : Z) :
  explode (explode g c) c = explode g c.
Proof.
  destruct (is_star g c) eqn:Hs.
  - pose proof (is_star_in_range _ _ Hs) as Hc.
    assert (Hhole : is_star (explode g c) c = false).
    { rewrite is_star_explode, Hs by assumption.
      apply in_range_cases in Hc. each_cell Hc; reflexivity. }
    rewrite (explode_eq (explode g c)), Hhole. reflexivity.
  - rewrite (explode_not_star g c Hs). apply explode_not_star. assumption.
Qed.

End GridFacts.

(** * Facts about paths *)

Module PathFacts.
Import Paths Simulation.

Implicit Types (h : Heap) (c : gmap loc PathNode) (a b r : loc) (n : PathNode)
  (p q : Path) (owned : list Path).

(** *** Counting lemmas *)

Lemma held_cons owned p a :
  held (p :: owned) a = ((if decide (p = Some a) then 1 else 0) + held owned a)%nat.
Proof.
  unfold held. rewrite filter_cons.
  repeat case_decide; (reflexivity || contradiction).
Qed.

Lemma held_perm owned owned' a : owned ≡ₚ owned' -> held owned a = held owned' a.
Proof. intros Hp. unfold held. rewrite Hp. reflexivity. Qed.

Lemma held_zero owned a : Some a ∉ owned -> held owned a = 0%nat.
Proof.
  intros Hn. unfold held.
  induction owned as [|p owned IH]; [reflexivity|].
  rewrite filter_cons. rewrite not_elem_of_cons in Hn. destruct Hn as [Hne Hn].
  case_decide; [congruence|auto].
Qed.

Lemma held_pos owned a : (0 < held owned a)%nat -> Some a ∈ owned.
Proof.
  intros Hh. destruct (decide (Some a ∈ owned)) as [|Hn]; [assumption|].
  rewrite held_zero in Hh by assumption. lia.
Qed.

Lemma held_elem owned a : Some a ∈ owned -> (0 < held owned a)%nat.
Proof.
  intros Hin. destruct (Nat.eq_dec (held owned a) 0) as [Hz|]; [|lia].
  exfalso. induction owned as [|p owned IH]; [apply elem_of_nil in Hin; assumption|].
  rewrite held_cons in Hz. apply elem_of_cons in Hin as [Hin|Hin].
  - subst p. rewrite decide_True in Hz by reflexivity. lia.
  - apply IH; [assumption|lia].
Qed.

Lemma indegree_insert_fresh c b n a :
  c !! b = None ->
  indegree (<[b := n]> c) a
  = ((if decide (rest n = Some a) then 1 else 0) + indegree c a)%nat.
Proof.
  intros Hb. unfold indegree, pointing_to.
  rewrite map_filter_insert. cbn [snd].
  destruct (decide (rest n = Some a)).
  - rewrite map_size_insert_None; [reflexivity|].
    apply map_lookup_filter_None. auto.
  - rewrite delete_id by assumption. reflexivity.
Qed.

Lemma indegree_delete c b n a :
  c !! b = Some n ->
  indegree c a
  = ((if decide (rest n = Some a) then 1 else 0) + indegree (delete b c) a)%nat.
Proof.
  intros Hb. rewrite <-(insert_delete_id c b n) at 1 by assumption.
  apply indegree_insert_fresh, lookup_delete_eq.
Qed.

Lemma indegree_update c b n n' a :
  c !! b = Some n -> rest n' = rest n ->
  indegree (<[b := n']> c) a = indegree c a.
Proof.
  intros Hb Hr. rewrite (indegree_delete c b n a Hb).
  rewrite <-insert_delete_eq.
  rewrite indegree_insert_fresh by apply lookup_delete_eq.
  rewrite Hr. reflexivity.
Qed.

Lemma indegree_pos c a :
  (0 < indegree c a)%nat -> exists b n, c !! b = Some n /\ rest n = Some a.
Proof.
  intros Hp. unfold indegree in Hp.
  destruct (map_size_ne_0_lookup_1 (pointing_to c a)) as [b [n Hn]]; [lia|].
  apply map_lookup_filter_Some in Hn as [Hn Hr]. eauto.
Qed.

Lemma indegree_zero c a b n :
  indegree c a = 0%nat -> c !! b = Some n -> rest n <> Some a.
Proof.
  intros Hz Hb Hr. rewrite (indegree_delete c b n a Hb) in Hz.
  destruct (decide (rest n = Some a)); [lia|contradiction].
Qed.



(** *** The heap primitives *)

Lemma load_store h a n b :
  load (store h a n) b = if decide (a = b) then Some n else load h b.
Proof. unfold load, store. cbn. apply lookup_insert. Qed.

Lemma load_store_eq h a n : load (store h a n) a = Some n.
Proof. rewrite load_store, decide_True; reflexivity. Qed.

Lemma load_store_ne h a n b : a <> b -> load (store h a n) b = load h b.
Proof. intros. rewrite load_store, decide_False; auto. Qed.

Lemma load_free h a b :
  load (free h a) b = if decide (a = b) then None else load h b.
Proof. unfold load, free. cbn. apply lookup_delete. Qed.

Lemma load_store_is_Some h a n b :
  is_Some (load h b) -> is_Some (load (store h a n) b).
Proof. intros Hb. rewrite load_store. case_decide; eauto. Qed.

Lemma store_store_ne h a x b y :
  a <> b -> store (store h a x) b y = store (store h b y) a x.
Proof. intros Hne. unfold store. cbn. f_equal. apply insert_insert_ne. auto. Qed.

Lemma free_store_ne h a x b :
  a <> b -> free (store h a x) b = store (free h b) a x.
Proof. intros Hne. unfold store, free. cbn. f_equal. apply delete_insert_ne. auto. Qed.

Lemma free_store_fresh h a x : load h a = None -> free (store h a x) a = h.
Proof.
  intros Ha. unfold store, free, load in *. destruct h as [c nb]. cbn in *.
  f_equal. rewrite delete_insert_eq. apply delete_id. assumption.
Qed.

Lemma store_free h a n x :
  load h a = Some n -> store (free h a) a x = store h a x.
Proof.
  intros Ha. unfold store, free. cbn. f_equal. apply insert_delete_eq.
Qed.

(** *** [counted] and its owners *)

Lemma counted_perm h owned owned' :
  owned ≡ₚ owned' -> counted h owned -> counted h owned'.
Proof.
  intros Hp [H1 H2 H3 H4]. split; try assumption.
  - intros a n Ha. rewrite <-(held_perm _ _ a Hp). auto.
  - intros a Ha. apply H2. rewrite Hp. assumption.
Qed.

Lemma counted_null h owned : counted h (None :: owned) -> counted h owned.
Proof.
  intros [H1 H2 H3 H4]. split; try assumption.
  intros a Ha. apply H2. right. assumption.
Qed.

Lemma counted_null_cons h owned : counted h owned -> counted h (None :: owned).
Proof.
  intros [H1 H2 H3 H4]. split; try assumption.
  intros a Ha. apply H2. apply elem_of_cons in Ha as [|]; [discriminate|assumption].
Qed.

Lemma counted_valid h owned p : counted h owned -> p ∈ owned -> valid h p.
Proof. intros Hc Hp. destruct p as [a|]; [|exact I]. eapply counted_owned; eauto. Qed.

Lemma linked_transfer h h' p l :
  links_agree h h' ->
  (forall a n r, load h' a = Some n -> rest n = Some r -> is_Some (load h' r)) ->
  valid h' p -> linked h p l -> linked h' p l.
Proof.
  intros Hag Hcl Hv Hl. induction Hl as [|a n l Ha Hl IH]; [constructor|].
  destruct Hv as [n' Hn']. destruct (Hag a n n' Ha Hn') as [Hm Hr].
  rewrite <-Hm. econstructor; [eassumption|].
  rewrite Hr. apply IH.
  destruct (rest n) as [r|] eqn:Er; [|exact I].
  eapply Hcl; [eassumption|]. congruence.
Qed.

Lemma linked_counted h h' owned p l :
  links_agree h h' -> counted h' owned -> valid h' p -> linked h p l -> linked h' p l.
Proof.
  intros Hag Hc. apply linked_transfer; [assumption|].
  intros a n r Ha Hr. eapply counted_rest; eauto.
Qed.

Lemma linked_inj h p l l' : linked h p l -> linked h p l' -> l = l'.
Proof.
  intros Hl. revert l'. induction Hl as [|a n l Ha Hl IH]; intros l' Hl'.
  - inversion Hl'. reflexivity.
  - inversion Hl' as [|a' n' l2 Ha' Hl2]; subst.
    assert (n' = n) by congruence. subst. f_equal. auto.
Qed.

Lemma linked_null_iff h p l : linked h p l -> (p = None <-> l = []).
Proof. intros Hl. destruct Hl; split; intros; (reflexivity || discriminate). Qed.

(** *** Taking a reference *)

Lemma inc_counted h owned p :
  counted h owned -> valid h p ->
  exists h', inc_reference_to_path h p = Some h' /\
    counted h' (p :: owned) /\ links_agree h h' /\
    (forall q, valid h q -> valid h' q) /\ nextblock h' = nextblock h.
Proof.
  intros Hc Hv. destruct p as [a|]; cbn.
  2:{ exists h. split; [reflexivity|]. split; [apply counted_null_cons; assumption|].
      split; [|auto]. intros a n n' Ha Ha'. split; congruence. }
  destruct Hv as [n Hn]. rewrite Hn. cbn.
  eexists. split; [reflexivity|].
  set (n' := set_references n (references n + 1)).
  destruct Hc as [H1 H2 H3 H4].
  split; [split|split; [|split]].
  - intros b nb Hb. rewrite held_cons. cbn [cells store].
    rewrite (indegree_update _ a n n') by (assumption || reflexivity).
    rewrite load_store in Hb. case_decide as Hab.
    + subst b. injection Hb as <-. rewrite decide_True by reflexivity.
      destruct (H1 a n Hn) as [Hr Hp]. cbn. lia.
    + rewrite decide_False by congruence. apply H1. assumption.
  - intros b Hb. apply load_store_is_Some.
    apply elem_of_cons in Hb as [Hb|Hb]; [injection Hb as ->; eauto|auto].
  - intros b nb r Hb Hr. rewrite load_store in Hb. case_decide as Hab.
    + subst b. injection Hb as <-. destruct (H3 a n r Hn Hr) as [Hs Hlt].
      split; [apply load_store_is_Some|]; assumption.
    + destruct (H3 b nb r Hb Hr) as [Hs Hlt].
      split; [apply load_store_is_Some|]; assumption.
  - intros b Hb. apply H4. rewrite load_store in Hb.
    case_decide; [subst; eauto|assumption].
  - intros b nb nb' Hb Hb'. rewrite load_store in Hb'. case_decide.
    + subst b. assert (nb = n) by congruence. subst. injection Hb' as <-. auto.
    + assert (nb' = nb) by congruence. subst. auto.
  - intros [b|] Hq; [|exact I]. apply load_store_is_Some. assumption.
  - reflexivity.
Qed.


(** *** Adding a move *)

(** Allocating a node whose [rest] is [p] hands the reference to [p] that an
    owner held over to the new node. *)
Lemma malloc_counted h owned p m :
  counted h (p :: owned) ->
  let a := nextblock h in
  let h1 := (malloc true h (mkPathNode 1 m p)).1 in
  counted h1 (Some a :: owned) /\ links_agree h h1 /\
  (forall q, valid h q -> valid h1 q) /\
  load h1 a = Some (mkPathNode 1 m p).
Proof.
  intros Hc a h1. set (node := mkPathNode 1 m p).
  assert (Hfresh : load h a = None).
  { destruct (load h a) eqn:E; [|reflexivity].
    pose proof (counted_next _ _ Hc a (mk_is_Some _ _ E)). unfold a in *. lia. }
  assert (Hnotowned : Some a ∉ p :: owned).
  { intros Hin. apply (counted_owned _ _ Hc) in Hin as [? Hin]. congruence. }
  assert (Hnopointer : forall b nb, load h b = Some nb -> rest nb <> Some a).
  { intros b nb Hb Hr. destruct (counted_rest _ _ Hc b nb a Hb Hr) as [[? Hs] _].
    congruence. }
  apply not_elem_of_cons in Hnotowned as [Hp_ne Hnotowned].
  assert (Hload1 : forall b, load h1 b = if decide (a = b) then Some node else load h b).
  { intros b. unfold load, h1, malloc. cbn. apply lookup_insert. }
  assert (Hdeg1 : forall b, indegree (cells h1) b
            = ((if decide (p = Some b) then 1 else 0) + indegree (cells h) b)%nat).
  { intros b. unfold h1, malloc. cbn [fst cells].
    apply (indegree_insert_fresh (cells h) a node b Hfresh). }
  assert (Hvalid : forall q, valid h q -> valid h1 q).
  { intros [b|] Hq; [|exact I]. cbn. rewrite Hload1. case_decide; eauto. }
  split; [split|split; [|split]].
  - intros b nb Hb. rewrite held_cons, Hdeg1. rewrite Hload1 in Hb.
    case_decide as Hab.
    + subst b. injection Hb as <-. rewrite decide_True by reflexivity.
      rewrite decide_False by congruence. rewrite (held_zero owned a Hnotowned).
      assert (Hz : indegree (cells h) a = 0%nat).
      { destruct (indegree (cells h) a) eqn:E; [reflexivity|].
        destruct (indegree_pos (cells h) a) as (b & nb & Hb & Hr); [lia|].
        exfalso. eapply Hnopointer; eauto. }
      rewrite Hz. cbn. lia.
    + rewrite (decide_False (P := Some a = Some b)) by congruence.
      destruct (counted_references _ _ Hc b nb Hb) as [Hr Hpos].
      rewrite held_cons in Hr. split; [|assumption]. rewrite Hr. lia.
  - intros b Hb. apply elem_of_cons in Hb as [Hb|Hb].
    + injection Hb as ->. rewrite Hload1, decide_True by reflexivity. eauto.
    + apply (Hvalid (Some b)). apply (counted_owned _ _ Hc). right. assumption.
  - intros b nb r Hb Hr. rewrite Hload1 in Hb. case_decide as Hab.
    + subst b. injection Hb as <-. cbn in Hr. subst p.
      assert (Hs : is_Some (load h r)) by (apply (counted_owned _ _ Hc); left).
      split; [apply (Hvalid (Some r)); assumption|].
      apply (counted_next _ _ Hc). assumption.
    + destruct (counted_rest _ _ Hc b nb r Hb Hr) as [Hs Hlt].
      split; [apply (Hvalid (Some r))|]; assumption.
  - intros b Hb. unfold h1, malloc. cbn [fst nextblock]. fold a.
    rewrite Hload1 in Hb. case_decide as Hab; [subst; lia|].
    pose proof (counted_next _ _ Hc b Hb). unfold a. lia.
  - intros b nb nb' Hb Hb'. rewrite Hload1 in Hb'. case_decide as Hab.
    + subst b. congruence.
    + assert (nb' = nb) by congruence. subst. auto.
  - assumption.
  - rewrite Hload1, decide_True by reflexivity. reflexivity.
Qed.

Lemma links_agree_trans h1 h2 h3 :
  (forall q, valid h1 q -> valid h2 q) ->
  links_agree h1 h2 -> links_agree h2 h3 -> links_agree h1 h3.
Proof.
  intros Hv H12 H23 a n n3 Ha Ha3.
  destruct (Hv (Some a) (mk_is_Some _ _ Ha)) as [n2 Ha2].
  destruct (H12 a n n2 Ha Ha2) as [<- <-]. eauto.
Qed.

Lemma add_move_counted h owned p m :
  counted h owned -> valid h p ->
  exists h', add_move_to_path true h p m = Some (h', Some (nextblock h)) /\
    counted h' (Some (nextblock h) :: owned) /\ links_agree h h' /\
    (forall q, valid h q -> valid h' q) /\
    (forall l, linked h p l -> linked h' (Some (nextblock h)) (m :: l)).
Proof.
  intros Hc Hv.
  destruct (inc_counted h owned p Hc Hv) as (h0 & Hinc & Hc0 & Hag0 & Hv0 & Hnb0).
  pose proof (malloc_counted h0 owned p m Hc0) as Hm. cbn zeta in Hm.
  rewrite Hnb0 in Hm. destruct Hm as (Hc1 & Hag1 & Hv1 & Hload).
  set (h1 := (malloc true h0 (mkPathNode 1 m p)).1) in *.
  assert (Heq : add_move_to_path true h p m = Some (h1, Some (nextblock h))).
  { unfold add_move_to_path. cbn [malloc].
    destruct p as [q|]; cbn in Hinc |- *.
    - destruct Hv as [nq Hq]. rewrite Hq in Hinc. cbn in Hinc. injection Hinc as <-.
      assert (Hne : nextblock h <> q).
      { intros <-. pose proof (counted_next _ _ Hc _ (mk_is_Some _ _ Hq)). lia. }
      unfold load at 1. cbn [cells]. rewrite lookup_insert_ne by assumption.
      fold (load h q). rewrite Hq. cbn. do 2 f_equal.
      unfold h1, malloc, store. cbn. f_equal. apply insert_insert_ne. congruence.
    - injection Hinc as <-. reflexivity. }
  exists h1. split; [assumption|]. split; [assumption|].
  assert (Hag : links_agree h h1) by (eapply links_agree_trans; eauto).
  split; [assumption|]. split; [auto|].
  intros l Hl.
  change m with (move (mkPathNode 1 m p)). econstructor; [eassumption|]. cbn.
  eapply linked_counted; eauto.
Qed.

(** Whether the allocation succeeds or not, the caller owns what is
    returned: the new node, or [NULL]. *)
Lemma add_move_any ok h owned p m :
  counted h owned -> valid h p ->
  exists h' q, add_move_to_path ok h p m = Some (h', q) /\
    counted h' (q :: owned) /\ links_agree h h' /\
    (forall q', valid h q' -> valid h' q') /\
    (forall l, linked h p l -> linked h' q (if ok then m :: l else [])) /\
    (ok = false -> h' = h /\ q = None).
Proof.
  intros Hc Hv. destruct ok.
  - destruct (add_move_counted h owned p m Hc Hv) as (h' & Ha & Hc' & Hag & Hval & Hl).
    exists h', (Some (nextblock h)). repeat (split; [assumption|]). discriminate.
  - exists h, None. split; [reflexivity|]. split; [apply counted_null_cons; assumption|].
    split; [intros a n n' Ha Ha'; split; congruence|]. split; [auto|].
    split; [constructor|auto].
Qed.

(** *** Dropping a reference *)

(** A node that the recursion never reaches stays as it is. *)
Lemma drop_rec_frame fuel h p h' a x :
  load h a = None -> drop_rec fuel h p = Some h' ->
  drop_rec fuel (store h a x) p = Some (store h' a x).
Proof.
  revert h p h'. induction fuel as [|fuel IH]; intros h p h' Ha Hd; [discriminate|].
  destruct p as [b|]; cbn in Hd |- *; [|congruence].
  destruct (load h b) as [n|] eqn:Hb; [|discriminate]. cbn in Hd.
  assert (Hne : a <> b) by congruence.
  rewrite load_store_ne, Hb by assumption. cbn.
  rewrite store_store_ne by assumption.
  destruct (references n - 1 =? 0).
  - destruct (drop_rec fuel _ (rest n)) as [h2|] eqn:Hrec; [|discriminate].
    cbn in Hd. injection Hd as <-.
    rewrite (IH _ _ h2); [|rewrite load_store_ne by congruence; assumption|assumption].
    cbn. rewrite free_store_ne by assumption. reflexivity.
  - injection Hd as <-. reflexivity.
Qed.

Lemma drop_rec_more fuel fuel' h p h' :
  (fuel <= fuel')%nat -> drop_rec fuel h p = Some h' -> drop_rec fuel' h p = Some h'.
Proof.
  revert fuel' h p h'. induction fuel as [|fuel IH]; intros fuel' h p h' Hle Hd;
    [discriminate|].
  destruct fuel' as [|fuel']; [lia|].
  destruct p as [b|]; cbn in Hd |- *; [|congruence].
  destruct (load h b) as [n|]; [|discriminate]. cbn in Hd |- *.
  destruct (references n - 1 =? 0); [|assumption].
  destruct (drop_rec fuel _ (rest n)) as [h2|] eqn:Hrec; [|discriminate].
  rewrite (IH fuel' _ _ h2); [assumption|lia|assumption].
Qed.

(** Giving up the last reference to [a]: the references the heap without
    [a] is counted for are the ones of the owners and the one [a] held. *)
Lemma counted_last h owned a n :
  counted h (Some a :: owned) -> load h a = Some n -> references n = 1 ->
  counted (free h a) (rest n :: owned).
Proof.
  intros Hc Ha Hone.
  destruct (counted_references _ _ Hc a n Ha) as [Hr _].
  rewrite held_cons, decide_True in Hr by reflexivity.
  assert (Hheld : held owned a = 0%nat) by lia.
  assert (Hdeg : indegree (cells h) a = 0%nat) by lia.
  assert (Hnotowned : Some a ∉ owned).
  { intros Hin. apply held_elem in Hin. lia. }
  split.
  - intros b nb Hb. rewrite load_free in Hb. case_decide as Hab; [discriminate|].
    destruct (counted_references _ _ Hc b nb Hb) as [Hrb Hpos].
    split; [|assumption]. rewrite Hrb.
    rewrite !held_cons. rewrite (decide_False (P := Some a = Some b)) by congruence.
    cbn [free cells]. rewrite (indegree_delete (cells h) a n b Ha). lia.
  - intros b Hb. rewrite load_free.
    apply elem_of_cons in Hb as [Hb|Hb].
    + symmetry in Hb. destruct (counted_rest _ _ Hc a n b Ha Hb) as [Hs Hlt].
      rewrite decide_False by lia. assumption.
    + rewrite decide_False by (intros ->; contradiction).
      apply (counted_owned _ _ Hc). right. assumption.
  - intros b nb r Hb Hrest. rewrite load_free in Hb.
    case_decide as Hab; [discriminate|].
    destruct (counted_rest _ _ Hc b nb r Hb Hrest) as [Hs Hlt].
    split; [|assumption]. rewrite load_free, decide_False; [assumption|].
    intros <-. eapply indegree_zero; eauto.
  - intros b Hb. rewrite load_free in Hb. case_decide; [destruct Hb; discriminate|].
    apply (counted_next _ _ Hc). assumption.
Qed.

(** Giving up a reference to a node that keeps others. *)
Lemma counted_shared h owned a n :
  counted h (Some a :: owned) -> load h a = Some n -> references n <> 1 ->
  counted (store h a (set_references n (references n - 1))) owned.
Proof.
  intros Hc Ha Hmany. set (n' := set_references n (references n - 1)).
  split.
  - intros b nb Hb. cbn [cells store].
    rewrite (indegree_update _ a n n') by (assumption || reflexivity).
    rewrite load_store in Hb. case_decide as Hab.
    + subst b. injection Hb as <-.
      destruct (counted_references _ _ Hc a n Ha) as [Hr Hpos].
      rewrite held_cons, decide_True in Hr by reflexivity. cbn. lia.
    + destruct (counted_references _ _ Hc b nb Hb) as [Hr Hpos].
      rewrite held_cons, decide_False in Hr by congruence. auto.
  - intros b Hb. apply load_store_is_Some.
    apply (counted_owned _ _ Hc). right. assumption.
  - intros b nb r Hb Hr. rewrite load_store in Hb.
    assert (Hold : exists nb0, load h b = Some nb0 /\ rest nb0 = Some r).
    { case_decide; [subst b; injection Hb as <-; eauto|eauto]. }
    destruct Hold as (nb0 & Hb0 & Hr0).
    destruct (counted_rest _ _ Hc b nb0 r Hb0 Hr0) as [Hs Hlt].
    split; [apply load_store_is_Some|]; assumption.
  - intros b Hb. apply (counted_next _ _ Hc). rewrite load_store in Hb.
    case_decide; [subst; eauto|assumption].
Qed.

Lemma drop_rec_counted fuel h owned p :
  counted h (p :: owned) -> (size (cells h) < fuel)%nat ->
  exists h', drop_rec fuel h p = Some h' /\ counted h' owned /\
    links_agree h h' /\ within_heap h' h /\ nextblock h' = nextblock h.
Proof.
  revert h owned p. induction fuel as [|fuel IH]; intros h owned p Hc Hsz; [lia|].
  destruct p as [a|]; cbn.
  2:{ exists h. split; [reflexivity|]. split; [apply counted_null; assumption|].
      split; [intros a n n' Ha Ha'; split; congruence|]. split; [intros a; auto|auto]. }
  destruct (counted_owned _ _ Hc a ltac:(left)) as [n Ha]. rewrite Ha. cbn.
  destruct (Z.eqb_spec (references n - 1) 0) as [Hz|Hnz].
  - assert (Hone : references n = 1) by lia.
    pose proof (counted_last h owned a n Hc Ha Hone) as Hc'.
    destruct (IH (free h a) owned (rest n) Hc') as (h' & Hd & Hc2 & Hag & Hin & Hnb).
    { cbn [free cells]. rewrite map_size_delete_Some by eauto.
      assert (size (cells h) <> 0%nat) by (eapply map_size_ne_0_lookup_2; eauto). lia. }
    set (n' := set_references n (references n - 1)).
    assert (Hgone : load h' a = None).
    { destruct (load h' a) eqn:E; [|reflexivity].
      destruct (Hin a (mk_is_Some _ _ E)) as [? Hx].
      rewrite load_free, decide_True in Hx by reflexivity. discriminate. }
    apply (drop_rec_frame _ _ _ _ a n') in Hd;
      [|rewrite load_free, decide_True by reflexivity; reflexivity].
    rewrite (store_free h a n n' Ha) in Hd. rewrite Hd. cbn.
    rewrite free_store_fresh by assumption.
    exists h'. split; [reflexivity|]. split; [assumption|].
    split; [|split; [|assumption]].
    + intros b nb nb' Hb Hb'.
      assert (Hab : a <> b) by (intros <-; congruence).
      apply (Hag b nb nb'); [|assumption].
      rewrite load_free, decide_False by assumption. assumption.
    + intros b Hb. specialize (Hin b Hb). rewrite load_free in Hin.
      case_decide; [destruct Hin; discriminate|assumption].
  - eexists. split; [reflexivity|].
    split; [apply counted_shared; (assumption || lia)|].
    split; [|split; [|reflexivity]].
    + intros b nb nb' Hb Hb'. rewrite load_store in Hb'. case_decide.
      * subst b. assert (nb = n) by congruence. subst. injection Hb' as <-. auto.
      * assert (nb' = nb) by congruence. subst. auto.
    + intros b Hb. rewrite load_store in Hb. case_decide; [subst; eauto|assumption].
Qed.

Lemma drop_counted h owned p :
  counted h (p :: owned) ->
  exists h', drop_reference_to_path h p = Some h' /\ counted h' owned /\
    links_agree h h' /\ within_heap h' h /\ nextblock h' = nextblock h.
Proof. intros Hc. apply drop_rec_counted; [assumption|lia]. Qed.

(** With nothing owned, nothing is allocated. *)
Lemma counted_nil_empty h : counted h [] -> cells h = ∅.
Proof.
  intros Hc.
  assert (Hno : forall k a, is_Some (load h a) ->
             (Pos.to_nat (nextblock h) - Pos.to_nat a <= k)%nat -> False).
  { induction k as [|k IH]; intros a Ha Hk.
    - pose proof (counted_next _ _ Hc a Ha). lia.
    - destruct Ha as [n Ha].
      destruct (counted_references _ _ Hc a n Ha) as [Hr Hpos].
      destruct (indegree_pos (cells h) a) as (b & nb & Hb & Hrb); [cbn in Hr; lia|].
      destruct (counted_rest _ _ Hc b nb a Hb Hrb) as [_ Hlt].
      apply (IH b); [eexists; exact Hb|lia]. }
  apply map_empty. intros a. destruct (cells h !! a) eqn:E; [|reflexivity].
  exfalso. apply (Hno _ a (mk_is_Some _ _ E) (Nat.le_refl _)).
Qed.

Lemma counted_empty : counted empty_heap [].
Proof.
  split.
  - intros a n Ha. unfold load in Ha. cbn in Ha. rewrite lookup_empty in Ha. discriminate.
  - intros a Ha. apply elem_of_nil in Ha. contradiction.
  - intros a n r Ha. unfold load in Ha. cbn in Ha. rewrite lookup_empty in Ha. discriminate.
  - intros a [n Ha]. unfold load in Ha. cbn in Ha. rewrite lookup_empty in Ha. discriminate.
Qed.


Lemma drop_rec_last fuel h a n :
  load h a = Some n -> references n = 1 ->
  drop_rec (S fuel) h (Some a)
  = h2 ← drop_rec fuel (store h a (set_references n 0)) (rest n); Some (free h2 a).
Proof.
  intros Ha Hone. cbn [drop_rec]. rewrite Ha. cbn [mbind option_bind].
  cbn [references set_references rest]. rewrite Hone. reflexivity.
Qed.

(** *** Programs *)

Lemma exec_counted ok o h owned (k : nat) :
  counted h owned ->
  holds [o] (length owned) = Some k ->
  exists h' owned', exec ok o (h, owned) = Some (h', owned') /\
    counted h' owned' /\ length owned' = k.
Proof.
  intros Hc Hh. destruct o as [[i|] m|i|i]; cbn in Hh;
    cbn -[add_move_to_path inc_reference_to_path drop_reference_to_path].
  - case_decide as Hi; [|discriminate]. injection Hh as <-.
    destruct (lookup_lt_is_Some_2 owned i Hi) as [q Hq]. rewrite Hq.
    cbn -[add_move_to_path inc_reference_to_path drop_reference_to_path].
    assert (Hv : valid h q)
      by (eapply counted_valid; [eassumption|eapply list_elem_of_lookup_2; eassumption]).
    destruct (add_move_any ok h owned q m Hc Hv) as (h' & q' & -> & Hc' & _).
    cbn. eauto.
  - injection Hh as <-.
    destruct (add_move_any ok h owned None m Hc I) as (h' & q' & Ha & Hc' & _).
    unfold new_path. rewrite Ha. cbn. eauto.
  - case_decide as Hi; [|discriminate]. injection Hh as <-.
    destruct (lookup_lt_is_Some_2 owned i Hi) as [q Hq]. rewrite Hq.
    cbn -[add_move_to_path inc_reference_to_path drop_reference_to_path].
    assert (Hv : valid h q)
      by (eapply counted_valid; [eassumption|eapply list_elem_of_lookup_2; eassumption]).
    destruct (inc_counted h owned q Hc Hv) as (h' & -> & Hc' & _).
    cbn. eauto.
  - case_decide as Hi; [|discriminate]. injection Hh as <-.
    destruct (lookup_lt_is_Some_2 owned i Hi) as [q Hq]. rewrite Hq.
    cbn -[add_move_to_path inc_reference_to_path drop_reference_to_path].
    apply (counted_perm _ _ _ (delete_Permutation owned i q Hq)) in Hc.
    destruct (drop_counted h _ q Hc) as (h' & -> & Hc' & _).
    cbn. eexists _, _. split; [reflexivity|]. split; [assumption|].
    rewrite length_delete by eauto. lia.
Qed.

Lemma holds_cons o prog (i j : nat) :
  holds (o :: prog) i = Some j ->
  exists k, holds [o] i = Some k /\ holds prog k = Some j.
Proof.
  destruct o as [[s|] x|s|s]; cbn; repeat case_decide; intros Hh;
    try discriminate; eauto.
Qed.

Lemma run_counted memory prog h owned (k : nat) :
  counted h owned ->
  holds prog (length owned) = Some k ->
  exists h' owned', run memory prog (h, owned) = Some (h', owned') /\
    counted h' owned' /\ length owned' = k.
Proof.
  revert memory h owned k.
  induction prog as [|o prog IH]; intros memory h owned k Hc Hh.
  - injection Hh as <-. cbn. eauto.
  - apply holds_cons in Hh as (j & Ho & Hrest).
    destruct (exec_counted (memory 0%nat) o h owned j Hc Ho)
      as (h1 & owned1 & He & Hc1 & Hlen).
    cbn [run]. rewrite He. cbn. apply IH; [assumption|]. rewrite Hlen. assumption.
Qed.

(** C7: reference counts on paths.
    (1) Dropping a reference to a node whose count stays positive frees
    nothing: only that count changes.
    (2) Dropping the last reference to a node frees it and drops exactly one
    reference to its rest, which is freed in turn only if that was its last.
    (3) After a drop every reference that is still held, by an owner or by a
    node, points to an allocated node whose count is the number of such
    references.
    (4) After a balanced program of extend, retain and release, every node
    that was allocated has been freed, whichever of its allocations
    failed. *)
Theorem reference_counts_correct :
  (forall h a n, load h a = Some n -> references n <> 1 ->
     drop_reference_to_path h (Some a)
     = Some (store h a (set_references n (references n - 1)))) /\
  (forall h owned a n,
     counted h (Some a :: owned) -> load h a = Some n -> references n = 1 ->
     exists h', drop_reference_to_path h (Some a) = Some h' /\
       load h' a = None /\
       drop_reference_to_path (free h a) (rest n) = Some h') /\
  (forall h owned p,
     counted h (p :: owned) ->
     exists h', drop_reference_to_path h p = Some h' /\ counted h' owned) /\
  (forall memory prog,
     balanced prog ->
     exists h, run memory prog (empty_heap, []) = Some (h, []) /\ cells h = ∅).
Proof.
  split; [|split; [|split]].
  - intros h a n Ha Hmany. unfold drop_reference_to_path. cbn. rewrite Ha. cbn.
    destruct (Z.eqb_spec (references n - 1) 0); [lia|reflexivity].
  - intros h owned a n Hc Ha Hone.
    pose proof (counted_last h owned a n Hc Ha Hone) as Hc'.
    destruct (drop_counted _ _ _ Hc') as (h' & Hd & Hc2 & Hag & Hin & Hnb).
    assert (Hgone : load h' a = None).
    { destruct (load h' a) eqn:E; [|reflexivity].
      destruct (Hin a (mk_is_Some _ _ E)) as [? Hx].
      rewrite load_free, decide_True in Hx by reflexivity. discriminate. }
    exists h'. split; [|auto].
    unfold drop_reference_to_path in *.
    rewrite (drop_rec_last _ h a n Ha Hone).
    assert (Hsz : size (cells h) = S (size (cells (free h a)))).
    { cbn [free cells]. rewrite map_size_delete_Some by eauto.
      assert (size (cells h) <> 0%nat) by (eapply map_size_ne_0_lookup_2; eauto). lia. }
    rewrite Hsz.
    apply (drop_rec_frame _ _ _ _ a (set_references n 0)) in Hd;
      [|rewrite load_free, decide_True by reflexivity; reflexivity].
    rewrite (store_free h a n _ Ha) in Hd. rewrite Hd. cbn.
    rewrite free_store_fresh by assumption. reflexivity.
  - intros h owned p Hc.
    destruct (drop_counted _ _ _ Hc) as (h' & Hd & Hc' & _). eauto.
  - intros memory prog Hb.
    destruct (run_counted memory prog empty_heap [] 0%nat counted_empty Hb)
      as (h & owned & Hrun & Hc & Hlen).
    destruct owned; [|discriminate].
    exists h. split; [assumption|]. apply counted_nil_empty. assumption.
Qed.

(** Two branches that share a suffix, released one after the other. *)
Lemma reference_counts_correct_witness :
  exists h,
    run plenty [Extend None 9; Extend (Some 0%nat) 2; Extend (Some 0%nat) 1;
         Extend (Some 1%nat) 5; Retain 2%nat; Release 1%nat; Release 0%nat;
         Release 0%nat; Release 0%nat; Release 0%nat]
        (empty_heap, []) = Some (h, []) /\ cells h = ∅.
Proof.
  apply (proj2 (proj2 (proj2 reference_counts_correct))). reflexivity.
Defined.

End PathFacts.

(** * Facts about the search on lists *)

Module PureFacts.
Import Grid Solver Pure GridFacts.

Implicit Types (visited : gmap Z bool) (queue : list Entry) (e : Entry)
  (g : Grid) (p : list Z).

(** *** The search ends *)

Lemma fresh_pos u : (1 <= fresh u)%nat.
Proof. destruct u; cbn; lia. Qed.

Lemma fresh_mono u u' : (u <= u')%nat -> (fresh u <= fresh u')%nat.
Proof.
  induction 1 as [|u' _ IH]; [lia|].
  cbn [fresh]. pose proof (fresh_pos u'). lia.
Qed.

Lemma stale_mono u u' : (u <= u')%nat -> (stale u <= stale u')%nat.
Proof. intros Hle. unfold stale. pose proof (fresh_mono u u' Hle). lia. Qed.

Lemma fresh_succ u : fresh (S u) = (1 + 9 * stale u)%nat.
Proof. reflexivity. Qed.

Lemma marks_empty : marks ∅.
Proof. intros g b Hg. rewrite lookup_empty in Hg. discriminate. Qed.

Lemma marks_insert visited g :
  marks visited -> representable g -> marks (<[g := true]> visited).
Proof.
  intros Hm Hg x b Hx. rewrite lookup_insert in Hx. case_decide.
  - subst x. injection Hx as <-. auto.
  - eauto.
Qed.

Lemma marks_size visited : marks visited -> (size visited <= 512)%nat.
Proof.
  intros Hm. rewrite <-size_dom.
  assert (Hsub : dom visited ⊆ (list_to_set (seqZ 0 512) : gset Z)).
  { intros x Hx. apply elem_of_dom in Hx as [b Hb].
    apply elem_of_list_to_set, elem_of_seqZ.
    destruct (Hm x b Hb) as [_ Hr]. unfold representable in Hr. lia. }
  apply subseteq_size in Hsub.
  rewrite size_list_to_set in Hsub by apply NoDup_seqZ.
  rewrite length_seqZ in Hsub. lia.
Qed.

Lemma seen_insert visited g x :
  seen (<[g := true]> visited) x <-> x = g \/ seen visited x.
Proof.
  unfold seen. rewrite lookup_insert. case_decide; cbn; [subst|]; intuition congruence.
Qed.

Lemma marks_seen visited g :
  marks visited -> default false (visited !! g) = false -> visited !! g = None.
Proof.
  intros Hm Hg. destruct (visited !! g) as [b|] eqn:E; [|reflexivity].
  destruct (Hm g b E) as [-> _]. discriminate.
Qed.

(** Marking a grid: either it was marked and nothing changes, or one grid
    less is unvisited. *)
Lemma unvisited_insert visited g :
  marks visited -> representable g ->
  (default false (visited !! g) = true /\ <[g := true]> visited = visited) \/
  (default false (visited !! g) = false /\
   S (unvisited (<[g := true]> visited)) = unvisited visited).
Proof.
  intros Hm Hg. destruct (default false (visited !! g)) eqn:E.
  - left. split; [reflexivity|]. apply insert_id.
    destruct (visited !! g) as [[]|]; (reflexivity || discriminate).
  - right. split; [reflexivity|].
    pose proof (marks_seen _ _ Hm E) as Hnone.
    pose proof (marks_size _ (marks_insert _ _ Hm Hg)) as Hsz.
    unfold unvisited. rewrite map_size_insert_None in * by assumption. lia.
Qed.

Lemma weight_insert visited g e :
  marks visited -> representable g ->
  (weight (<[g := true]> visited) e <= weight visited e)%nat.
Proof.
  intros Hm Hg.
  destruct (unvisited_insert visited g Hm Hg) as [[_ ->]|[Hnew Hu]]; [lia|].
  unfold weight. rewrite <-Hu.
  remember (unvisited (<[g := true]> visited)) as u' eqn:Hu'. clear Hu Hu'.
  destruct (decide (g = e.2)) as [->|Hne].
  - rewrite lookup_insert_eq, Hnew.
    change (stale u' <= fresh (S u'))%nat. rewrite fresh_succ. lia.
  - rewrite lookup_insert_ne by assumption.
    destruct (default false (visited !! e.2)).
    + apply stale_mono. lia.
    + apply fresh_mono. lia.
Qed.

Lemma potential_insert visited g queue :
  marks visited -> representable g ->
  (potential (<[g := true]> visited) queue <= potential visited queue)%nat.
Proof.
  intros Hm Hg. unfold potential. induction queue as [|e queue IH]; [cbn; lia|].
  cbn. pose proof (weight_insert visited g e Hm Hg). lia.
Qed.

Lemma potential_app visited queue queue' :
  potential visited (queue ++ queue')
  = (potential visited queue + potential visited queue')%nat.
Proof. unfold potential, sum_list. rewrite fmap_app. apply sum_list_with_app. Qed.

Section Memory.

Variable memory : Paths.Allocations.

Lemma children_length cells p g visited k :
  (length (children memory cells p g visited k) <= length cells)%nat.
Proof.
  revert k. induction cells as [|i cells IH]; intros k; cbn; [lia|].
  destruct (is_star g i); [destruct (default false _)|];
    [| destruct (memory (S k)) |]; cbn;
    try (specialize (IH k); lia); specialize (IH (S (S k))); lia.
Qed.

(** An entry the loop pushes is for a star of the grid whose explosion
    gives a grid that is not marked; its path has the move in front, or is
    empty when the allocation of the path failed. *)
Lemma children_elem cells p g visited k e :
  e ∈ children memory cells p g visited k ->
  exists c, c ∈ cells /\ is_star g c = true /\ e.2 = explode g c /\
    (e.1 = c :: p \/ e.1 = []) /\
    (Paths.never_fails memory -> e.1 = c :: p) /\
    default false (visited !! explode g c) = false.
Proof.
  revert k. induction cells as [|i cells IH]; intros k; cbn;
    [intros H; apply elem_of_nil in H; contradiction|].
  assert (Hrest : forall k', e ∈ children memory cells p g visited k' ->
    exists c, c ∈ i :: cells /\ is_star g c = true /\ e.2 = explode g c /\
      (e.1 = c :: p \/ e.1 = []) /\
      (Paths.never_fails memory -> e.1 = c :: p) /\
      default false (visited !! explode g c) = false).
  { intros k' He. destruct (IH k' He) as (c & Hc & Hmore).
    exists c. split; [right|]; assumption. }
  destruct (is_star g i) eqn:Hs; [destruct (default false _) eqn:Hv|]; [eauto| |eauto].
  assert (Hhere : e = (if memory k then i :: p else [], explode g i) ->
    exists c, c ∈ i :: cells /\ is_star g c = true /\ e.2 = explode g c /\
      (e.1 = c :: p \/ e.1 = []) /\
      (Paths.never_fails memory -> e.1 = c :: p) /\
      default false (visited !! explode g c) = false).
  { intros ->. exists i. split; [left|]. split; [assumption|].
    split; [reflexivity|]. cbn [fst]. split; [destruct (memory k); auto|].
    split; [|assumption]. intros Hok. rewrite (Hok k). reflexivity. }
  destruct (memory (S k)); [|eauto].
  intros He. apply elem_of_cons in He as [He|He]; eauto.
Qed.

Lemma children_complete cells p g visited k c :
  Paths.never_fails memory ->
  c ∈ cells -> is_star g c = true ->
  default false (visited !! explode g c) = false ->
  (c :: p, explode g c) ∈ children memory cells p g visited k.
Proof.
  intros Hok Hc Hs Hv. revert k.
  induction cells as [|i cells IH]; intros k; [apply elem_of_nil in Hc; contradiction|].
  cbn. apply elem_of_cons in Hc as [<-|Hc].
  - rewrite Hs, Hv, (Hok k), (Hok (S k)). left.
  - specialize (IH Hc).
    destruct (is_star g i); [destruct (default false (visited !! explode g i))|];
      [apply IH|rewrite (Hok (S k)); right; apply IH|apply IH].
Qed.

Lemma potential_children visited p g cells k :
  (potential visited (children memory cells p g visited k)
   <= length cells * fresh (unvisited visited))%nat.
Proof.
  revert k. induction cells as [|i cells IH]; intros k; [cbn; lia|].
  cbn [children]. destruct (is_star g i); [destruct (default false _) eqn:Hv|];
    cbn [length]; [specialize (IH k); lia| |specialize (IH k); lia].
  specialize (IH (S (S k))). destruct (memory (S k)); [|lia].
  unfold potential in *. cbn. unfold weight at 1. cbn [snd]. rewrite Hv. lia.
Qed.

(** Taking an entry from the queue pays for the iteration and for the
    entries it adds. *)
Lemma search_pays visited p g queue k :
  marks visited -> representable g ->
  let visited' := <[g := true]> visited in
  (S (potential visited' (queue ++ children memory all_cells p g visited' k))
   <= potential visited ((p, g) :: queue))%nat.
Proof.
  intros Hm Hg visited'. rewrite potential_app.
  pose proof (potential_insert visited g queue Hm Hg) as Hq.
  pose proof (potential_children visited' p g all_cells k) as Hch.
  change (length all_cells) with 9%nat in Hch.
  assert (Hpay : (1 + 9 * fresh (unvisited visited') <= weight visited (p, g))%nat).
  { unfold weight, visited'. cbn [snd].
    destruct (unvisited_insert visited g Hm Hg) as [[-> ->]|[-> Hu]].
    - unfold stale. lia.
    - rewrite <-Hu, fresh_succ. unfold stale. lia. }
  fold visited' in Hq.
  change (potential visited ((p, g) :: queue))
    with (weight visited (p, g) + potential visited queue)%nat.
  lia.
Qed.

Lemma children_representable cells p g visited k :
  representable g ->
  Forall (fun e => representable e.2) (children memory cells p g visited k).
Proof.
  intros Hg. apply Forall_forall. intros e He.
  apply children_elem in He as (c & _ & _ & -> & _).
  apply explode_representable. assumption.
Qed.

Lemma search_terminates fuel visited queue k :
  marks visited -> Forall (fun e => representable e.2) queue ->
  (potential visited queue < fuel)%nat ->
  exists l, search memory fuel visited queue k = Some l.
Proof.
  revert visited queue k.
  induction fuel as [|fuel IH]; intros visited queue k Hm Hq Hfuel; [lia|].
  destruct queue as [|[p g] queue]; cbn [search]; [eauto|].
  apply Forall_cons in Hq as [Hg Hq]. cbn in Hg.
  pose proof (search_pays visited p g queue k Hm Hg) as Hpay. cbn zeta in Hpay.
  rewrite potential_app in Hpay.
  pose proof (Nat.le_lt_trans _ _ _ Hpay Hfuel) as Hlt. clear Hpay Hfuel.
  pose proof (marks_insert _ _ Hm Hg) as Hm'.
  destruct (outcome g).
  - destruct p; [|eauto]. apply IH; [assumption..|lia].
  - apply IH; [assumption..|lia].
  - apply IH; [assumption| |rewrite potential_app; lia].
    apply Forall_app. split; [assumption|]. apply children_representable. assumption.
Qed.

End Memory.

(** *** The search finds a shortest winning sequence *)

Lemma is_star_empty c : is_star empty_grid c = false.
Proof.
  destruct (cell_cases c) as [Hc|[_ Hc]]; [each_cell Hc; reflexivity|apply Hc].
Qed.

Lemma outcome_won g : outcome g = Won <-> g = winning_grid.
Proof.
  unfold outcome. destruct (Z.eqb_spec g empty_grid) as [->|];
    [split; discriminate|].
  destruct (Z.eqb_spec g winning_grid); split; (congruence || discriminate).
Qed.

Lemma outcome_lost g : outcome g = Lost <-> g = empty_grid.
Proof.
  unfold outcome. destruct (Z.eqb_spec g empty_grid) as [->|]; [tauto|].
  destruct (Z.eqb_spec g winning_grid); split; (congruence || discriminate).
Qed.

Lemma replay_snoc g ms m : replay g (ms ++ [m]) = explode (replay g ms) m.
Proof. unfold replay. rewrite fold_left_app. reflexivity. Qed.

Lemma replay_push g p c :
  replay g (reverse (c :: p)) = explode (replay g (reverse p)) c.
Proof. rewrite reverse_cons. apply replay_snoc. Qed.

(** Any sequence of moves that ends on the winning grid passes a grid the
    solver reaches in no more explosions. *)
Lemma reach_of_replay initial ms :
  replay initial ms = winning_grid ->
  exists n, (n <= length ms)%nat /\ reach initial n winning_grid.
Proof.
  intros Hwin.
  assert (Hgen : (exists n, (n <= length ms)%nat /\ reach initial n winning_grid) \/
                 (exists n, (n <= length ms)%nat /\ reach initial n (replay initial ms))).
  { clear Hwin. induction ms as [|m ms IH] using rev_ind.
    - right. exists 0%nat. split; [lia|constructor].
    - rewrite length_app. cbn [length].
      destruct IH as [(n & Hn & Hr)|(n & Hn & Hr)].
      + left. exists n. split; [lia|assumption].
      + rewrite replay_snoc. set (g := replay initial ms) in *.
        destruct (is_star g m) eqn:Hs.
        * destruct (outcome g) eqn:Ho.
          -- apply outcome_won in Ho. left. exists n. split; [lia|]. congruence.
          -- apply outcome_lost in Ho. rewrite Ho, is_star_empty in Hs. discriminate.
          -- right. exists (S n). split; [lia|].
             econstructor; [eassumption|]. repeat split; assumption.
        * right. exists n. split; [lia|].
          rewrite (explode_not_star g m Hs). assumption. }
  destruct Hgen as [H|(n & Hn & Hr)]; [assumption|].
  exists n. split; [assumption|]. congruence.
Qed.

Lemma layered_start initial :
  initial <> winning_grid -> layered initial 0 ∅ [([], initial)] [].
Proof.
  intros Hne. split.
  - repeat constructor.
  - constructor.
  - intros n g Hn. lia.
  - intros g Hr. inversion Hr; subst. right. exists []. left.
  - intros g c g' Hs. unfold seen in Hs. rewrite lookup_empty in Hs. discriminate.
  - intros p g Hin. rewrite app_nil_r in Hin.
    apply list_elem_of_singleton in Hin. injection Hin as -> ->. reflexivity.
  - unfold seen. rewrite lookup_empty. discriminate.
Qed.

(** When the entries of one depth are used up, the next depth starts. *)
Lemma layered_shift initial d visited next :
  layered initial d visited [] next -> layered initial (S d) visited next [].
Proof.
  intros [Hnow Hnext Hbelow Hlevel Hexp Hrep Hopen].
  assert (Hbelow' : forall n g, (n < S d)%nat -> reach initial n g -> seen visited g).
  { intros n g Hn Hr. destruct (decide (n = d)) as [->|]; [|apply (Hbelow n); [lia|assumption]].
    destruct (Hlevel g Hr) as [|[p Hin]]; [assumption|].
    apply elem_of_nil in Hin. contradiction. }
  split; try assumption.
  - constructor.
  - intros g Hr. inversion Hr as [|n y c g' Hy Hm]; subst.
    destruct (Hexp y c g (Hbelow' d y ltac:(lia) Hy) Hm) as [|[p Hin]]; eauto.
  - intros g c g' Hs Hm. rewrite app_nil_r. apply (Hexp g c g' Hs Hm).
  - intros p g Hin. rewrite app_nil_r in Hin. apply Hrep. assumption.
Qed.

(** Taking an entry that is not the winning grid from the queue. *)
Lemma layered_pop initial d visited p g now next added :
  layered initial d visited ((p, g) :: now) next ->
  g <> winning_grid ->
  (forall e, e ∈ added -> exists c, e = (c :: p, explode g c)) ->
  (forall c g', move g c g' ->
     seen (<[g := true]> visited) g' \/ exists p', (p', g') ∈ added) ->
  layered initial d (<[g := true]> visited) now (next ++ added).
Proof.
  intros [Hnow Hnext Hbelow Hlevel Hexp Hrep Hopen] Hne Hadded Hmoves.
  apply Forall_cons in Hnow as [Hd Hnow]. unfold depth in Hd. cbn in Hd.
  assert (Hg : replay initial (reverse p) = g) by (apply Hrep; left).
  assert (Hold : forall p' g', (p', g') ∈ ((p, g) :: now) ++ next ->
            seen (<[g := true]> visited) g' \/ (p', g') ∈ now ++ (next ++ added)).
  { intros p' g' Hin. cbn in Hin. apply elem_of_cons in Hin as [Heq|Hin].
    - injection Heq as -> ->. left. apply seen_insert. auto.
    - right. rewrite app_assoc. apply elem_of_app. auto. }
  split.
  - assumption.
  - apply Forall_app. split; [assumption|]. apply Forall_forall. intros e He.
    destruct (Hadded e He) as [c ->]. unfold depth. cbn. lia.
  - intros n x Hn Hr. apply seen_insert. right. eapply Hbelow; eauto.
  - intros x Hr. destruct (Hlevel x Hr) as [Hs|[p' Hin]].
    + left. apply seen_insert. auto.
    + apply elem_of_cons in Hin as [Heq|Hin]; [|eauto].
      injection Heq as -> ->. left. apply seen_insert. auto.
  - intros y c x Hs Hm. apply seen_insert in Hs as [->|Hs].
    + destruct (Hmoves c x Hm) as [|[p' Hin]]; [auto|].
      right. exists p'. rewrite app_assoc. apply elem_of_app. auto.
    + destruct (Hexp y c x Hs Hm) as [Hx|[p' Hin]].
      * left. apply seen_insert. auto.
      * destruct (Hold p' x Hin); eauto.
  - intros p' x Hin. rewrite app_assoc in Hin. apply elem_of_app in Hin as [Hin|Hin].
    + apply Hrep. cbn. right. assumption.
    + destruct (Hadded _ Hin) as [c Heq]. injection Heq as -> ->.
      rewrite replay_push, Hg. reflexivity.
  - intros Hs. apply seen_insert in Hs as [Heq|Hs]; [congruence|contradiction].
Qed.

Lemma in_all_cells g c : is_star g c = true -> c ∈ all_cells.
Proof.
  intros Hs. apply is_star_in_range, in_range_cases in Hs.
  unfold all_cells. each_cell Hs; repeat (try left; right); left.
Qed.

Lemma search_shortest_layered memory initial fuel :
  Paths.never_fails memory ->
  initial <> winning_grid ->
  forall visited d now next k l,
    layered initial d visited now next ->
    search memory fuel visited (now ++ next) k = Some l -> l <> [] ->
    replay initial (reverse l) = winning_grid /\
    forall ms, replay initial ms = winning_grid -> (length l <= length ms)%nat.
Proof.
  intros Hok Hinit. induction fuel as [|fuel IH];
    intros visited d now next k l Hlay Hsearch Hl; [discriminate|].
  assert (Hnorm : exists d' now' next',
            layered initial d' visited now' next' /\ now' ++ next' = now ++ next /\
            (now' = [] -> next' = [])).
  { destruct now as [|e now].
    - exists (S d), next, []. split; [apply layered_shift; assumption|].
      split; [apply app_nil_r|reflexivity].
    - exists d, (e :: now), next. split; [assumption|]. split; [reflexivity|discriminate]. }
  destruct Hnorm as (d' & now' & next' & Hlay' & Heq & Hempty).
  rewrite <-Heq in Hsearch. clear Hlay Heq d now next.
  destruct now' as [|[p g] now'].
  { rewrite (Hempty eq_refl) in Hsearch. cbn in Hsearch. congruence. }
  clear Hempty. cbn [app search] in Hsearch.
  assert (Hg : replay initial (reverse p) = g)
    by (apply (layered_replay _ _ _ _ _ Hlay'); left).
  assert (Hd : length p = d').
  { pose proof (layered_now _ _ _ _ _ Hlay') as Hn.
    apply Forall_cons in Hn as [Hn _]. exact Hn. }
  destruct (outcome g) eqn:Ho.
  - apply outcome_won in Ho. subst g.
    destruct p as [|c p]; [cbn in Hg; congruence|].
    injection Hsearch as <-. split; [assumption|].
    intros ms Hms. destruct (reach_of_replay initial ms Hms) as (n & Hn & Hr).
    destruct (Nat.lt_ge_cases n d') as [Hlt|Hge]; [|lia].
    exfalso. apply (layered_open _ _ _ _ _ Hlay').
    apply (layered_below _ _ _ _ _ Hlay' n); assumption.
  - assert (Hne : g <> winning_grid) by (intros Hw; apply outcome_won in Hw; congruence).
    apply (IH (<[g := true]> visited) d' now' (next' ++ []) k l);
      [|rewrite app_nil_r; assumption|assumption].
    apply (layered_pop _ _ _ p g); [assumption..| |].
    + intros e He. apply elem_of_nil in He. contradiction.
    + intros c g' [Hc _]. congruence.
  - assert (Hne : g <> winning_grid) by (intros Hw; apply outcome_won in Hw; congruence).
    rewrite <-app_assoc in Hsearch.
    apply (IH _ d' now' _ _ l) in Hsearch; [assumption| |assumption].
    apply (layered_pop _ _ _ p g); [assumption..| |].
    + intros [p' g'] He. apply children_elem in He as (c & _ & _ & Hg' & _ & Hp' & _).
      cbn in Hg', Hp'. exists c. rewrite Hg', (Hp' Hok). reflexivity.
    + intros c g' (_ & Hs & ->).
      destruct (default false (<[g := true]> visited !! explode g c)) eqn:Hv.
      * left. exact Hv.
      * right. exists (c :: p). apply children_complete; [assumption| |assumption..].
        eapply in_all_cells; eassumption.
Qed.

(** The search from a grid that already is the winning grid finds nothing,
    whatever the allocations. *)
Lemma search_from_winning memory fuel l :
  shortest_winning_path memory fuel winning_grid = Some l -> l = [].
Proof.
  unfold shortest_winning_path.
  destruct (memory 0%nat), (memory 1%nat), (memory 2%nat);
    destruct fuel as [|[|fuel]]; cbn; congruence.
Qed.

(** With allocations that succeed the search starts from the initial
    grid. *)
Lemma shortest_winning_path_plenty memory fuel initial :
  Paths.never_fails memory ->
  shortest_winning_path memory fuel initial
  = search memory fuel ∅ [([], initial)] 3.
Proof.
  intros Hok. unfold shortest_winning_path.
  rewrite (Hok 0%nat), (Hok 1%nat), (Hok 2%nat). reflexivity.
Qed.

Lemma search_shortest memory initial fuel l :
  Paths.never_fails memory ->
  shortest_winning_path memory fuel initial = Some l -> l <> [] ->
  replay initial (reverse l) = winning_grid /\
  forall ms, replay initial ms = winning_grid -> (length l <= length ms)%nat.
Proof.
  intros Hok Hs Hl. destruct (decide (initial = winning_grid)) as [->|Hne].
  - apply search_from_winning in Hs. contradiction.
  - rewrite shortest_winning_path_plenty in Hs by assumption.
    apply (search_shortest_layered memory initial fuel Hok Hne ∅ 0%nat
             [([], initial)] [] 3%nat l);
      [apply layered_start; assumption|assumption..].
Qed.

Lemma search_ends memory initial :
  representable initial ->
  exists fuel l, shortest_winning_path memory fuel initial = Some l.
Proof.
  intros Hr. exists (S (potential ∅ [([], initial)])).
  unfold shortest_winning_path.
  destruct (memory 0%nat && memory 1%nat); [|eauto].
  apply search_terminates; [apply marks_empty| |].
  - destruct (memory 2%nat); [|constructor].
    apply Forall_cons. split; [assumption|constructor].
  - destruct (memory 2%nat); [lia|]. cbn. lia.
Qed.

End PureFacts.

(** * The solver and the search on lists *)

Module SimulationFacts.
Import Grid Paths Queue Solver Simulation GridFacts PathFacts PureFacts.

Implicit Types (h : Heap) (queue : Queue) (node : QueueNode)
  (entries : list Pure.Entry) (visited : gmap Z bool).

Lemma follows_transfer h h' owned (nodes : list QueueNode) entries :
  links_agree h h' -> counted h' owned ->
  (forall node, node ∈ nodes -> valid h' (path node)) ->
  Forall2 (stands_for h) nodes entries -> Forall2 (stands_for h') nodes entries.
Proof.
  intros Hag Hc Hv Hf. induction Hf as [|node e nodes entries [Hg Hl] Hf IH];
    constructor.
  - split; [assumption|]. eapply linked_counted; eauto. apply Hv. left.
  - apply IH. intros node' Hin. apply Hv. right. assumption.
Qed.

Lemma visited_get_representable visited g :
  representable g -> visited_get visited g = Some (default false (visited !! g)).
Proof.
  intros Hg. unfold visited_get. rewrite decide_True; [reflexivity|exact Hg].
Qed.

Lemma visited_set_representable visited g :
  representable g -> visited_set visited g = Some (<[g := true]> visited).
Proof.
  intros Hg. unfold visited_set. rewrite decide_True; [reflexivity|exact Hg].
Qed.

Lemma follows_nil h queue : follows h queue [] -> queue = [].
Proof.
  intros Hf. apply Forall2_nil_inv_r in Hf.
  rewrite <-(reverse_involutive queue), Hf. reflexivity.
Qed.

(** The entry the search takes is the node [pop_back] yields. *)
Lemma follows_cons h queue e entries :
  follows h queue (e :: entries) ->
  exists node queue',
    pop_back queue = Some (node, queue') /\ stands_for h node e /\
    follows h queue' entries /\
    path <$> queue ≡ₚ path node :: (path <$> queue').
Proof.
  intros Hf. apply Forall2_cons_inv_r in Hf as (node & r & Hn & Hf & Hrev).
  exists node, (reverse r). unfold pop_back, follows. rewrite Hrev.
  rewrite reverse_involutive. split; [reflexivity|]. split; [assumption|].
  split; [assumption|].
  rewrite <-(reverse_involutive queue), Hrev, reverse_cons, fmap_app. cbn.
  rewrite <-Permutation_cons_append. reflexivity.
Qed.

Lemma follows_counted h h' queue owned entries :
  links_agree h h' -> counted h' owned ->
  (forall node, node ∈ queue -> path node ∈ owned) ->
  follows h queue entries -> follows h' queue entries.
Proof.
  intros Hag Hc Hown. apply (follows_transfer h h' _ _ _ Hag Hc).
  intros node Hin. eapply counted_valid; [eassumption|].
  apply Hown. rewrite <-elem_of_reverse. assumption.
Qed.

Lemma queued_owned queue (leaked : list Path) node :
  node ∈ queue -> path node ∈ (path <$> queue) ++ leaked.
Proof. intros Hin. apply elem_of_app. left. apply list_elem_of_fmap_2. assumption. Qed.

Lemma counted_tail h p owned : counted h (p :: owned) -> valid h p.
Proof. intros Hc. eapply counted_valid; [eassumption|left]. Qed.

Section Memory.

Variable memory : Allocations.

(** The [for] loop pushes the entries [Pure.children] lists.  A path whose
    queue node could not be allocated is [leaked]: nothing holds it, and its
    count stays. *)
Lemma expand_follows cells node p visited :
  representable (grid node) ->
  forall k h queue entries leaked,
    linked h (path node) p ->
    counted h (path node :: (path <$> queue) ++ leaked) ->
    follows h queue entries ->
    exists h' queue' leaked',
      expand memory cells node visited k h queue
      = Some ((k + Pure.requested cells (grid node) visited)%nat, h', queue') /\
      counted h' (path node :: (path <$> queue') ++ leaked') /\
      follows h' queue' (entries ++ Pure.children memory cells p (grid node) visited k) /\
      linked h' (path node) p /\
      (never_fails memory -> leaked' = leaked).
Proof.
  intros Hg.
  induction cells as [|i cells IH]; intros k h queue entries leaked Hl Hc Hf.
  - cbn. rewrite app_nil_r, Nat.add_0_r. eauto 10.
  - cbn [expand Pure.children Pure.requested].
    destruct (is_star (grid node) i); [|auto].
    rewrite visited_get_representable by (apply explode_representable; assumption).
    cbn [mbind option_bind].
    destruct (default false (visited !! explode (grid node) i)); [auto|].
    assert (Hv : valid h (path node)) by (eapply counted_valid; [eassumption|left]).
    destruct (add_move_any (memory k) h _ (path node) i Hc Hv)
      as (h1 & q & Hadd & Hc1 & Hag & Hval & Hnew & _).
    rewrite Hadd. cbn [mbind option_bind].
    assert (Hl1 : linked h1 (path node) p).
    { eapply linked_counted; eauto. }
    assert (Hf1 : follows h1 queue entries).
    { apply (follows_counted h h1 queue _ entries Hag Hc1); [|assumption].
      intros node' Hin. right. right. apply queued_owned. assumption. }
    replace (k + S (S (Pure.requested cells (grid node) visited)))%nat
      with (S (S k) + Pure.requested cells (grid node) visited)%nat by lia.
    set (g' := explode (grid node) i) in *.
    set (p' := if memory k then i :: p else []) in *.
    destruct (memory (S k)) eqn:Hpush; cbn [push_front].
    + destruct (IH (S (S k)) h1 (mkQueueNode q g' :: queue)
                  (entries ++ [(p', g')]) leaked)
        as (h' & queue' & leaked' & Hexp & Hc' & Hf' & Hl' & Hleak); [assumption| | |].
      * apply (counted_perm _ _ _ (Permutation_swap _ _ _)). exact Hc1.
      * unfold follows. rewrite reverse_cons. apply Forall2_app; [exact Hf1|].
        constructor; [|constructor]. split; [reflexivity|]. cbn. apply Hnew, Hl.
      * rewrite <-app_assoc in Hf'. exists h', queue', leaked'. auto.
    + destruct (IH (S (S k)) h1 queue entries (q :: leaked))
        as (h' & queue' & leaked' & Hexp & Hc' & Hf' & Hl' & Hleak); [assumption| | |].
      * eapply counted_perm; [|exact Hc1].
        rewrite Permutation_swap. constructor. apply Permutation_middle.
      * assumption.
      * exists h', queue', leaked'. repeat (split; [assumption|]).
        intros Hok. rewrite (Hok (S k)) in Hpush. discriminate.
Qed.

(** Each iteration of the solver is an iteration of the search on lists. *)
Lemma search_follows fuel :
  forall h visited queue entries k leaked l,
    counted h ((path <$> queue) ++ leaked) ->
    follows h queue entries ->
    Forall (fun e => representable e.2) entries ->
    Pure.search memory fuel visited entries k = Some l ->
    exists st leaked',
      search memory fuel (mkState h visited queue None k) = Some st /\
      counted (heap st) (winning_path st :: (path <$> to_visit st) ++ leaked') /\
      linked (heap st) (winning_path st) l /\
      (never_fails memory -> leaked' = leaked).
Proof.
  induction fuel as [|fuel IH];
    intros h visited queue entries k leaked l Hc Hf Hr Hs; [discriminate|].
  destruct entries as [|[p g] entries]; cbn [Pure.search] in Hs.
  { injection Hs as <-. apply follows_nil in Hf. subst queue.
    eexists _, leaked. split; [reflexivity|]. cbn. split; [|split; [constructor|auto]].
    apply counted_null_cons. assumption. }
  apply follows_cons in Hf as (node & queue1 & Hpop & [Hg Hl] & Hf & Hperm).
  cbn in Hg, Hl. apply Forall_cons in Hr as [Hrg Hr]. cbn in Hrg.
  apply (counted_perm _ _ _ (Permutation_app_tail leaked Hperm)) in Hc.
  cbn [app] in Hc.
  cbn [search to_visit]. rewrite Hpop. unfold visit.
  cbn [Solver.visited heap requests].
  rewrite Hg. rewrite visited_set_representable by assumption.
  cbn [mbind option_bind]. unfold free_queue_node.
  set (visited' := <[g := true]> visited) in *.
  destruct (outcome g) eqn:Ho.
  - (* the winning grid *)
    destruct (inc_counted h _ (path node) Hc (counted_tail _ _ _ Hc))
      as (h1 & -> & Hc1 & Hag1 & Hv1 & _).
    cbn [mbind option_bind].
    destruct (drop_counted h1 _ (path node) Hc1) as (h2 & -> & Hc2 & Hag2 & _).
    cbn [mbind option_bind winning_path].
    assert (Hl2 : linked h2 (path node) p).
    { apply (linked_counted h1 h2 _ _ _ Hag2 Hc2 (counted_tail _ _ _ Hc2)).
      apply (linked_counted h h1 _ _ _ Hag1 Hc1); [|assumption].
      apply Hv1, (counted_tail _ _ _ Hc). }
    destruct (path node) as [a|] eqn:Hp.
    + eexists _, leaked. split; [reflexivity|]. cbn.
      destruct p as [|m p]; [inversion Hl2|]. injection Hs as <-. auto.
    + assert (p = []) as -> by (inversion Hl2; reflexivity).
      apply (IH h2 visited' queue1 entries k leaked l); try assumption.
      * apply counted_null. assumption.
      * apply (follows_counted h1 h2 queue1 _ entries Hag2 Hc2);
          [intros node' Hin; right; apply queued_owned; assumption|].
        apply (follows_counted h h1 queue1 _ entries Hag1 Hc1); [|assumption].
        intros node' Hin. right. right. apply queued_owned. assumption.
  - (* the empty grid *)
    destruct (drop_counted h _ (path node) Hc) as (h2 & -> & Hc2 & Hag2 & _).
    cbn [mbind option_bind winning_path].
    apply (IH h2 visited' queue1 entries k leaked l); try assumption.
    apply (follows_counted h h2 queue1 _ entries Hag2 Hc2); [|assumption].
    intros node' Hin. apply queued_owned. assumption.
  - (* a grid to expand *)
    assert (Hrg' : representable (grid node)) by (rewrite Hg; assumption).
    destruct (expand_follows all_cells node p visited' Hrg' k h queue1 entries leaked)
      as (h1 & queue2 & leaked1 & Hexp & Hc1 & Hf1 & Hl1 & Hleak1); try assumption.
    rewrite Hg in Hf1, Hexp. rewrite Hexp. cbn [mbind option_bind].
    destruct (drop_counted h1 _ (path node) Hc1) as (h2 & -> & Hc2 & Hag2 & _).
    cbn [mbind option_bind winning_path].
    destruct (IH h2 visited' queue2
                (entries ++ Pure.children memory all_cells p g visited' k)
                (k + Pure.requested all_cells g visited')%nat leaked1 l)
      as (st & leaked' & Hsearch & Hc' & Hl' & Hleak'); try assumption.
    + apply (follows_counted h1 h2 queue2 _ _ Hag2 Hc2); [|assumption].
      intros node' Hin. apply queued_owned. assumption.
    + apply Forall_app. split; [assumption|].
      apply children_representable. assumption.
    + exists st, leaked'. repeat (split; [assumption|]).
      intros Hok. rewrite (Hleak' Hok). auto.
Qed.

(** Freeing the queue leaves what the winning path needs. *)
Lemma free_nodes_counted (nodes : list QueueNode) h p leaked l :
  counted h (p :: (path <$> nodes) ++ leaked) -> linked h p l ->
  exists h', free_nodes h nodes = Some h' /\ counted h' (p :: leaked) /\
    linked h' p l.
Proof.
  revert h. induction nodes as [|node nodes IH]; intros h Hc Hl; cbn [free_nodes].
  - eauto.
  - unfold free_queue_node. cbn [fmap list_fmap app] in Hc.
    apply (counted_perm _ _ _ (Permutation_swap _ _ _)) in Hc.
    destruct (drop_counted h _ (path node) Hc) as (h1 & -> & Hc1 & Hag & _).
    cbn [mbind option_bind]. apply IH; [assumption|].
    eapply linked_counted; eauto. eapply counted_tail; eassumption.
Qed.

Lemma free_queue_counted queue h p leaked l :
  counted h (p :: (path <$> queue) ++ leaked) -> linked h p l ->
  exists h', free_queue h queue = Some h' /\ counted h' (p :: leaked) /\
    linked h' p l.
Proof.
  intros Hc Hl. unfold free_queue. apply free_nodes_counted; [|assumption].
  eapply counted_perm; [|exact Hc]. constructor. apply Permutation_app_tail.
  rewrite fmap_reverse. symmetry. apply reverse_Permutation.
Qed.

(** The solver returns the path the search on lists finds.  The counts of
    what it leaves allocated are exact: for the returned path and for the
    paths that leaked, of which there is none when no allocation fails. *)
Theorem solver_follows fuel initial l :
  representable initial ->
  Pure.shortest_winning_path memory fuel initial = Some l ->
  exists h p leaked,
    shortest_winning_path memory fuel initial = Some (h, p) /\
    linked h p l /\ counted h (p :: leaked) /\
    (never_fails memory -> leaked = []).
Proof.
  intros Hr Hs. unfold Pure.shortest_winning_path in Hs.
  unfold shortest_winning_path.
  assert (Hnone : Some l = Some [] ->
    exists h p (leaked : list Path),
      Some (empty_heap, (None : Path)) = Some (h, p) /\
      linked h p l /\ counted h (p :: leaked) /\ (never_fails memory -> leaked = [])).
  { intros [= ->]. exists empty_heap, None, []. split; [reflexivity|].
    split; [constructor|]. split; [apply counted_null_cons, counted_empty|auto]. }
  destruct (memory 0%nat); [|auto]. destruct (memory 1%nat); [|auto].
  cbn [andb calloc new_queue] in *.
  destruct (search_follows fuel empty_heap ∅
              (push_front (memory 2%nat) [] new_path initial)
              (if memory 2%nat then [([], initial)] else []) 3 [] l)
    as (st & leaked & Hsearch & Hc & Hl & Hleak); try assumption.
  - rewrite app_nil_r. destruct (memory 2%nat); cbn.
    + apply counted_null_cons, counted_empty.
    + apply counted_empty.
  - unfold follows. destruct (memory 2%nat); cbn; [|constructor].
    constructor; [|constructor]. split; [reflexivity|constructor].
  - destruct (memory 2%nat); [|constructor].
    apply Forall_cons. split; [assumption|constructor].
  - destruct (free_queue_counted _ _ _ _ _ Hc Hl) as (h' & Hfree & Hc' & Hl').
    exists h', (winning_path st), leaked.
    rewrite Hsearch. cbn [mbind option_bind]. rewrite Hfree. auto.
Qed.

Lemma search_more fuel fuel' st st' :
  (fuel <= fuel')%nat ->
  search memory fuel st = Some st' -> search memory fuel' st = Some st'.
Proof.
  revert fuel' st. induction fuel as [|fuel IH]; intros fuel' st Hle Hs; [discriminate|].
  destruct fuel' as [|fuel']; [lia|]. cbn [search] in *.
  destruct (pop_back (to_visit st)) as [[node queue]|]; [|assumption].
  destruct (visit memory st node queue) as [st1|]; [|discriminate]. cbn in *.
  destruct (winning_path st1); [assumption|]. apply IH; [lia|assumption].
Qed.

Lemma shortest_winning_path_more fuel fuel' initial r :
  (fuel <= fuel')%nat ->
  shortest_winning_path memory fuel initial = Some r ->
  shortest_winning_path memory fuel' initial = Some r.
Proof.
  unfold shortest_winning_path. intros Hle Hs.
  destruct (calloc _); [|assumption]. destruct (new_queue _); [|assumption].
  cbn zeta in *.
  destruct (search memory fuel _) as [st|] eqn:Hsearch; [|discriminate].
  rewrite (search_more fuel fuel' _ st Hle Hsearch). assumption.
Qed.

End Memory.

End SimulationFacts.

(** * Facts about the solver *)

Module SolverFacts.
Import Grid Paths Queue Solver Simulation GridFacts PathFacts PureFacts SimulationFacts.

(** [print_path_loop] prints a linked path from its last node back. *)
Lemma linked_print h p l :
  linked h p l -> print_path_loop (S (length l)) h p = Some (reverse l).
Proof.
  induction 1 as [|a n l Ha Hl IH]; [reflexivity|].
  cbn [length]. remember (S (length l)) as k eqn:Hk.
  cbn [print_path_loop]. rewrite Ha. cbn [mbind option_bind].
  rewrite IH. cbn [mbind option_bind]. rewrite reverse_cons. reflexivity.
Qed.

(** C1, on the code: from the grid with stars in cells 2, 5, 7 and 9, when
    the first allocation of a path node fails (request 3) and every other
    allocation succeeds, the solver returns a path whose only move is 5,
    whatever the number of iterations it is allowed, and [play] prints it.
    Exploding cell 5 gives the grid 47, not the winning grid; the moves 2
    and 5 win.  For the move 2 [add_move_to_path] returned [NULL], which is
    the empty path, and the move 5 was linked to it. *)
Theorem failed_allocation_returns_losing_path :
  shortest_winning_path (fails_at 3) 8 149
  = Some (mkHeap {[6%positive := mkPathNode 1 5 None]} 32%positive,
          Some 6%positive) /\
  (forall fuel h p,
     shortest_winning_path (fails_at 3) fuel 149 = Some (h, p) ->
     p = Some 6%positive /\ linked h p [5]) /\
  play (fails_at 3) 8 149 Chatty
  = Some (Some (Moves [5]), mkHeap ∅ 32%positive) /\
  replay 149 [5] = 47 /\
  replay 149 [5] <> winning_grid /\
  replay 149 [2; 5] = winning_grid.
Proof.
  assert (H8 : shortest_winning_path (fails_at 3) 8 149
               = Some (mkHeap {[6%positive := mkPathNode 1 5 None]} 32%positive,
                       Some 6%positive)) by reflexivity.
  split; [assumption|]. split.
  - intros fuel h p Hs.
    apply (shortest_winning_path_more _ _ (Nat.max fuel 8)) in Hs; [|lia].
    apply (shortest_winning_path_more _ _ (Nat.max fuel 8)) in H8; [|lia].
    assert (h = mkHeap {[6%positive := mkPathNode 1 5 None]} 32%positive
            /\ p = Some 6%positive) as [-> ->] by (split; congruence).
    split; [reflexivity|].
    apply (linked_node _ 6%positive (mkPathNode 1 5 None) []);
      [reflexivity|constructor].
  - split; [reflexivity|]. split; [reflexivity|].
    split; [discriminate|reflexivity].
Qed.

(** X20: provided no allocation fails, a path the solver returns for a
    representable grid, read in play order, replays from the initial grid to
    the winning grid, reaches the winning grid with its last move only, and
    no sequence of moves that wins from the initial grid is shorter.
    [print_path_loop] prints the moves in that order. *)
Theorem shortest_winning_path_shortest memory initial fuel h a :
  never_fails memory ->
  representable initial ->
  shortest_winning_path memory fuel initial = Some (h, Some a) ->
  exists l,
    linked h (Some a) l /\
    print_path_loop (S (length l)) h (Some a) = Some (reverse l) /\
    replay initial (reverse l) = winning_grid /\
    (forall k, (k < length l)%nat ->
       replay initial (take k (reverse l)) <> winning_grid) /\
    (forall ms, replay initial ms = winning_grid -> (length l <= length ms)%nat).
Proof.
  intros Hok Hr Hs.
  destruct (search_ends memory initial Hr) as (fuel0 & l & Hpure).
  destruct (solver_follows memory fuel0 initial l Hr Hpure)
    as (h0 & p0 & leaked & Hs0 & Hl & _).
  apply (shortest_winning_path_more _ _ (Nat.max fuel fuel0)) in Hs; [|lia].
  apply (shortest_winning_path_more _ _ (Nat.max fuel fuel0)) in Hs0; [|lia].
  assert (h0 = h /\ p0 = Some a) as [-> ->] by (split; congruence).
  assert (Hne : l <> []) by (intros ->; inversion Hl).
  destruct (search_shortest memory initial fuel0 l Hok Hpure Hne) as [Hwin Hmin].
  exists l. split; [assumption|]. split; [apply linked_print; assumption|].
  split; [assumption|]. split; [|assumption].
  intros k Hk Hearly. apply Hmin in Hearly.
  rewrite length_take, length_reverse in Hearly. lia.
Qed.

(** From the grid with stars in the corners and the centre, exploding the
    centre wins. *)
Lemma shortest_winning_path_shortest_witness :
  exists l,
    linked (mkHeap {[3%positive := mkPathNode 1 5 None]} 16%positive) (Some 3%positive) l /\
    print_path_loop (S (length l))
      (mkHeap {[3%positive := mkPathNode 1 5 None]} 16%positive) (Some 3%positive)
    = Some (reverse l) /\
    replay 341 (reverse l) = winning_grid /\
    (forall k, (k < length l)%nat -> replay 341 (take k (reverse l)) <> winning_grid) /\
    (forall ms, replay 341 ms = winning_grid -> (length l <= length ms)%nat).
Proof.
  apply (shortest_winning_path_shortest plenty 341 10).
  - intros k. reflexivity.
  - unfold representable. lia.
  - reflexivity.
Defined.

(** C2, on the code: started on the winning grid, the solver returns [NULL],
    the value it returns when there is no winning path, whatever the number
    of iterations it is allowed and whichever allocations fail, and [play]
    reports that there is no winning sequence. *)
Theorem winning_start_returns_null :
  (forall memory,
     shortest_winning_path memory 2 winning_grid = Some (empty_heap, None)) /\
  (forall memory fuel h p,
     shortest_winning_path memory fuel winning_grid = Some (h, p) -> p = None) /\
  (forall memory,
     play memory 2 winning_grid Chatty = Some (Some NoWinningSequence, empty_heap)).
Proof.
  assert (H2 : forall memory,
            shortest_winning_path memory 2 winning_grid = Some (empty_heap, None)).
  { intros memory. unfold shortest_winning_path.
    destruct (memory 0%nat), (memory 1%nat), (memory 2%nat); reflexivity. }
  split; [assumption|]. split.
  - intros memory fuel h p Hs. specialize (H2 memory).
    apply (shortest_winning_path_more _ _ (Nat.max fuel 2)) in Hs; [|lia].
    apply (shortest_winning_path_more _ _ (Nat.max fuel 2)) in H2; [|lia].
    congruence.
  - intros memory. unfold play. rewrite H2. reflexivity.
Qed.

(** C5, on the code: from the grid with stars in cells 6 and 8, every
    allocation succeeding, the grid with stars in cells 3 and 7 is taken
    from the queue by iteration 4 and again by iteration 6 (iterations count
    from 0). *)
Theorem grid_dequeued_twice :
  dequeued plenty 10 4 = Some 68 /\ dequeued plenty 10 6 = Some 68 /\
  map (dequeued plenty 10) (seq 0 7)
  = [Some 10; Some 67; Some 13; Some 155; Some 68; Some 88; Some 68].
Proof. repeat split; reflexivity. Qed.

(** The part of C5 that holds: the nodes an iteration adds to the queue hold
    grids that are not marked, the node it took is marked, and marks stay. *)
Lemma expand_adds memory cells node visited k h queue k' h' queue' :
  expand memory cells node visited k h queue = Some (k', h', queue') ->
  exists added, queue' = added ++ queue /\
    forall n, n ∈ added -> default false (visited !! grid n) = false.
Proof.
  revert k h queue. induction cells as [|i cells IH]; intros k h queue He;
    cbn [expand] in He.
  - injection He as <- <- <-. exists []. split; [reflexivity|].
    intros n Hn. apply elem_of_nil in Hn. contradiction.
  - destruct (is_star (grid node) i); [|eauto].
    destruct (visited_get visited (explode (grid node) i)) as [seen|] eqn:Hget;
      [|discriminate].
    cbn [mbind option_bind] in He.
    unfold visited_get in Hget. case_decide; [|discriminate]. injection Hget as <-.
    destruct (default false (visited !! explode (grid node) i)) eqn:Hv; [eauto|].
    destruct (add_move_to_path (memory k) h (path node) i) as [[h1 new_path]|];
      [|discriminate].
    cbn [mbind option_bind] in He. apply IH in He as (added & -> & Hnew).
    unfold push_front. destruct (memory (S k)); [|eauto].
    exists (added ++ [mkQueueNode new_path (explode (grid node) i)]).
    split; [rewrite <-app_assoc; reflexivity|].
    intros n Hn. apply elem_of_app in Hn as [Hn|Hn]; [auto|].
    apply list_elem_of_singleton in Hn. subst n. exact Hv.
Qed.

Lemma visit_enqueues_unvisited memory st node queue st' :
  visit memory st node queue = Some st' ->
  (forall g, Pure.seen (visited st) g -> Pure.seen (visited st') g) /\
  Pure.seen (visited st') (grid node) /\
  exists added, to_visit st' = added ++ queue /\
    forall n, n ∈ added -> ~ Pure.seen (visited st') (grid n).
Proof.
  unfold visit, visited_set. intros Hv.
  case_decide; [|discriminate]. cbn [mbind option_bind] in Hv.
  assert (Hkeep : forall g, Pure.seen (visited st) g ->
            Pure.seen (<[grid node := true]> (visited st)) g).
  { intros g Hg. apply seen_insert. auto. }
  assert (Hnode : Pure.seen (<[grid node := true]> (visited st)) (grid node)).
  { apply seen_insert. auto. }
  assert (Hnone : exists added : Queue, queue = added ++ queue /\
            forall n, n ∈ added ->
              ~ Pure.seen (<[grid node := true]> (visited st)) (grid n)).
  { exists []. split; [reflexivity|]. intros n Hn. apply elem_of_nil in Hn. contradiction. }
  destruct (outcome (grid node)).
  - destruct (inc_reference_to_path (heap st) (path node)) as [h1|]; [|discriminate].
    cbn [mbind option_bind] in Hv.
    destruct (free_queue_node h1 node) as [h2|]; [|discriminate].
    injection Hv as <-. cbn. auto.
  - destruct (free_queue_node (heap st) node) as [h2|]; [|discriminate].
    injection Hv as <-. cbn. auto.
  - destruct (expand memory all_cells node _ (requests st) (heap st) queue)
      as [[[k1 h1] queue1]|] eqn:He; [|discriminate].
    cbn [mbind option_bind] in Hv.
    destruct (free_queue_node h1 node) as [h2|]; [|discriminate].
    injection Hv as <-. cbn. split; [assumption|]. split; [assumption|].
    apply expand_adds in He as (added & -> & Hnew). exists added.
    split; [reflexivity|]. intros n Hn Hseen. unfold Pure.seen in Hseen.
    rewrite (Hnew n Hn) in Hseen. discriminate.
Qed.

(** Playing a game leaves no path node allocated when no allocation
    fails. *)
Lemma play_frees_paths memory initial :
  never_fails memory ->
  representable initial ->
  exists fuel h, play memory fuel initial Silent = Some (None, h) /\ cells h = ∅.
Proof.
  intros Hok Hr. destruct (search_ends memory initial Hr) as (fuel & l & Hpure).
  destruct (solver_follows memory fuel initial l Hr Hpure)
    as (h & p & leaked & Hs & _ & Hc & Hleak).
  rewrite (Hleak Hok) in Hc.
  destruct (drop_counted h [] p Hc) as (h' & Hd & Hc' & _).
  exists fuel, h'. unfold play. rewrite Hs. cbn [mbind option_bind].
  rewrite Hd. split; [reflexivity|]. apply counted_nil_empty. assumption.
Qed.

(** C6: for every representable grid the loop of the solver ends, whichever
    allocations fail: from some number of iterations on, the solver returns,
    and always the same heap and pointer. *)
Theorem shortest_winning_path_terminates memory initial :
  representable initial ->
  exists fuel h p,
    forall fuel', (fuel <= fuel')%nat ->
      shortest_winning_path memory fuel' initial = Some (h, p).
Proof.
  intros Hr. destruct (search_ends memory initial Hr) as (fuel & l & Hpure).
  destruct (solver_follows memory fuel initial l Hr Hpure) as (h & p & _ & Hs & _).
  exists fuel, h, p. intros fuel' Hle.
  apply (shortest_winning_path_more _ fuel); assumption.
Qed.

(** The path of the first node fails to be allocated. *)
Lemma shortest_winning_path_terminates_witness :
  exists fuel h p,
    forall fuel', (fuel <= fuel')%nat ->
      shortest_winning_path (fails_at 3) fuel' cell1 = Some (h, p).
Proof.
  apply (shortest_winning_path_terminates (fails_at 3) cell1).
  unfold representable, cell1. lia.
Defined.

(** C8: exploding any cell of a representable grid gives a representable
    grid: it is not the error grid, [outcome] classifies it by comparing it
    with the empty and the winning grid, and it indexes a slot of the
    [visited] array. *)
Theorem explode_closed g c :
  representable g -> 1 <= c <= 9 ->
  representable (explode g c) /\
  explode g c <> error_grid /\
  (outcome (explode g c) = Lost <-> explode g c = empty_grid) /\
  (outcome (explode g c) = Won <-> explode g c = winning_grid) /\
  forall visited,
    visited_get visited (explode g c)
    = Some (default false (visited !! explode g c)) /\
    visited_set visited (explode g c) = Some (<[explode g c := true]> visited).
Proof.
  intros Hg Hc. pose proof (explode_representable g c Hg) as Hr.
  split; [assumption|]. split; [unfold representable, error_grid in *; lia|].
  split; [apply outcome_lost|]. split; [apply outcome_won|].
  intros visited. split;
    [apply visited_get_representable|apply visited_set_representable]; assumption.
Qed.

Lemma explode_closed_witness :
  representable (explode cell1 1) /\
  explode cell1 1 <> error_grid /\
  (outcome (explode cell1 1) = Lost <-> explode cell1 1 = empty_grid) /\
  (outcome (explode cell1 1) = Won <-> explode cell1 1 = winning_grid) /\
  forall visited,
    visited_get visited (explode cell1 1)
    = Some (default false (visited !! explode cell1 1)) /\
    visited_set visited (explode cell1 1) = Some (<[explode cell1 1 := true]> visited).
Proof.
  apply (explode_closed cell1 1); [unfold representable, cell1|]; lia.
Defined.

End SolverFacts.

(** * Facts about printing and parsing *)

Module TextFacts.
Import Grid GridFacts Text.

(** X1: reading back what [print_grid] prints gives the grid, for every
    representable grid. *)
Theorem parse_print_grid (g : Grid) :
  representable g -> parse (print_grid g) = Some g.
Proof.
  intros Hg.
  assert (Hall : forallb round_trip_ok (seqZ 0 512) = true) by reflexivity.
  rewrite forallb_forall in Hall.
  assert (Hin : In g (seqZ 0 512)).
  { apply list_elem_of_In, elem_of_seqZ. unfold representable in Hg. lia. }
  specialize (Hall g Hin). unfold round_trip_ok in Hall.
  destruct (parse (print_grid g)) as [g'|]; [|discriminate].
  apply Z.eqb_eq in Hall. congruence.
Qed.

Lemma parse_print_grid_witness : parse (print_grid winning_grid) = Some winning_grid.
Proof. apply parse_print_grid. unfold representable, winning_grid. lia. Defined.

(** X2: a text of three lines of three stars or holes parses to a
    representable grid whose stars are where the text has them, and that
    grid prints as the text. *)
Theorem print_grid_parse (a b c d e f g h i : ascii) :
  cell_char a -> cell_char b -> cell_char c ->
  cell_char d -> cell_char e -> cell_char f ->
  cell_char g -> cell_char h -> cell_char i ->
  let text := [a; b; c; newline; d; e; f; newline; g; h; i] in
  exists grid,
    parse text = Some grid /\ representable grid /\
    stars grid = stars_of_chars [a; b; c; d; e; f; g; h; i] /\
    print_grid grid = text.
Proof.
  intros [-> | ->] [-> | ->] [-> | ->] [-> | ->] [-> | ->] [-> | ->]
         [-> | ->] [-> | ->] [-> | ->];
    (eexists; split; [reflexivity|]; split;
     [split; [apply Z.leb_le|apply Z.ltb_lt]; reflexivity|split; reflexivity]).
Qed.

Lemma print_grid_parse_witness :
  exists grid,
    parse ["*"; "."; "."; newline; "."; "."; "."; newline; "."; "."; "."]%char
    = Some grid /\ representable grid /\
    stars grid = stars_of_chars ["*"; "."; "."; "."; "."; "."; "."; "."; "."]%char /\
    print_grid grid
    = ["*"; "."; "."; newline; "."; "."; "."; newline; "."; "."; "."]%char.
Proof.
  apply (print_grid_parse "*" "." "." "." "." "." "." "." ".");
    (left; reflexivity) || (right; reflexivity).
Defined.

Lemma lor_below (n a b : Z) :
  0 < n -> 0 <= a < 2 ^ n -> 0 <= b < 2 ^ n -> 0 <= Z.lor a b < 2 ^ n.
Proof.
  intros Hn Ha Hb.
  assert (H0 : 0 <= Z.lor a b) by (apply Z.lor_nonneg; lia).
  split; [assumption|].
  destruct (Z.eq_dec (Z.lor a b) 0) as [->|Hne]; [lia|].
  apply Z.log2_lt_pow2; [lia|].
  rewrite Z.log2_lor by lia.
  assert (Z.log2 a < n).
  { destruct (Z.eq_dec a 0) as [->|]; [simpl; lia|]. apply Z.log2_lt_pow2; lia. }
  assert (Z.log2 b < n).
  { destruct (Z.eq_dec b 0) as [->|]; [simpl; lia|]. apply Z.log2_lt_pow2; lia. }
  lia.
Qed.

Lemma cell_bits_cases (cell : Grid) :
  cell ∈ cell_bits ->
  0 <= cell < 2 ^ 9 /\ Z.lor cell error_grid = error_grid.
Proof.
  unfold cell_bits. intros Hin.
  repeat (apply elem_of_cons in Hin as [->|Hin];
          [split; [split; [apply Z.leb_le|apply Z.ltb_lt]|]; reflexivity|]).
  apply elem_of_nil in Hin. contradiction.
Qed.

Lemma place_range cell ch grid :
  cell ∈ cell_bits ->
  grid = error_grid \/ representable grid ->
  place cell ch grid = error_grid \/ representable (place cell ch grid).
Proof.
  intros Hc Hg. destruct (cell_bits_cases cell Hc) as [Hb Herr].
  unfold place. destruct (Ascii.eqb ch "*"); [|destruct (Ascii.eqb ch "."); auto].
  destruct Hg as [->|Hg].
  - left. rewrite Herr. reflexivity.
  - right. unfold representable, u16 in *.
    pose proof (lor_below 9 cell grid ltac:(lia) Hb ltac:(lia)) as Hl.
    rewrite Z.mod_small; lia.
Qed.

Lemma place_valid cell ch grid :
  cell ∈ cell_bits ->
  place cell ch grid <> error_grid -> cell_char ch /\ grid <> error_grid.
Proof.
  intros Hc Hp. destruct (cell_bits_cases cell Hc) as [_ Herr]. unfold place in Hp.
  destruct (Ascii.eqb_spec ch "*") as [->|].
  - split; [left; reflexivity|]. intros ->. apply Hp. rewrite Herr. reflexivity.
  - destruct (Ascii.eqb_spec ch ".") as [->|]; [|contradiction].
    split; [right; reflexivity|assumption].
Qed.

Lemma place_all_range cells chars grid :
  cells ⊆ cell_bits ->
  grid = error_grid \/ representable grid ->
  place_all cells chars grid = error_grid \/
  representable (place_all cells chars grid).
Proof.
  revert chars grid. induction cells as [|cell cells IH]; intros chars grid Hsub Hg;
    [assumption|].
  destruct chars as [|ch chars]; [assumption|]. cbn [place_all].
  apply IH; [intros x Hx; apply Hsub; right; exact Hx|].
  apply place_range; [apply Hsub; left|assumption].
Qed.

Lemma place_error cell ch :
  cell ∈ cell_bits -> place cell ch error_grid = error_grid.
Proof.
  intros Hc. destruct (cell_bits_cases cell Hc) as [_ Herr].
  unfold place. rewrite Herr.
  destruct (Ascii.eqb ch "*"); [reflexivity|destruct (Ascii.eqb ch "."); reflexivity].
Qed.

(** Once [grid] is the error grid it stays the error grid. *)
Lemma place_all_error cells chars :
  cells ⊆ cell_bits -> place_all cells chars error_grid = error_grid.
Proof.
  revert chars. induction cells as [|cell cells IH]; intros chars Hsub; [reflexivity|].
  destruct chars as [|ch chars]; [reflexivity|]. cbn [place_all].
  rewrite place_error by set_solver. apply IH. set_solver.
Qed.

Lemma place_all_valid cells chars grid :
  cells ⊆ cell_bits -> length chars = length cells ->
  place_all cells chars grid <> error_grid -> Forall cell_char chars.
Proof.
  revert chars grid. induction cells as [|cell cells IH]; intros chars grid Hsub Hlen Hp;
    destruct chars as [|ch chars]; try discriminate; [constructor|].
  cbn [place_all] in Hp.
  assert (Hnext : place cell ch grid <> error_grid).
  { intros Heq. rewrite Heq in Hp. apply Hp. apply place_all_error. set_solver. }
  constructor.
  - apply (place_valid cell ch grid); [set_solver|assumption].
  - apply (IH chars (place cell ch grid)); [set_solver|cbn in Hlen; congruence|assumption].
Qed.

Lemma skip_spaces_split s :
  exists spaces, s = spaces ++ skip_spaces s /\ Forall (fun c => isspace c = true) spaces.
Proof.
  induction s as [|c s (spaces & Heq & Hsp)]; [exists []; split; [reflexivity|constructor]|].
  cbn [skip_spaces]. destruct (isspace c) eqn:Hc.
  - exists (c :: spaces). split; [cbn; congruence|constructor; assumption].
  - exists []. split; [reflexivity|constructor].
Qed.

Lemma scan3_some s a b c r :
  scan3 s = Some (a, b, c, r) -> s = [a; b; c] ++ r.
Proof.
  destruct s as [|x [|y [|z s]]]; cbn; intros H; try discriminate.
  injection H as <- <- <- <-. reflexivity.
Qed.

Lemma sscanf_some s chars :
  sscanf s = Some chars ->
  exists a b c d e f g h i sep1 sep2 rest,
    s = [a; b; c] ++ sep1 ++ [d; e; f] ++ sep2 ++ [g; h; i] ++ rest /\
    chars = [a; b; c; d; e; f; g; h; i] /\
    Forall (fun c => isspace c = true) sep1 /\
    Forall (fun c => isspace c = true) sep2.
Proof.
  unfold sscanf. intros Hs.
  destruct (scan3 s) as [[[[a b] c] s1]|] eqn:H1; [|discriminate].
  cbn [mbind option_bind] in Hs.
  destruct (scan3 (skip_spaces s1)) as [[[[d e] f] s2]|] eqn:H2; [|discriminate].
  cbn [mbind option_bind] in Hs.
  destruct (scan3 (skip_spaces s2)) as [[[[g h] i] s3]|] eqn:H3; [|discriminate].
  cbn [mbind option_bind] in Hs. injection Hs as <-.
  apply scan3_some in H1, H2, H3.
  destruct (skip_spaces_split s1) as (sep1 & Hs1 & Hsp1).
  destruct (skip_spaces_split s2) as (sep2 & Hs2 & Hsp2).
  exists a, b, c, d, e, f, g, h, i, sep1, sep2, s3.
  split; [|auto]. rewrite H1, Hs1, H2, Hs2, H3. reflexivity.
Qed.

(** X3: [parse] answers a grid other than the error grid only for an input of
    11 characters that is three characters, white space, three characters,
    white space, three characters and a rest, the nine characters being stars
    or holes; the white space may be missing or be any white space, and the
    rest is not looked at.  The grid has its stars where the nine characters
    have them. *)
Theorem parse_accepts input grid :
  parse input = Some grid -> grid <> error_grid ->
  exists a b c d e f g h i sep1 sep2 rest,
    c_string input = [a; b; c] ++ sep1 ++ [d; e; f] ++ sep2 ++ [g; h; i] ++ rest /\
    (length sep1 + length sep2 + length rest = 2)%nat /\
    Forall (fun c => isspace c = true) sep1 /\
    Forall (fun c => isspace c = true) sep2 /\
    Forall cell_char [a; b; c; d; e; f; g; h; i] /\
    grid = grid_of_chars [a; b; c; d; e; f; g; h; i] /\
    representable grid.
Proof.
  unfold parse. intros Hp Hne.
  destruct (Nat.eqb_spec (strlen input) 11) as [Hlen|]; cbn [negb] in Hp;
    [|congruence].
  destruct (sscanf (c_string input)) as [chars|] eqn:Hs; [|discriminate].
  cbn [mbind option_bind] in Hp. injection Hp as <-.
  apply sscanf_some in Hs
    as (a & b & c & d & e & f & g & h & i & sep1 & sep2 & rest & Hin & -> & H1 & H2).
  exists a, b, c, d, e, f, g, h, i, sep1, sep2, rest.
  split; [assumption|]. split.
  { unfold strlen in Hlen. rewrite Hin in Hlen.
    repeat (rewrite length_app in Hlen; cbn [length] in Hlen). lia. }
  split; [assumption|]. split; [assumption|].
  split.
  { apply (place_all_valid cell_bits _ empty_grid);
      [intros x Hx; exact Hx|reflexivity|exact Hne]. }
  split; [reflexivity|].
  destruct (place_all_range cell_bits [a; b; c; d; e; f; g; h; i] empty_grid)
    as [He|Hr];
    [intros x Hx; exact Hx|right; unfold representable, empty_grid; lia| |assumption].
  contradiction.
Qed.

(** Blank separators and a stray last character. *)
Lemma parse_accepts_witness :
  exists a b c d e f g h i sep1 sep2 rest,
    c_string ["*"; "."; "."; " "; "."; "*"; "."; "."; "."; "."; "x"]%char
    = [a; b; c] ++ sep1 ++ [d; e; f] ++ sep2 ++ [g; h; i] ++ rest /\
    (length sep1 + length sep2 + length rest = 2)%nat /\
    Forall (fun c => isspace c = true) sep1 /\
    Forall (fun c => isspace c = true) sep2 /\
    Forall cell_char [a; b; c; d; e; f; g; h; i] /\
    0x110 = grid_of_chars [a; b; c; d; e; f; g; h; i] /\
    representable 0x110.
Proof.
  apply (parse_accepts ["*"; "."; "."; " "; "."; "*"; "."; "."; "."; "."; "x"]%char).
  - reflexivity.
  - discriminate.
Defined.

(** X4: [parse] never answers a grid outside the 512 representable ones but
    the error grid, and answers the error grid for every input that is not
    11 characters long. *)
Theorem parse_range input :
  (strlen input <> 11%nat -> parse input = Some error_grid) /\
  (forall grid, parse input = Some grid ->
     grid = error_grid \/ representable grid).
Proof.
  unfold parse. split.
  - intros Hlen. destruct (Nat.eqb_spec (strlen input) 11); [contradiction|reflexivity].
  - intros grid Hp. destruct (negb _); [injection Hp as <-; auto|].
    destruct (sscanf (c_string input)) as [chars|]; [|discriminate].
    cbn [mbind option_bind] in Hp.
    assert (grid = place_all cell_bits chars empty_grid) as -> by congruence.
    apply (place_all_range cell_bits chars empty_grid); [intros x Hx; exact Hx|].
    right. unfold representable, empty_grid. lia.
Qed.

End TextFacts.

(** * More facts about grids *)

Module MoreGridFacts.
Import Grid GridFacts.

(** X5: [explode] changes the grid exactly when the cell holds a star. *)
Theorem explode_changes (g c : Z) :
  explode g c <> g <-> is_star g c = true.
Proof.
  split.
  - intros Hne. destruct (is_star g c) eqn:Hs; [reflexivity|].
    exfalso. apply Hne. apply explode_not_star. assumption.
  - intros Hs Heq.
    pose proof (is_star_in_range _ _ Hs) as Hc.
    assert (Hhole : is_star (explode g c) c = false).
    { rewrite is_star_explode, Hs by assumption.
      apply in_range_cases in Hc. each_cell Hc; reflexivity. }
    rewrite Heq in Hhole. congruence.
Qed.

(** X6: among the representable grids the empty grid is the only one without
    a star, so [outcome] is [Lost] exactly where no move is left, and every
    grid the solver expands has a move. *)
Theorem lost_iff_no_star (g : Grid) :
  representable g ->
  (outcome g = Lost <-> stars g = []) /\
  (outcome g = Continue -> exists c, 1 <= c <= 9 /\ is_star g c = true).
Proof.
  intros Hg.
  assert (Hall : forallb (fun g => (g =? empty_grid) || existsb (is_star g) all_cells)
                   (seqZ 0 512) = true)
    by reflexivity.
  rewrite forallb_forall in Hall.
  assert (Hin : In g (seqZ 0 512)).
  { apply list_elem_of_In, elem_of_seqZ. unfold representable in Hg. lia. }
  specialize (Hall g Hin). apply orb_true_iff in Hall.
  assert (Hstars : stars g = [] <-> g = empty_grid).
  { split.
    - intros Hnone. destruct Hall as [Hz|Hm]; [apply Z.eqb_eq; assumption|].
      exfalso. apply existsb_exists in Hm as (c & Hc & Hs).
      assert (Hcin : In c (stars g)) by (apply filter_In; auto).
      rewrite Hnone in Hcin. contradiction.
    - intros ->. reflexivity. }
  split.
  - rewrite Hstars. unfold outcome.
    destruct (Z.eqb_spec g empty_grid) as [->|]; [tauto|].
    destruct (g =? winning_grid); split; (congruence || discriminate).
  - intros Ho. destruct Hall as [Hz|Hm].
    + apply Z.eqb_eq in Hz. subst g. discriminate.
    + apply existsb_exists in Hm as (c & _ & Hs).
      exists c. split; [apply is_star_in_range in Hs|]; assumption.
Qed.

Lemma lost_iff_no_star_witness :
  (outcome cell1 = Lost <-> stars cell1 = []) /\
  (outcome cell1 = Continue -> exists c, 1 <= c <= 9 /\ is_star cell1 c = true).
Proof. apply lost_iff_no_star. unfold representable, cell1. lia. Defined.

End MoreGridFacts.

(** * More facts about paths *)

Module MorePathFacts.
Import Paths Simulation PathFacts.

(** X7: taking a reference and giving it back leaves the heap as it was,
    for [NULL] and for any node whose count is not zero. *)
Theorem retain_release h p :
  (forall a n, p = Some a -> load h a = Some n -> references n <> 0) ->
  valid h p ->
  exists h1, inc_reference_to_path h p = Some h1 /\
    drop_reference_to_path h1 p = Some h.
Proof.
  intros Hpos Hv. destruct p as [a|].
  - destruct Hv as [n Hn]. specialize (Hpos a n eq_refl Hn).
    cbn [inc_reference_to_path]. rewrite Hn. cbn [mbind option_bind].
    eexists. split; [reflexivity|].
    unfold drop_reference_to_path. cbn [drop_rec].
    rewrite load_store_eq. cbn [mbind option_bind references set_references rest move].
    replace (references n + 1 - 1) with (references n) by lia.
    destruct (Z.eqb_spec (references n) 0) as [|_]; [contradiction|].
    f_equal. destruct h as [c nb]. unfold store, load in *. cbn in *. f_equal.
    rewrite insert_insert_eq. apply insert_id. rewrite Hn. destruct n; reflexivity.
  - exists h. split; reflexivity.
Qed.

Lemma retain_release_witness :
  exists h1,
    inc_reference_to_path (mkHeap {[1%positive := mkPathNode 1 9 None]} 2%positive)
      (Some 1%positive) = Some h1 /\
    drop_reference_to_path h1 (Some 1%positive)
    = Some (mkHeap {[1%positive := mkPathNode 1 9 None]} 2%positive).
Proof.
  apply retain_release.
  - intros a n [= <-] Hn. vm_compute in Hn. injection Hn as <-. discriminate.
  - exists (mkPathNode 1 9 None). reflexivity.
Defined.

Lemma inc_size h p h' :
  inc_reference_to_path h p = Some h' ->
  size (cells h') = size (cells h) /\ nextblock h' = nextblock h.
Proof.
  destruct p as [a|]; cbn [inc_reference_to_path]; [|intros [= <-]; auto].
  destruct (load h a) as [n|] eqn:Hn; [|discriminate].
  cbn [mbind option_bind]. intros [= <-]. cbn [store cells nextblock].
  split; [|reflexivity]. apply map_size_insert_Some. eexists. exact Hn.
Qed.

Lemma counted_fresh h owned : counted h owned -> load h (nextblock h) = None.
Proof.
  intros Hc. destruct (load h (nextblock h)) eqn:E; [|reflexivity].
  pose proof (counted_next _ _ Hc _ (mk_is_Some _ _ E)). lia.
Qed.

(** A heap with one path of one move, which one owner holds. *)
Lemma counted_one_move m :
  counted (mkHeap {[1%positive := mkPathNode 1 m None]} 2%positive)
          [Some 1%positive].
Proof.
  destruct (add_move_counted empty_heap [] None m counted_empty I)
    as (h & Hadd & Hc & _).
  assert (h = mkHeap {[1%positive := mkPathNode 1 m None]} 2%positive) as <-;
    [|exact Hc].
  assert (Hval : add_move_to_path true empty_heap None m
            = Some (mkHeap {[1%positive := mkPathNode 1 m None]} 2%positive,
                    Some 1%positive)) by reflexivity.
  congruence.
Qed.

(** X8: on a heap with exact counts, [add_move_to_path] leaves the moves of
    every allocated path as they were and returns a pointer the caller
    owns, the counts being exact again.  When the allocation succeeds, that
    is one new node at a fresh address, which links the move in front of
    the moves of the path it was given, so that [print_path_loop] prints
    them and then the move: the rest is shared, not copied.  When the
    allocation fails, the heap is unchanged and [NULL] is returned. *)
Theorem add_move_shares ok h owned p m l :
  counted h owned -> valid h p -> linked h p l ->
  exists h' q,
    add_move_to_path ok h p m = Some (h', q) /\
    counted h' (q :: owned) /\
    (forall q' lq, valid h q' -> linked h q' lq -> linked h' q' lq) /\
    if ok then
      exists a, q = Some a /\
        load h a = None /\
        size (cells h') = S (size (cells h)) /\
        linked h' (Some a) (m :: l) /\
        print_path_loop (S (S (length l))) h' (Some a) = Some (reverse l ++ [m])
    else h' = h /\ q = None.
Proof.
  intros Hc Hv Hl. destruct ok.
  - destruct (add_move_counted h owned p m Hc Hv)
      as (h' & Hadd & Hc' & Hag & Hval & Hnew).
    exists h', (Some (nextblock h)). split; [assumption|]. split; [assumption|].
    split; [intros q lq Hq Hlq; eapply linked_counted; eauto|].
    exists (nextblock h). split; [reflexivity|].
    split; [eapply counted_fresh; eassumption|].
    split.
    { unfold add_move_to_path in Hadd. cbn [malloc] in Hadd.
      destruct (inc_reference_to_path _ p) as [h2|] eqn:Hinc; [|discriminate].
      cbn [mbind option_bind] in Hadd. injection Hadd as <-.
      apply inc_size in Hinc as [-> _]. cbn [cells].
      apply map_size_insert_None. eapply counted_fresh. eassumption. }
    split; [auto|].
    rewrite <-reverse_cons.
    change (S (S (length l))) with (S (length (m :: l))).
    apply SolverFacts.linked_print. auto.
  - exists h, None. split; [reflexivity|].
    split; [apply counted_null_cons; assumption|]. auto.
Qed.

(** A second branch on a path that an owner holds. *)
Lemma add_move_shares_witness :
  exists h' q,
    add_move_to_path true
      (mkHeap {[1%positive := mkPathNode 1 9 None]} 2%positive) (Some 1%positive) 7
    = Some (h', q) /\
    counted h' [q; Some 1%positive] /\
    (forall q' lq,
       valid (mkHeap {[1%positive := mkPathNode 1 9 None]} 2%positive) q' ->
       linked (mkHeap {[1%positive := mkPathNode 1 9 None]} 2%positive) q' lq ->
       linked h' q' lq) /\
    exists a, q = Some a /\
      load (mkHeap {[1%positive := mkPathNode 1 9 None]} 2%positive) a = None /\
      size (cells h')
      = S (size (cells (mkHeap {[1%positive := mkPathNode 1 9 None]} 2%positive))) /\
      linked h' (Some a) [7; 9] /\
      print_path_loop 3 h' (Some a) = Some (reverse [9] ++ [7]).
Proof.
  refine (add_move_shares true
            (mkHeap {[1%positive := mkPathNode 1 9 None]} 2%positive)
            [Some 1%positive] (Some 1%positive) 7 [9] _ _ _).
  - apply counted_one_move.
  - exists (mkPathNode 1 9 None). reflexivity.
  - apply (linked_node _ 1%positive (mkPathNode 1 9 None) []);
      [reflexivity|constructor].
Defined.

(** X9: on a heap with exact counts, extending a path and releasing the
    result at once leaves the allocated nodes and their counts as they
    were, whether the allocation succeeds or fails. *)
Theorem extend_release ok h owned p m :
  counted h owned -> valid h p ->
  exists h1 p1 h2,
    add_move_to_path ok h p m = Some (h1, p1) /\
    drop_reference_to_path h1 p1 = Some h2 /\
    cells h2 = cells h.
Proof.
  intros Hc Hv. destruct ok;
    [|exists h, None, h; repeat split; reflexivity].
  pose proof (counted_fresh _ _ Hc) as Hfresh.
  set (nb := nextblock h) in *.
  unfold add_move_to_path, malloc. fold nb.
  destruct p as [q|].
  - destruct Hv as [nq Hq].
    assert (Hne : nb <> q) by (intros <-; congruence).
    destruct (counted_references _ _ Hc q nq Hq) as [_ Hpos].
    cbn [inc_reference_to_path]. unfold load at 1. cbn [cells].
    rewrite lookup_insert_ne by assumption. fold (load h q). rewrite Hq.
    cbn [mbind option_bind]. eexists _, _, _. split; [reflexivity|].
    unfold drop_reference_to_path.
    set (h1 := store _ q _).
    assert (Hnb : load h1 nb = Some (mkPathNode 1 m (Some q))).
    { unfold h1. rewrite load_store_ne by congruence.
      unfold load. cbn. apply lookup_insert_eq. }
    rewrite (drop_rec_last _ h1 nb _ Hnb eq_refl). cbn [rest set_references move].
    assert (Hsz : size (cells h1) <> 0%nat)
      by (eapply map_size_ne_0_lookup_2; eexists; exact Hnb).
    destruct (size (cells h1)) as [|k]; [contradiction|].
    assert (Hq1 : load h1 q = Some (set_references nq (references nq + 1)))
      by apply load_store_eq.
    cbn [drop_rec]. rewrite load_store_ne by assumption.
    rewrite Hq1. cbn [mbind option_bind references set_references].
    replace (references nq + 1 - 1) with (references nq) by lia.
    destruct (Z.eqb_spec (references nq) 0) as [|_]; [lia|].
    split; [reflexivity|]. cbn [free store cells]. unfold h1. cbn [store cells].
    apply map_eq. intros k'.
    destruct (decide (k' = nb)) as [->|Hk1].
    { rewrite lookup_delete_eq. symmetry. exact Hfresh. }
    rewrite lookup_delete_ne by congruence.
    destruct (decide (k' = q)) as [->|Hk2].
    { rewrite lookup_insert_eq. fold (load h q). rewrite Hq.
      destruct nq; reflexivity. }
    rewrite !lookup_insert_ne by congruence. reflexivity.
  - cbn [inc_reference_to_path mbind option_bind].
    eexists _, _, _. split; [reflexivity|].
    unfold drop_reference_to_path.
    set (h1 := mkHeap _ _).
    assert (Hnb : load h1 nb = Some (mkPathNode 1 m None)).
    { unfold load, h1. cbn. apply lookup_insert_eq. }
    rewrite (drop_rec_last _ h1 nb _ Hnb eq_refl). cbn [rest set_references move].
    assert (Hsz : size (cells h1) <> 0%nat)
      by (eapply map_size_ne_0_lookup_2; eexists; exact Hnb).
    destruct (size (cells h1)) as [|k]; [contradiction|].
    cbn [drop_rec mbind option_bind]. split; [reflexivity|].
    cbn [free store cells]. unfold h1. cbn [cells].
    rewrite delete_insert_eq, delete_insert_eq. apply delete_id. exact Hfresh.
Qed.

(** The count of the node that is extended goes to 2 and back to 1. *)
Lemma extend_release_witness :
  exists h1 p1 h2,
    add_move_to_path true
      (mkHeap {[1%positive := mkPathNode 1 9 None]} 2%positive) (Some 1%positive) 7
    = Some (h1, p1) /\
    drop_reference_to_path h1 p1 = Some h2 /\
    cells h2 = cells (mkHeap {[1%positive := mkPathNode 1 9 None]} 2%positive).
Proof.
  apply (extend_release true
           (mkHeap {[1%positive := mkPathNode 1 9 None]} 2%positive)
           [Some 1%positive] (Some 1%positive) 7).
  - apply counted_one_move.
  - exists (mkPathNode 1 9 None). reflexivity.
Defined.

End MorePathFacts.

(** * More facts about the solver *)

Module MoreSolverFacts.
Import Grid Paths Queue Solver Simulation GridFacts PathFacts PureFacts
  SimulationFacts SolverFacts.

(** *** When the search finds nothing *)

Lemma layered_exhausted initial d visited :
  Pure.layered initial d visited [] [] ->
  forall n g, Pure.reach initial n g -> Pure.seen visited g.
Proof.
  intros Hlay n g Hr.
  assert (Hall : forall k, Pure.layered initial (d + k) visited [] []).
  { induction k as [|k IH]; [rewrite Nat.add_0_r; assumption|].
    rewrite Nat.add_succ_r. apply layered_shift. assumption. }
  apply (Pure.layered_below _ _ _ _ _ (Hall (S n)) n); [lia|assumption].
Qed.

Lemma search_nothing_layered memory initial fuel :
  never_fails memory ->
  initial <> winning_grid ->
  forall visited d now next k,
    Pure.layered initial d visited now next ->
    Pure.search memory fuel visited (now ++ next) k = Some [] ->
    forall n, ~ Pure.reach initial n winning_grid.
Proof.
  intros Hok Hinit. induction fuel as [|fuel IH];
    intros visited d now next k Hlay Hsearch; [discriminate|].
  assert (Hnorm : exists d' now' next',
            Pure.layered initial d' visited now' next' /\
            now' ++ next' = now ++ next /\ (now' = [] -> next' = [])).
  { destruct now as [|e now].
    - exists (S d), next, []. split; [apply layered_shift; assumption|].
      split; [apply app_nil_r|reflexivity].
    - exists d, (e :: now), next. split; [assumption|]. split; [reflexivity|discriminate]. }
  destruct Hnorm as (d' & now' & next' & Hlay' & Heq & Hempty).
  rewrite <-Heq in Hsearch. clear Hlay Heq d now next.
  destruct now' as [|[p g] now'].
  { rewrite (Hempty eq_refl) in Hlay'. intros n Hr.
    apply (Pure.layered_open _ _ _ _ _ Hlay').
    apply (layered_exhausted _ _ _ Hlay' n). assumption. }
  clear Hempty. cbn [app Pure.search] in Hsearch.
  assert (Hg : replay initial (reverse p) = g)
    by (apply (Pure.layered_replay _ _ _ _ _ Hlay'); left).
  destruct (outcome g) eqn:Ho.
  - apply outcome_won in Ho. subst g.
    destruct p as [|c p]; [cbn in Hg; congruence|discriminate].
  - assert (Hne : g <> winning_grid) by (intros Hw; apply outcome_won in Hw; congruence).
    assert (Hlay2 : Pure.layered initial d' (<[g := true]> visited) now' (next' ++ [])).
    { apply (layered_pop _ _ _ p g); try assumption.
      + intros e He. apply elem_of_nil in He. contradiction.
      + intros c g' [Hc _]. congruence. }
    rewrite <-(app_nil_r next') in Hsearch.
    exact (IH _ _ _ _ _ Hlay2 Hsearch).
  - assert (Hne : g <> winning_grid) by (intros Hw; apply outcome_won in Hw; congruence).
    rewrite <-app_assoc in Hsearch.
    refine (IH _ d' now' _ _ _ Hsearch).
    apply (layered_pop _ _ _ p g); [assumption..| |].
    + intros [p' g'] He. apply children_elem in He as (c & _ & _ & Hg' & _ & Hp' & _).
      cbn in Hg', Hp'. exists c. rewrite Hg', (Hp' Hok). reflexivity.
    + intros c g' (_ & Hs & ->).
      destruct (default false (<[g := true]> visited !! explode g c)) eqn:Hv.
      * left. exact Hv.
      * right. exists (c :: p). apply children_complete; [assumption| |assumption..].
        eapply in_all_cells; eassumption.
Qed.

Lemma search_nothing memory initial fuel :
  never_fails memory ->
  initial <> winning_grid ->
  Pure.shortest_winning_path memory fuel initial = Some [] ->
  forall ms, replay initial ms <> winning_grid.
Proof.
  intros Hok Hne Hs ms Hms.
  rewrite shortest_winning_path_plenty in Hs by assumption.
  destruct (reach_of_replay initial ms Hms) as (n & _ & Hr).
  apply (search_nothing_layered memory initial fuel Hok Hne ∅ 0%nat
           [([], initial)] [] 3%nat) in Hr;
    [assumption|apply layered_start; assumption|assumption].
Qed.

(** What the solver returns is what the search on lists finds. *)
Lemma solver_result memory initial fuel h p :
  representable initial ->
  shortest_winning_path memory fuel initial = Some (h, p) ->
  exists fuel0 l leaked,
    Pure.shortest_winning_path memory fuel0 initial = Some l /\
    linked h p l /\ counted h (p :: leaked) /\
    (never_fails memory -> leaked = []).
Proof.
  intros Hr Hs.
  destruct (search_ends memory initial Hr) as (fuel0 & l & Hpure).
  destruct (solver_follows memory fuel0 initial l Hr Hpure)
    as (h0 & p0 & leaked & Hs0 & Hl & Hc & Hleak).
  apply (shortest_winning_path_more _ _ (Nat.max fuel fuel0)) in Hs; [|lia].
  apply (shortest_winning_path_more _ _ (Nat.max fuel fuel0)) in Hs0; [|lia].
  assert (h0 = h /\ p0 = p) as [-> ->] by (split; congruence).
  eauto 10.
Qed.

(** X10: provided no allocation fails, for a representable grid other than
    the winning grid [NULL] is returned only when no sequence of moves
    wins. *)
Theorem null_means_unsolvable memory initial fuel h :
  never_fails memory ->
  representable initial -> initial <> winning_grid ->
  shortest_winning_path memory fuel initial = Some (h, None) ->
  forall ms, replay initial ms <> winning_grid.
Proof.
  intros Hok Hr Hne Hs.
  destruct (solver_result memory initial fuel h None Hr Hs)
    as (fuel0 & l & leaked & Hpure & Hl & _).
  inversion Hl; subst. eapply search_nothing; eassumption.
Qed.

Lemma null_means_unsolvable_witness :
  shortest_winning_path plenty 2 empty_grid = Some (empty_heap, None) /\
  forall ms, replay empty_grid ms <> winning_grid.
Proof.
  split; [reflexivity|].
  apply (null_means_unsolvable plenty empty_grid 2 empty_heap).
  - intros k. reflexivity.
  - unfold representable, empty_grid. lia.
  - discriminate.
  - reflexivity.
Defined.

(** X11: for a grid that is not representable, the error grid among them,
    once [visited], the queue and its first node are allocated the first
    iteration writes outside the [visited] array: the solver has no defined
    result. *)
Theorem unrepresentable_out_of_bounds memory g fuel :
  ~ representable g ->
  memory 0%nat = true -> memory 1%nat = true -> memory 2%nat = true ->
  visited_set ∅ g = None /\ shortest_winning_path memory fuel g = None.
Proof.
  intros Hg H0 H1 H2.
  assert (Hset : forall visited, visited_set visited g = None).
  { intros visited. unfold visited_set. rewrite decide_False; [reflexivity|exact Hg]. }
  split; [apply Hset|].
  unfold shortest_winning_path. rewrite H0, H1, H2.
  cbn [calloc new_queue push_front].
  destruct fuel as [|fuel]; [reflexivity|].
  cbn [search to_visit]. unfold pop_back.
  change (reverse [mkQueueNode new_path g]) with [mkQueueNode new_path g].
  cbn iota. unfold visit. cbn [Queue.grid Solver.visited]. rewrite Hset. reflexivity.
Qed.

Lemma unrepresentable_out_of_bounds_witness :
  visited_set ∅ error_grid = None /\
  shortest_winning_path plenty 100 error_grid = None.
Proof.
  apply unrepresentable_out_of_bounds; [|reflexivity..].
  unfold representable, error_grid. lia.
Defined.

(** X21: when the allocation of [visited], of the queue or of the queue's
    first node fails, the solver returns [NULL] at once, for every grid,
    having allocated no path and read no grid. *)
Theorem failed_setup_returns_null memory fuel initial :
  memory 0%nat = false \/ memory 1%nat = false \/ memory 2%nat = false ->
  shortest_winning_path memory (S fuel) initial = Some (empty_heap, None).
Proof.
  intros Hfail. unfold shortest_winning_path.
  destruct (memory 0%nat); [|reflexivity].
  destruct (memory 1%nat); [|reflexivity].
  destruct (memory 2%nat); [|reflexivity].
  destruct Hfail as [|[|]]; discriminate.
Qed.

(** A grid that one explosion wins, reported as if nothing won. *)
Lemma failed_setup_returns_null_witness :
  shortest_winning_path (fails_at 2) 1 341 = Some (empty_heap, None) /\
  replay 341 [5] = winning_grid.
Proof.
  split; [|reflexivity].
  apply (failed_setup_returns_null (fails_at 2) 0 341). right. right. reflexivity.
Defined.

(** *** Playing a game *)

(** The nodes of a linked path are distinct nodes of the heap. *)
Lemma linked_addresses h owned p l :
  counted h owned -> linked h p l ->
  exists addrs : list loc,
    length addrs = length l /\ NoDup addrs /\
    (forall a, a ∈ addrs -> is_Some (load h a)) /\
    (forall a top, a ∈ addrs -> p = Some top -> (a <= top)%positive).
Proof.
  intros Hc Hl. induction Hl as [|a n l Ha Hl (addrs & Hlen & Hnd & Hall & Htop)].
  - exists []. split; [reflexivity|]. split; [constructor|].
    split; [intros a Hin|intros a top Hin]; apply elem_of_nil in Hin; contradiction.
  - exists (a :: addrs). split; [cbn; congruence|].
    assert (Hbelow : forall b, b ∈ addrs -> (b < a)%positive).
    { intros b Hb. destruct (rest n) as [r|] eqn:Hr.
      - destruct (counted_rest _ _ Hc a n r Ha Hr) as [_ Hlt].
        specialize (Htop b r Hb eq_refl). lia.
      - inversion Hl; subst. destruct addrs; [|discriminate].
        apply elem_of_nil in Hb. contradiction. }
    split; [|split].
    + constructor; [|assumption]. intros Hin. specialize (Hbelow a Hin). lia.
    + intros b Hb. apply elem_of_cons in Hb as [->|Hb]; [eauto|auto].
    + intros b top Hb [= <-]. apply elem_of_cons in Hb as [->|Hb]; [lia|].
      specialize (Hbelow b Hb). lia.
Qed.

Lemma linked_length h owned p l :
  counted h owned -> linked h p l -> (length l <= size (cells h))%nat.
Proof.
  intros Hc Hl.
  destruct (linked_addresses h owned p l Hc Hl) as (addrs & <- & Hnd & Hall & _).
  rewrite <-size_dom.
  assert (Hsub : (list_to_set addrs : gset loc) ⊆ dom (cells h)).
  { intros a Ha. apply elem_of_list_to_set in Ha. apply elem_of_dom.
    exact (Hall a Ha). }
  apply subseteq_size in Hsub. rewrite size_list_to_set in Hsub by assumption. lia.
Qed.

Lemma print_more fuel fuel' h p out :
  (fuel <= fuel')%nat ->
  print_path_loop fuel h p = Some out -> print_path_loop fuel' h p = Some out.
Proof.
  revert fuel' p out. induction fuel as [|fuel IH]; intros fuel' p out Hle Hp;
    [discriminate|].
  destruct fuel' as [|fuel']; [lia|]. cbn [print_path_loop] in *.
  destruct p as [a|]; [|assumption].
  destruct (load h a) as [n|]; [|discriminate]. cbn [mbind option_bind] in *.
  destruct (print_path_loop fuel h (rest n)) as [out'|] eqn:Hrec; [|discriminate].
  rewrite (IH fuel' _ out'); [assumption|lia|assumption].
Qed.

Lemma counted_only_null h : counted h [None] -> cells h = ∅.
Proof. intros Hc. apply counted_nil_empty, counted_null. assumption. Qed.

(** [play] ends whichever allocations fail.  It first has the solver's
    result, then prints, then releases the path. *)
Lemma play_result memory initial :
  representable initial ->
  exists fuel l h p leaked h',
    Pure.shortest_winning_path memory fuel initial = Some l /\
    (forall fuel', (fuel <= fuel')%nat ->
       shortest_winning_path memory fuel' initial = Some (h, p)) /\
    linked h p l /\
    (p <> None -> print_path h p = Some (Moves (reverse l))) /\
    drop_reference_to_path h p = Some h' /\
    counted h' leaked /\
    (never_fails memory -> leaked = []).
Proof.
  intros Hr. destruct (search_ends memory initial Hr) as (fuel & l & Hpure).
  destruct (solver_follows memory fuel initial l Hr Hpure)
    as (h & p & leaked & Hs & Hl & Hc & Hleak).
  destruct (drop_counted h leaked p Hc) as (h' & Hd & Hc' & _).
  exists fuel, l, h, p, leaked, h'. split; [assumption|].
  split; [intros fuel' Hle; apply (shortest_winning_path_more _ fuel); assumption|].
  split; [assumption|]. split; [|auto].
  intros Hp. destruct p as [a|]; [|contradiction]. unfold print_path.
  rewrite (print_more (S (length l)) _ h (Some a) (reverse l));
    [reflexivity|pose proof (linked_length _ _ _ _ Hc Hl); lia|].
  apply linked_print. assumption.
Qed.

Lemma play_chatty memory initial :
  never_fails memory ->
  representable initial ->
  exists fuel printed h,
    (forall fuel', (fuel <= fuel')%nat ->
       play memory fuel' initial Chatty = Some (Some printed, h)) /\
    cells h = ∅ /\
    match printed with
    | Moves ms =>
        ms <> [] /\ replay initial ms = winning_grid /\
        forall ms', replay initial ms' = winning_grid ->
          (length ms <= length ms')%nat
    | NoWinningSequence =>
        initial = winning_grid \/ forall ms, replay initial ms <> winning_grid
    | MinusOne => False
    end.
Proof.
  intros Hok Hr.
  destruct (play_result memory initial Hr)
    as (fuel & l & h & p & leaked & h' & Hpure & Hs & Hl & Hprint & Hd & Hc' & Hleak).
  rewrite (Hleak Hok) in Hc'.
  pose proof (counted_nil_empty h' Hc') as Hempty.
  destruct p as [a|].
  - assert (Hne : l <> []) by (intros ->; inversion Hl).
    destruct (search_shortest memory initial fuel l Hok Hpure Hne) as [Hwin Hmin].
    exists fuel, (Moves (reverse l)), h'. split; [|split; [assumption|]].
    + intros fuel' Hle. unfold play. rewrite (Hs fuel' Hle).
      cbn [mbind option_bind]. rewrite Hprint by discriminate.
      cbn [fmap option_fmap option_map mbind option_bind]. rewrite Hd. reflexivity.
    + split; [intros Hnil; apply Hne; rewrite <-(reverse_involutive l), Hnil; reflexivity|].
      split; [assumption|]. intros ms' Hms'. rewrite length_reverse. auto.
  - assert (l = []) as -> by (inversion Hl; reflexivity).
    exists fuel, NoWinningSequence, h'. split; [|split; [assumption|]].
    + intros fuel' Hle. unfold play. rewrite (Hs fuel' Hle).
      cbn [mbind option_bind]. rewrite Hd. reflexivity.
    + destruct (decide (initial = winning_grid)) as [|Hne]; [auto|right].
      eapply search_nothing; eassumption.
Qed.

(** X12: provided no allocation fails, in chatty mode [play] on a
    representable grid prints the moves of a shortest winning sequence in
    play order when the solver returns a path, prints that there is no
    winning sequence when the grid is the winning grid or no sequence of
    moves wins, and leaves no path node allocated. *)
Theorem play_prints_shortest memory initial :
  never_fails memory ->
  representable initial ->
  exists fuel printed h,
    (forall fuel', (fuel <= fuel')%nat ->
       play memory fuel' initial Chatty = Some (Some printed, h)) /\
    cells h = ∅ /\
    match printed with
    | Moves ms =>
        ms <> [] /\ replay initial ms = winning_grid /\
        forall ms', replay initial ms' = winning_grid ->
          (length ms <= length ms')%nat
    | NoWinningSequence =>
        initial = winning_grid \/ forall ms, replay initial ms <> winning_grid
    | MinusOne => False
    end.
Proof. exact (play_chatty memory initial). Qed.

Lemma play_prints_shortest_witness :
  exists fuel printed h,
    (forall fuel', (fuel <= fuel')%nat ->
       play plenty fuel' 341 Chatty = Some (Some printed, h)) /\
    cells h = ∅ /\
    match printed with
    | Moves ms =>
        ms <> [] /\ replay 341 ms = winning_grid /\
        forall ms', replay 341 ms' = winning_grid -> (length ms <= length ms')%nat
    | NoWinningSequence =>
        341 = winning_grid \/ forall ms, replay 341 ms <> winning_grid
    | MinusOne => False
    end.
Proof.
  apply (play_prints_shortest plenty 341).
  - intros k. reflexivity.
  - unfold representable. lia.
Defined.

(** X13: in either mode and whichever allocations fail, [play] on a
    representable grid ends and prints only in chatty mode; the counts of
    the path nodes it leaves allocated are exact for the paths that leaked,
    and provided no allocation fails it leaves none allocated. *)
Theorem play_frees_everything memory initial mode :
  representable initial ->
  exists fuel printed h leaked,
    play memory fuel initial mode = Some (printed, h) /\
    (printed = None <-> mode = Silent) /\
    counted h leaked /\
    (never_fails memory -> leaked = [] /\ cells h = ∅).
Proof.
  intros Hr.
  destruct (play_result memory initial Hr)
    as (fuel & l & h & p & leaked & h' & Hpure & Hs & Hl & Hprint & Hd & Hc' & Hleak).
  assert (Hfree : never_fails memory -> leaked = [] /\ cells h' = ∅).
  { intros Hok. split; [auto|]. rewrite (Hleak Hok) in Hc'.
    apply counted_nil_empty. assumption. }
  destruct mode.
  - destruct p as [a|].
    + exists fuel, (Some (Moves (reverse l))), h', leaked. split.
      { unfold play. rewrite (Hs fuel (Nat.le_refl _)). cbn [mbind option_bind].
        rewrite Hprint by discriminate.
        cbn [fmap option_fmap option_map mbind option_bind]. rewrite Hd. reflexivity. }
      split; [split; discriminate|auto].
    + exists fuel, (Some NoWinningSequence), h', leaked. split.
      { unfold play. rewrite (Hs fuel (Nat.le_refl _)). cbn [mbind option_bind].
        rewrite Hd. reflexivity. }
      split; [split; discriminate|auto].
  - exists fuel, None, h', leaked. split.
    { unfold play. rewrite (Hs fuel (Nat.le_refl _)). cbn [mbind option_bind].
      rewrite Hd. reflexivity. }
    split; [split; reflexivity|auto].
Qed.

(** The queue node of one of the first grids reached fails to be
    allocated. *)
Lemma play_frees_everything_witness :
  exists fuel printed h leaked,
    play (fails_at 4) fuel 149 Silent = Some (printed, h) /\
    (printed = None <-> Silent = Silent) /\
    counted h leaked /\
    (never_fails (fails_at 4) -> leaked = [] /\ cells h = ∅).
Proof.
  apply (play_frees_everything (fails_at 4) 149 Silent). unfold representable. lia.
Defined.

(** *** The queue and the loop *)

Lemma free_nodes_releases (nodes : list QueueNode) h owned :
  counted h ((path <$> nodes) ++ owned) ->
  exists h', free_nodes h nodes = Some h' /\ counted h' owned /\
    forall p l, p ∈ owned -> linked h p l -> linked h' p l.
Proof.
  revert h. induction nodes as [|node nodes IH]; intros h Hc; cbn [free_nodes].
  - eauto.
  - unfold free_queue_node. cbn [fmap list_fmap app] in Hc.
    destruct (drop_counted h _ (path node) Hc) as (h1 & -> & Hc1 & Hag & _).
    cbn [mbind option_bind].
    destruct (IH h1 Hc1) as (h' & Hf & Hc' & Hkeep).
    exists h'. split; [assumption|]. split; [assumption|].
    intros p l Hp Hl. apply Hkeep; [assumption|].
    eapply linked_counted; eauto.
    eapply counted_valid; [eassumption|]. apply elem_of_app. auto.
Qed.

(** X14: [free_queue] gives back exactly the references the queued nodes
    hold: the counts stay exact for the other owners, whose paths keep their
    moves, and when there is no other owner no path node is left. *)
Theorem free_queue_releases h queue owned :
  counted h ((path <$> queue) ++ owned) ->
  exists h', free_queue h queue = Some h' /\ counted h' owned /\
    (forall p l, p ∈ owned -> linked h p l -> linked h' p l) /\
    (owned = [] -> cells h' = ∅).
Proof.
  intros Hc. unfold free_queue.
  destruct (free_nodes_releases (reverse queue) h owned) as (h' & Hf & Hc' & Hkeep).
  { eapply counted_perm; [|exact Hc]. apply Permutation_app_tail.
    rewrite fmap_reverse. symmetry. apply reverse_Permutation. }
  exists h'. split; [assumption|]. split; [assumption|]. split; [assumption|].
  intros ->. apply counted_nil_empty. assumption.
Qed.

Lemma free_queue_releases_witness :
  exists h',
    free_queue (mkHeap {[1%positive := mkPathNode 1 6 None]} 2%positive)
      [mkQueueNode (Some 1%positive) 67] = Some h' /\
    counted h' [] /\
    (forall p l, p ∈ ([] : list Path) ->
       linked (mkHeap {[1%positive := mkPathNode 1 6 None]} 2%positive) p l ->
       linked h' p l) /\
    (([] : list Path) = [] -> cells h' = ∅).
Proof.
  apply (free_queue_releases (mkHeap {[1%positive := mkPathNode 1 6 None]} 2%positive)
           [mkQueueNode (Some 1%positive) 67] []).
  destruct (add_move_counted empty_heap [] None 6 counted_empty I)
    as (h & Hadd & Hc & _).
  assert (h = mkHeap {[1%positive := mkPathNode 1 6 None]} 2%positive) as <-.
  { assert (Hval : add_move_to_path true empty_heap None 6
              = Some (mkHeap {[1%positive := mkPathNode 1 6 None]} 2%positive,
                      Some 1%positive)) by reflexivity.
    congruence. }
  exact Hc.
Defined.

(** X15: an iteration of the loop marks the grid of the node it took, keeps
    the marks there were, and adds to the front of the queue only nodes
    whose grids are not marked: a grid is never put in the queue once it is
    marked.  This holds whichever allocations fail. *)
Theorem iteration_enqueues_unmarked memory st node queue st' :
  visit memory st node queue = Some st' ->
  (forall g, Pure.seen (visited st) g -> Pure.seen (visited st') g) /\
  Pure.seen (visited st') (grid node) /\
  exists added, to_visit st' = added ++ queue /\
    forall n, n ∈ added -> ~ Pure.seen (visited st') (grid n).
Proof. apply visit_enqueues_unvisited. Qed.

Lemma iteration_enqueues_unmarked_witness :
  (forall g, Pure.seen (visited (initial_state plenty empty_heap 10)) g ->
     Pure.seen {[10 := true]} g) /\
  Pure.seen {[10 := true]} 10 /\
  exists added,
    [mkQueueNode (Some 2%positive) 13; mkQueueNode (Some 1%positive) 67]
    = added ++ [] /\
    forall n, n ∈ added -> ~ Pure.seen {[10 := true]} (grid n).
Proof.
  exact (iteration_enqueues_unmarked plenty (initial_state plenty empty_heap 10)
           (mkQueueNode None 10) []
           (mkState (mkHeap (<[2%positive := mkPathNode 1 8 None]>
                               {[1%positive := mkPathNode 1 6 None]}) 3%positive)
                    {[10 := true]}
                    [mkQueueNode (Some 2%positive) 13;
                     mkQueueNode (Some 1%positive) 67]
                    None 7)
           eq_refl).
Defined.

End MoreSolverFacts.

(** * The linked queue implements the list *)

Module LinkedQueueFacts.
Import Grid Paths LinkedQueue.

Implicit Types (m : Nodes) (queue : Queue) (q : Queue.Queue).

Lemma chain_null_inv m l : chain m None l -> l = [].
Proof. inversion 1. reflexivity. Qed.

(** X17: [pop_back] on a linked queue that stands for a list returns [NULL]
    and changes nothing when the list is empty, and otherwise returns the
    node that stores the last element and leaves a queue that stands for the
    elements before it. *)
Theorem pop_back_refines m queue q :
  represents m queue q ->
  match Queue.pop_back q with
  | None => pop_back m queue = Some (queue, None)
  | Some (e, q') =>
      exists queue' a,
        pop_back m queue = Some (queue', Some a) /\
        stores m a e /\ represents m queue' q'
  end.
Proof.
  intros (l & Hc & Hf & Hlt & Hh). unfold Queue.pop_back.
  destruct (reverse q) as [|e r] eqn:Hrev.
  - apply Forall2_nil_inv_r in Hh. subst l. inversion Hc as [Hlast|].
    unfold pop_back. rewrite <-Hlast. reflexivity.
  - apply Forall2_cons_inv_r in Hh as (a & l' & Ha & Hh & ->).
    inversion Hc as [|a' n l'' Hn Hc' Hlast]; subst.
    unfold pop_back. rewrite <-Hlast, Hn. cbn [mbind option_bind last first].
    eexists _, a. split; [reflexivity|]. split; [assumption|].
    exists l'. rewrite reverse_involutive.
    apply Forall_cons in Hlt as [_ Hlt].
    destruct (prev n) as [b|] eqn:Hprev.
    + cbn [last first]. split; [assumption|]. split; [|auto].
      rewrite Hf. inversion Hc'; subst. reflexivity.
    + cbn [last first]. apply chain_null_inv in Hc'. subst l'.
      split; [constructor|]. split; [reflexivity|auto].
Qed.

Lemma chain_frame m m' from l :
  chain m from l ->
  (forall a, a ∈ l -> nodes m' !! a = nodes m !! a) ->
  chain m' from l.
Proof.
  induction 1 as [|a n l Hn Hc IH]; intros Hsame; [constructor|].
  apply chain_node with n.
  - rewrite Hsame; [assumption|left].
  - apply IH. intros b Hb. apply Hsame. right. assumption.
Qed.

Lemma chain_det m from l1 l2 : chain m from l1 -> chain m from l2 -> l1 = l2.
Proof.
  intros Hc. revert l2.
  induction Hc as [|a n l Hn Hc IH]; intros l2 H2.
  - inversion H2. reflexivity.
  - inversion H2 as [|a' n' l' Hn' Hc']; subst.
    assert (n' = n) by congruence. subst n'.
    f_equal. apply IH. assumption.
Qed.

Lemma chain_suffix m from l a :
  chain m from l -> a ∈ l ->
  exists l1 l2, l = l1 ++ a :: l2 /\ chain m (Some a) (a :: l2).
Proof.
  induction 1 as [|b n l Hn Hc IH]; intros Ha.
  - apply elem_of_nil in Ha as [].
  - apply elem_of_cons in Ha as [->|Ha].
    + exists [], l. split; [reflexivity|]. apply chain_node with n; assumption.
    + destruct (IH Ha) as (l1 & l2 & -> & Hs).
      exists (b :: l1), l2. split; [reflexivity|assumption].
Qed.

Lemma chain_notin m a l : chain m (Some a) (a :: l) -> a ∉ l.
Proof.
  intros Hc Ha. inversion Hc as [|a' n l' Hn Hc']; subst.
  destruct (chain_suffix _ _ _ _ Hc' Ha) as (l1 & l2 & Hl & Hs).
  pose proof (chain_det _ _ _ _ Hc Hs) as Heq.
  apply (f_equal length) in Heq. rewrite Hl in Heq.
  cbn [length] in Heq. rewrite length_app in Heq. cbn [length] in Heq.
  lia.
Qed.

Lemma stores_transfer m m' l es :
  Forall (fun a => (a < nextnode m)%positive) l ->
  (forall a e, (a < nextnode m)%positive -> stores m a e -> stores m' a e) ->
  Forall2 (stores m) l es -> Forall2 (stores m') l es.
Proof.
  intros Hlt Hold Hh. induction Hh as [|a e l es Ha Hh IH]; [constructor|].
  apply Forall_cons in Hlt as [Hlt1 Hlt]. constructor; auto.
Qed.

(** The node that ends the chain is the one without a predecessor. *)
Lemma chain_last m from l f :
  chain m from l -> list.last l = Some f ->
  exists n, nodes m !! f = Some n /\ prev n = None.
Proof.
  induction 1 as [|a n l Hn Hc IH]; intros Hl; [discriminate|].
  destruct l as [|b l].
  - injection Hl as <-. exists n. split; [assumption|].
    inversion Hc. reflexivity.
  - apply IH. exact Hl.
Qed.

Lemma chain_push m from l f nf new nn nx :
  chain m from l ->
  list.last l = Some f ->
  Forall (fun a => (a < new)%positive) l ->
  nodes m !! f = Some nf ->
  prev nn = None ->
  chain (mkNodes (<[f := set_prev nf (Some new)]> (<[new := nn]> (nodes m))) nx)
        from (l ++ [new]).
Proof.
  intros Hc Hl Hlt Hf Hnn.
  destruct (chain_last _ _ _ _ Hc Hl) as (nf' & Hf' & Hprev).
  assert (nf' = nf) by congruence. subst nf'.
  assert (Hnew : f <> new).
  { apply last_Some_elem_of in Hl.
    rewrite Forall_forall in Hlt. apply Hlt in Hl. lia. }
  induction Hc as [|a n l Hn Hc IH]; [discriminate|].
  apply Forall_cons in Hlt as [Ha Hlt].
  destruct l as [|b l].
  - injection Hl as <-. assert (n = nf) by congruence. subst n.
    cbn [app]. eapply chain_node.
    + cbn [nodes]. apply lookup_insert_eq.
    + cbn [set_prev prev]. eapply chain_node.
      * cbn [nodes]. rewrite lookup_insert_ne by assumption.
        apply lookup_insert_eq.
      * rewrite Hnn. constructor.
  - assert (Haf : a <> f).
    { intros ->. assert (n = nf) by congruence. subst n.
      rewrite Hprev in Hc. inversion Hc. }
    cbn [app]. apply chain_node with n.
    + cbn [nodes]. rewrite lookup_insert_ne by congruence.
      rewrite lookup_insert_ne by lia. assumption.
    + apply IH; assumption.
Qed.

Lemma pop_back_refines_witness :
  exists queue' a,
    pop_back
      (mkNodes (<[2%positive := mkQueueNode None 11 (Some 1%positive) None]>
                  {[1%positive := mkQueueNode None 10 None (Some 2%positive)]})
               3%positive)
      (mkQueue (Some 2%positive) (Some 1%positive))
    = Some (queue', Some a) /\
    stores (mkNodes (<[2%positive := mkQueueNode None 11 (Some 1%positive) None]>
                      {[1%positive := mkQueueNode None 10 None (Some 2%positive)]})
                   3%positive) a (Queue.mkQueueNode None 10) /\
    represents
      (mkNodes (<[2%positive := mkQueueNode None 11 (Some 1%positive) None]>
                  {[1%positive := mkQueueNode None 10 None (Some 2%positive)]})
               3%positive)
      queue' [Queue.mkQueueNode None 11].
Proof.
  apply (pop_back_refines
           (mkNodes (<[2%positive := mkQueueNode None 11 (Some 1%positive) None]>
                       {[1%positive := mkQueueNode None 10 None (Some 2%positive)]})
                    3%positive)
           (mkQueue (Some 2%positive) (Some 1%positive))
           [Queue.mkQueueNode None 11; Queue.mkQueueNode None 10]).
  exists [1%positive; 2%positive]. split.
  { eapply chain_node; [reflexivity|].
    eapply chain_node; [reflexivity|]. constructor. }
  split; [reflexivity|]. split.
  { repeat constructor. }
  repeat constructor; eexists; (split; [reflexivity|split; reflexivity]).
Defined.

(** X18: [push_front] on a linked queue that stands for a list, when its
    allocation succeeds, allocates one node and leaves a queue that stands
    for the list with the new element in front; when its allocation fails it
    leaves the queue and the nodes as they are.  Either way it implements
    [push_front] on the list, and the nodes there were keep their path and
    grid. *)
Theorem push_front_refines ok m queue q p g :
  represents m queue q ->
  exists m' queue',
    push_front ok m queue p g = Some (m', queue') /\
    represents m' queue' (Queue.push_front ok q p g) /\
    nextnode m' = (if ok then Pos.succ (nextnode m) else nextnode m) /\
    forall a e, (a < nextnode m)%positive -> stores m a e -> stores m' a e.
Proof.
  intros Hrep. destruct ok; [|exists m, queue; auto].
  destruct Hrep as (l & Hc & Hf & Hlt & Hh). unfold push_front.
  set (new := nextnode m).
  set (nn := mkQueueNode p g (first queue) None).
  assert (Hkeep : forall mp nx a e,
    (forall (b : loc) n, (b < new)%positive -> nodes m !! b = Some n ->
       exists n', mp !! b = Some n' /\ path n' = path n /\ grid n' = grid n) ->
    (a < new)%positive -> stores m a e -> stores (mkNodes mp nx) a e).
  { intros mp nx a e Hmp Ha (n & Hn & Hp & Hg).
    destruct (Hmp a n Ha Hn) as (n' & Hn' & Hp' & Hg').
    exists n'. cbn [nodes]. split; [assumption|]. split; congruence. }
  destruct l as [|a0 l0] eqn:Hl.
  - cbn [list.last] in Hf. rewrite Hf. inversion Hc as [Hlast|].
    cbn [mbind option_bind last first].
    eexists _, _. split; [reflexivity|].
    assert (Hold : forall a e, (a < new)%positive -> stores m a e ->
      stores (mkNodes (<[new:=nn]> (nodes m)) (Pos.succ new)) a e).
    { intros a e Ha. apply Hkeep; [|assumption].
      intros b n Hb Hn. exists n. rewrite lookup_insert_ne by lia. auto. }
    split; [|split; [reflexivity|exact Hold]].
    exists [new]. cbn [last first]. split.
    { eapply chain_node; [apply lookup_insert_eq|constructor]. }
    split; [reflexivity|]. split.
    { constructor; [cbn [nextnode]; lia|constructor]. }
    apply Forall2_nil_inv_l in Hh.
    unfold Queue.push_front. rewrite reverse_cons, Hh. cbn [app].
    constructor; [|constructor].
    exists nn. cbn [nodes]. rewrite lookup_insert_eq. auto.
  - rewrite <-Hl in *.
    assert (Hsome : exists f, list.last l = Some f).
    { destruct (list.last l) eqn:E; [eauto|].
      apply last_None in E. congruence. }
    destruct Hsome as [f Hlf]. rewrite Hlf in Hf.
    destruct (chain_last _ _ _ _ Hc Hlf) as (nf & Hnf & Hprev).
    assert (Hfnew : f <> new).
    { apply last_Some_elem_of in Hlf.
      rewrite Forall_forall in Hlt. apply Hlt in Hlf. fold new in Hlf. lia. }
    rewrite Hf. cbn [nodes mbind option_bind].
    rewrite lookup_insert_ne by congruence. rewrite Hnf.
    cbn [mbind option_bind nodes nextnode first last].
    assert (Hsl : exists b, last queue = Some b).
    { inversion Hc; subst; [congruence|eauto]. }
    destruct Hsl as [b Hb]. rewrite Hb.
    eexists _, _. split; [reflexivity|].
    assert (Hold : forall a e, (a < new)%positive -> stores m a e ->
      stores (mkNodes (<[f:=set_prev nf (Some new)]> (<[new:=nn]> (nodes m)))
                     (Pos.succ new)) a e).
    { intros a e Ha. apply Hkeep; [|assumption].
      intros c n Hc' Hn. destruct (decide (c = f)) as [->|Hne].
      - exists (set_prev nf (Some new)). rewrite lookup_insert_eq.
        assert (n = nf) by congruence. subst n. auto.
      - exists n. rewrite lookup_insert_ne by congruence.
        rewrite lookup_insert_ne by lia. auto. }
    split; [|split; [reflexivity|exact Hold]].
    exists (l ++ [new]). cbn [last first]. split.
    { rewrite <-Hb. apply chain_push; auto. }
    split; [rewrite last_snoc; reflexivity|]. split.
    { apply Forall_app. split.
      - eapply Forall_impl; [exact Hlt|]. cbn [nextnode]. intros; lia.
      - constructor; [cbn [nextnode]; lia|constructor]. }
    unfold Queue.push_front. rewrite reverse_cons.
    apply Forall2_app.
    + eapply stores_transfer; [exact Hlt|exact Hold|exact Hh].
    + constructor; [|constructor].
      exists nn. cbn [nodes]. rewrite lookup_insert_ne by congruence.
      rewrite lookup_insert_eq. auto.
Qed.

Lemma push_front_refines_witness :
  exists m' queue',
    push_front true
      (mkNodes (<[2%positive := mkQueueNode None 11 (Some 1%positive) None]>
                  {[1%positive := mkQueueNode None 10 None (Some 2%positive)]})
               3%positive)
      (mkQueue (Some 2%positive) (Some 1%positive)) None 12
    = Some (m', queue') /\
    represents m' queue'
      (Queue.push_front true [Queue.mkQueueNode None 11; Queue.mkQueueNode None 10]
                        None 12) /\
    nextnode m' = 4%positive /\
    forall a e, (a < 3)%positive ->
      stores (mkNodes (<[2%positive := mkQueueNode None 11 (Some 1%positive) None]>
                        {[1%positive := mkQueueNode None 10 None (Some 2%positive)]})
                     3%positive) a e ->
      stores m' a e.
Proof.
  apply (push_front_refines true
           (mkNodes (<[2%positive := mkQueueNode None 11 (Some 1%positive) None]>
                       {[1%positive := mkQueueNode None 10 None (Some 2%positive)]})
                    3%positive)
           (mkQueue (Some 2%positive) (Some 1%positive))
           [Queue.mkQueueNode None 11; Queue.mkQueueNode None 10] None 12).
  exists [1%positive; 2%positive]. split.
  { eapply chain_node; [reflexivity|].
    eapply chain_node; [reflexivity|]. constructor. }
  split; [reflexivity|]. split.
  { repeat constructor. }
  repeat constructor; eexists; (split; [reflexivity|split; reflexivity]).
Defined.

Lemma chain_delete m a n l nx :
  chain m (Some a) (a :: l) ->
  nodes m !! a = Some n ->
  chain (mkNodes (delete a (nodes m)) nx) (prev n) l.
Proof.
  intros Hc Hn. pose proof (chain_notin _ _ _ Hc) as Hnot.
  inversion Hc as [|a' n' l' Hn' Hc']; subst.
  assert (n' = n) by congruence. subst n'.
  eapply chain_frame; [exact Hc'|].
  intros b Hb. cbn [nodes]. apply lookup_delete_ne. congruence.
Qed.

Lemma chain_length m : forall l from,
  chain m from l -> (length l <= size (nodes m))%nat.
Proof.
  intros l. revert m. induction l as [|a l IH]; intros m from Hc.
  - apply Nat.le_0_l.
  - inversion Hc as [|a' n l' Hn Hc']; subst.
    pose proof (chain_delete _ _ _ _ (nextnode m) Hc Hn) as Hd.
    apply IH in Hd. cbn [nodes] in Hd.
    rewrite map_size_delete_Some in Hd by eauto.
    assert (size (nodes m) <> 0%nat).
    { intros Hz. apply map_size_empty_inv in Hz.
      rewrite Hz, lookup_empty in Hn. discriminate. }
    cbn [length]. lia.
Qed.

Lemma stores_frame m m' l es :
  (forall a, a ∈ l -> nodes m' !! a = nodes m !! a) ->
  Forall2 (stores m) l es -> Forall2 (stores m') l es.
Proof.
  intros Hsame Hh. induction Hh as [|a e l es Ha Hh IH]; [constructor|].
  constructor.
  - destruct Ha as (n & Hn & Hpg). exists n.
    rewrite Hsame by left. auto.
  - apply IH. intros b Hb. apply Hsame. right. assumption.
Qed.

Lemma free_queue_loop_refines : forall l es fuel h m queue h',
  chain m (last queue) l ->
  Forall2 (stores m) l es ->
  Queue.free_nodes h es = Some h' ->
  (length l < fuel)%nat ->
  exists m',
    free_queue_loop fuel h m queue = Some (h', m') /\
    nodes m' ⊆ nodes m /\
    (size (nodes m') + length l = size (nodes m))%nat /\
    Forall (fun a => nodes m' !! a = None) l.
Proof.
  induction l as [|a l IH]; intros es fuel h m queue h' Hc Hh Hfree Hfuel.
  - apply Forall2_nil_inv_l in Hh. subst es.
    cbn [Queue.free_nodes] in Hfree. injection Hfree as <-.
    inversion Hc as [Hlast|].
    destruct fuel as [|fuel]; [inversion Hfuel|].
    cbn [free_queue_loop]. unfold pop_back. rewrite <-Hlast.
    cbn [mbind option_bind]. exists m.
    split; [reflexivity|]. split; [reflexivity|].
    split; [cbn [length]; lia|constructor].
  - apply Forall2_cons_inv_l in Hh as (e & es' & Ha & Hh & ->).
    cbn [Queue.free_nodes] in Hfree. unfold Queue.free_queue_node in Hfree.
    destruct (drop_reference_to_path h (Queue.path e)) as [h1|] eqn:Hdrop;
      [|discriminate].
    cbn [mbind option_bind] in Hfree.
    inversion Hc as [|a' n l' Hn Hc' Hlast]; subst.
    destruct Ha as (n' & Hn' & Hp & _).
    assert (n' = n) by congruence. subst n'.
    destruct fuel as [|fuel]; [inversion Hfuel|].
    cbn [length] in Hfuel. apply Nat.succ_lt_mono in Hfuel.
    rewrite <-Hlast in Hc.
    pose proof (chain_delete _ _ _ _ (nextnode m) Hc Hn) as Hd.
    pose proof (chain_notin _ _ _ Hc) as Hnot.
    assert (Hh1 : Forall2 (stores (mkNodes (delete a (nodes m)) (nextnode m))) l es').
    { eapply stores_frame; [|exact Hh].
      intros b Hb. cbn [nodes]. apply lookup_delete_ne. congruence. }
    assert (Hpop : exists queue1,
      pop_back m queue = Some (queue1, Some a) /\ last queue1 = prev n).
    { unfold pop_back. rewrite <-Hlast, Hn. cbn [mbind option_bind last].
      destruct (prev n); eexists; split; reflexivity. }
    destruct Hpop as (queue1 & Hpop & Hlast1).
    rewrite <-Hlast1 in Hd.
    destruct (IH es' fuel h1 _ queue1 h' Hd Hh1 Hfree Hfuel)
      as (m' & Hloop & Hsub & Hsize & Hgone).
    exists m'. cbn [free_queue_loop]. rewrite Hpop.
    cbn [mbind option_bind]. unfold free_queue_node.
    rewrite Hn. cbn [mbind option_bind]. rewrite Hp, Hdrop.
    cbn [mbind option_bind]. split; [exact Hloop|].
    cbn [nodes] in Hsub, Hsize.
    split; [etrans; [exact Hsub|apply delete_subseteq]|].
    rewrite map_size_delete_Some in Hsize by eauto.
    assert (size (nodes m) <> 0%nat).
    { intros Hz. apply map_size_empty_inv in Hz.
      rewrite Hz, lookup_empty in Hn. discriminate. }
    split; [cbn [length]; lia|].
    constructor; [|exact Hgone].
    eapply lookup_weaken_None; [|exact Hsub].
    cbn [nodes]. apply lookup_delete_eq.
Qed.

(** X19: [free_queue] on a linked queue that stands for a list pops and
    frees every node of the queue and no other, and leaves the paths as
    freeing the list's nodes from the last to the first does. *)
Theorem free_queue_refines h m queue q h' :
  represents m queue q ->
  Queue.free_queue h q = Some h' ->
  exists m',
    free_queue h m queue = Some (h', m') /\
    nodes m' ⊆ nodes m /\
    (size (nodes m') + length q = size (nodes m))%nat.
Proof.
  intros (l & Hc & _ & _ & Hh) Hfree. unfold Queue.free_queue in Hfree.
  pose proof (chain_length _ _ _ Hc) as Hlen.
  destruct (free_queue_loop_refines l (reverse q) (S (size (nodes m)))
              h m queue h' Hc Hh Hfree) as (m' & Hloop & Hsub & Hsize & _).
  { apply Nat.lt_succ_r. exact Hlen. }
  exists m'. split; [exact Hloop|]. split; [exact Hsub|].
  apply Forall2_length in Hh. rewrite length_reverse in Hh.
  rewrite <-Hh. exact Hsize.
Qed.

Lemma free_queue_refines_witness :
  exists m',
    free_queue
      (mkHeap {[1%positive := mkPathNode 1 9 None]} 2%positive)
      (mkNodes (<[2%positive := mkQueueNode None 11 (Some 1%positive) None]>
                  {[1%positive :=
                      mkQueueNode (Some 1%positive) 10 None (Some 2%positive)]})
               3%positive)
      (mkQueue (Some 2%positive) (Some 1%positive))
    = Some (mkHeap ∅ 2%positive, m') /\
    nodes m' ⊆
      <[2%positive := mkQueueNode None 11 (Some 1%positive) None]>
        {[1%positive := mkQueueNode (Some 1%positive) 10 None (Some 2%positive)]} /\
    (size (nodes m') +
     length [Queue.mkQueueNode None 11%Z; Queue.mkQueueNode (Some 1%positive) 10%Z]
     = size (<[2%positive := mkQueueNode None 11%Z (Some 1%positive) None]>
               ({[1%positive :=
                    mkQueueNode (Some 1%positive) 10%Z None (Some 2%positive)]}
                : gmap loc QueueNode)))%nat.
Proof.
  refine (free_queue_refines
           (mkHeap {[1%positive := mkPathNode 1 9 None]} 2%positive)
           (mkNodes (<[2%positive := mkQueueNode None 11 (Some 1%positive) None]>
                       {[1%positive :=
                           mkQueueNode (Some 1%positive) 10 None (Some 2%positive)]})
                    3%positive)
           (mkQueue (Some 2%positive) (Some 1%positive))
           [Queue.mkQueueNode None 11; Queue.mkQueueNode (Some 1%positive) 10]
           (mkHeap ∅ 2%positive) _ _).
  - exists [1%positive; 2%positive]. split.
    { eapply chain_node; [reflexivity|].
      eapply chain_node; [reflexivity|]. constructor. }
    split; [reflexivity|]. split.
    { repeat constructor. }
    repeat constructor; eexists; (split; [reflexivity|split; reflexivity]).
  - reflexivity.
Defined.

Lemma push_front_linked m queue l p g :
  chain m (last queue) l ->
  first queue = list.last l ->
  Forall (fun a => (a < nextnode m)%positive) l ->
  exists m' queue',
    push_front true m queue p g = Some (m', queue') /\
    chain m' (last queue') (l ++ [nextnode m]) /\
    first queue' = Some (nextnode m) /\
    nextnode m' = Pos.succ (nextnode m) /\
    (forall a : loc, a ∉ l -> a <> nextnode m -> nodes m' !! a = nodes m !! a).
Proof.
  intros Hc Hf Hlt. unfold push_front.
  set (new := nextnode m).
  set (nn := mkQueueNode p g (first queue) None).
  destruct (list.last l) as [f|] eqn:Hlf.
  - destruct (chain_last _ _ _ _ Hc Hlf) as (nf & Hnf & Hprev).
    assert (Hin : f ∈ l) by (apply last_Some_elem_of; assumption).
    assert (Hfnew : f <> new).
    { rewrite Forall_forall in Hlt. apply Hlt in Hin. fold new in Hin. lia. }
    rewrite Hf. cbn [nodes mbind option_bind].
    rewrite lookup_insert_ne by congruence. rewrite Hnf.
    cbn [mbind option_bind nodes nextnode first last].
    assert (Hsl : exists b, last queue = Some b).
    { inversion Hc; subst; [discriminate|eauto]. }
    destruct Hsl as [b Hb]. rewrite Hb.
    eexists _, _. split; [reflexivity|]. cbn [last first nextnode nodes].
    split; [rewrite <-Hb; apply chain_push; auto|].
    split; [reflexivity|]. split; [reflexivity|].
    intros a Ha Hnew. rewrite lookup_insert_ne by (intros <-; contradiction).
    apply lookup_insert_ne. congruence.
  - apply last_None in Hlf. subst l. inversion Hc as [Hlast|].
    rewrite Hf. cbn [mbind option_bind last first nextnode nodes app].
    eexists _, _. split; [reflexivity|]. cbn [last first nextnode nodes].
    split; [eapply chain_node; [apply lookup_insert_eq|constructor]|].
    split; [reflexivity|]. split; [reflexivity|].
    intros a _ Hnew. apply lookup_insert_ne. congruence.
Qed.

(** What runs of the operations keep. *)
Lemma built_linked m queue popped :
  built m queue popped ->
  exists l,
    chain m (last queue) l /\
    first queue = list.last l /\
    Forall (fun a => (a < nextnode m)%positive) l /\
    NoDup popped /\
    Forall (fun a => (a < nextnode m)%positive /\ (a ∉ l) /\ is_Some (nodes m !! a))
           popped.
Proof.
  induction 1 as
    [queue nx Hnew
    |ok m queue popped p g m' queue' _ IH Hpush
    |m queue popped queue' node _ IH Hpop
    |h m queue popped popped' node h' m' _ IH Hfree].
  - injection Hnew as <-. exists []. split; [constructor|].
    split; [reflexivity|]. repeat constructor.
  - destruct IH as (l & Hc & Hf & Hlt & Hnd & Hpopped).
    destruct ok; [|injection Hpush as <- <-; eauto 10].
    destruct (push_front_linked m queue l p g Hc Hf Hlt)
      as (m1 & queue1 & Hpush1 & Hc1 & Hf1 & Hnext & Hsame).
    assert (m1 = m' /\ queue1 = queue') as [-> ->] by (split; congruence).
    exists (l ++ [nextnode m]). split; [assumption|].
    split; [rewrite last_snoc; assumption|]. rewrite Hnext. split.
    { apply Forall_app. split.
      - eapply Forall_impl; [exact Hlt|]. cbn beta. intros; lia.
      - constructor; [lia|constructor]. }
    split; [assumption|].
    eapply Forall_impl; [exact Hpopped|]. cbn beta. intros a (Ha & Hnot & Hsome).
    assert (Hne : a <> nextnode m) by lia.
    split; [lia|]. split.
    + intros Hin. apply elem_of_app in Hin as [Hin|Hin]; [contradiction|].
      apply list_elem_of_singleton in Hin. contradiction.
    + rewrite Hsame by assumption. assumption.
  - destruct IH as (l & Hc & Hf & Hlt & Hnd & Hpopped).
    unfold pop_back in Hpop.
    inversion Hc as [Hlast|a n l' Hn Hc' Hlast]; subst l; rewrite <-Hlast in Hpop.
    { injection Hpop as <- <-. exists []. auto 10. }
    rewrite Hn in Hpop. cbn [mbind option_bind last first] in Hpop.
    rename l' into l. clear Hc. rename Hc' into Hc.
    apply Forall_cons in Hlt as [Ha Hlt].
    assert (Hnot : a ∉ l).
    { apply (chain_notin m). apply chain_node with n; assumption. }
    assert (Hshape : chain m (last queue') l /\ first queue' = list.last l /\
                     node = Some a).
    { destruct (prev n) as [b|] eqn:Hprev.
      - injection Hpop as <- <-. cbn [last first]. split; [assumption|].
        split; [|reflexivity]. rewrite Hf. inversion Hc; subst. reflexivity.
      - injection Hpop as <- <-. cbn [last first].
        apply chain_null_inv in Hc. subst l.
        split; [constructor|]. split; reflexivity. }
    destruct Hshape as (Hc' & Hf' & ->).
    exists l. split; [assumption|]. split; [assumption|]. split; [assumption|].
    cbn [option_list app]. split.
    { constructor; [|assumption]. intros Hin.
      rewrite Forall_forall in Hpopped. destruct (Hpopped a Hin) as (_ & Hout & _).
      apply Hout. left. }
    constructor; [eauto|].
    eapply Forall_impl; [exact Hpopped|]. cbn beta. intros b (Hb & Hout & Hsome).
    split; [assumption|]. split; [|assumption].
    intros Hin. apply Hout. right. assumption.
  - destruct IH as (l & Hc & Hf & Hlt & Hnd & Hpopped).
    unfold free_queue_node in Hfree.
    destruct (nodes m !! node) as [n|]; [|discriminate].
    cbn [mbind option_bind] in Hfree.
    destruct (drop_reference_to_path h (path n)) as [h1|]; [|discriminate].
    cbn [mbind option_bind] in Hfree. injection Hfree as <- <-.
    apply NoDup_app in Hnd as (Hnd1 & Hdisj & Hnd2).
    apply NoDup_cons in Hnd2 as [Hnode2 Hnd2].
    apply Forall_app in Hpopped as [Hp1 Hp2].
    apply Forall_cons in Hp2 as [(_ & Hout & _) Hp2].
    exists l. split.
    { eapply chain_frame; [exact Hc|]. intros b Hb. cbn [nodes].
      apply lookup_delete_ne. intros <-. contradiction. }
    split; [assumption|]. split; [assumption|]. split.
    { apply NoDup_app. split; [assumption|]. split; [|assumption].
      intros b Hb Hb'. apply (Hdisj b Hb). right. assumption. }
    assert (Hkeep : forall b : loc, b <> node ->
      (b < nextnode m)%positive /\ (b ∉ l) /\ is_Some (nodes m !! b) ->
      (b < nextnode m)%positive /\ (b ∉ l) /\ is_Some (delete node (nodes m) !! b)).
    { intros b Hne (Hb & Hbl & Hsome). split; [assumption|]. split; [assumption|].
      rewrite lookup_delete_ne by congruence. assumption. }
    cbn [nodes nextnode]. apply Forall_app. split.
    + rewrite Forall_forall in Hp1 |- *. intros b Hb. apply Hkeep; [|auto].
      intros ->. apply (Hdisj node Hb). left.
    + rewrite Forall_forall in Hp2 |- *. intros b Hb. apply Hkeep; [|auto].
      intros ->. contradiction.
Qed.

(** X16: in every state that runs of [new_queue], [push_front] (its
    allocation succeeding or failing), [pop_back] and [free_queue_node] of
    popped nodes reach, [first] is [NULL] exactly when [last] is, [pop_back]
    reads no node that was freed, and the nodes that were popped and not
    freed since are distinct and still allocated. *)
Theorem built_well_formed m queue popped :
  built m queue popped ->
  (first queue = None <-> last queue = None) /\
  is_Some (pop_back m queue) /\
  NoDup popped /\
  (forall a, a ∈ popped -> is_Some (nodes m !! a)).
Proof.
  intros Hb. destruct (built_linked m queue popped Hb)
    as (l & Hc & Hf & _ & Hnd & Hpopped).
  split; [|split; [|split; [assumption|]]].
  - rewrite Hf. inversion Hc as [Hlast|a n l' Hn Hc' Hlast]; subst l.
    + split; reflexivity.
    + split; [|discriminate]. intros Hnone. apply last_None in Hnone. discriminate.
  - unfold pop_back. inversion Hc as [Hlast|a n l' Hn Hc' Hlast]; [eauto|].
    rewrite Hn. cbn [mbind option_bind]. eauto.
  - intros a Ha. rewrite Forall_forall in Hpopped.
    destruct (Hpopped a Ha) as (_ & _ & Hsome). exact Hsome.
Qed.

(** Two nodes are pushed, the older is popped, a third is pushed: the popped
    node is still allocated, and the queue holds the other two. *)
Lemma built_well_formed_witness :
  (first (mkQueue (Some 3%positive) (Some 2%positive)) = None <->
   last (mkQueue (Some 3%positive) (Some 2%positive)) = None) /\
  is_Some
    (pop_back
       (mkNodes
          (<[2%positive := mkQueueNode None 11 (Some 1%positive) (Some 3%positive)]>
             (<[3%positive := mkQueueNode None 12 (Some 2%positive) None]>
                (<[1%positive := mkQueueNode None 10 None (Some 2%positive)]> ∅)))
          4%positive)
       (mkQueue (Some 3%positive) (Some 2%positive))) /\
  NoDup [1%positive] /\
  (forall a, a ∈ [1%positive] ->
     is_Some
       (nodes
          (mkNodes
             (<[2%positive := mkQueueNode None 11 (Some 1%positive) (Some 3%positive)]>
                (<[3%positive := mkQueueNode None 12 (Some 2%positive) None]>
                   (<[1%positive := mkQueueNode None 10 None (Some 2%positive)]> ∅)))
             4%positive) !! a)).
Proof.
  refine (built_well_formed _ _ [1%positive] _).
  refine (built_push true
            (mkNodes
               (<[1%positive := mkQueueNode None 10 None (Some 2%positive)]>
                  (<[2%positive := mkQueueNode None 11 (Some 1%positive) None]> ∅))
               3%positive)
            (mkQueue (Some 2%positive) (Some 2%positive))
            [1%positive] None 12 _ _ _ eq_refl).
  refine (built_pop
            (mkNodes
               (<[1%positive := mkQueueNode None 10 None (Some 2%positive)]>
                  (<[2%positive := mkQueueNode None 11 (Some 1%positive) None]> ∅))
               3%positive)
            (mkQueue (Some 2%positive) (Some 1%positive)) []
            (mkQueue (Some 2%positive) (Some 2%positive)) (Some 1%positive)
            _ eq_refl).
  refine (built_push true
            (mkNodes (<[1%positive := mkQueueNode None 10 None None]> ∅) 2%positive)
            (mkQueue (Some 1%positive) (Some 1%positive))
            [] None 11 _ _ _ eq_refl).
  refine (built_push true (mkNodes ∅ 1%positive) (mkQueue None None)
            [] None 10 _ _ _ eq_refl).
  exact (built_new (mkQueue None None) 1%positive eq_refl).
Defined.

End LinkedQueueFacts.
